(** * AbletonMCP client scripts: arrangement player and test harness

    A shallow embedding of [arrangement_player_example.py] and
    [test_ableton_mcp.py].  Both scripts are clients of a remote
    control surface: every command opens one TCP connection, sends a
    JSON object and reads a JSON reply.  The remote side is modelled by
    what it makes the socket calls do (a script per connection); the
    scripts themselves are modelled as state-passing functions over an
    exception-or-value result type. *)

From Stdlib Require Import ZArith List String Ascii Bool Lia.
From Stdlib Require Import Sorting.Permutation Sorting.Sorted.
From Stdlib Require Import DecimalString.
From Stdlib Require Strings.Byte.
Import ListNotations.
Open Scope string_scope.
Open Scope list_scope.
Open Scope Z_scope.
Set Warnings "-register-all".

(* ================================================================== *)
(** ** Python values, exceptions and the builtins the scripts use *)
(* ================================================================== *)

Module Py.

(** Errors of the socket layer; all of them are [OSError]s in Python.
    [Timeout] is [socket.timeout]. *)
Inductive sockerr := Timeout | Refused | Reset.

(** The exception classes that occur in the two scripts.  [UserError]
    stands for an exception raised by a callback handed to the harness. *)
Inductive exn :=
| OSError (k : sockerr)
| JSONDecodeError
| UnicodeDecodeError
| UnboundLocalError
| AttributeError
| TypeError
| KeyError
| IndexError
| OverflowError
| UserError.

(** A call either returns a value or raises. *)
Inductive res (A : Type) :=
| Return (a : A)
| Raise (e : exn).
Arguments Return {A} a.
Arguments Raise {A} e.

Definition rbind {A B} (m : res A) (f : A -> res B) : res B :=
  match m with
  | Return a => f a
  | Raise e => Raise e
  end.

Definition is_transport_error (e : exn) : bool :=
  match e with OSError _ => true | _ => false end.

Definition is_decode_error (e : exn) : bool :=
  match e with JSONDecodeError | UnicodeDecodeError => true | _ => false end.

(** A Python [float]: not-a-number, an infinity, or the finite value
    [(-1)^neg * m * 2^e]. *)
Inductive pyfloat :=
| FNaN
| FInf (neg : bool)
| FFinite (neg : bool) (m : N) (e : Z).

(** The values [json.loads] produces.  A [dict] keeps its items in an
    association list; the first item of a key is the one looked up. *)
Inductive pyval :=
| VNone
| VBool (b : bool)
| VInt (z : Z)
| VFloat (f : pyfloat)
| VStr (s : string)
| VList (l : list pyval)
| VDict (d : list (string * pyval)).

Fixpoint lookup (k : string) (d : list (string * pyval)) : option pyval :=
  match d with
  | [] => None
  | (k', v) :: d' => if String.eqb k k' then Some v else lookup k d'
  end.

(** [v.get(k, default)]: only a dict has the method. *)
Definition py_get (v : pyval) (k : string) (default : pyval) : res pyval :=
  match v with
  | VDict d => Return (match lookup k d with Some x => x | None => default end)
  | _ => Raise AttributeError
  end.

(** Exact comparison of a finite float [(-1)^neg * m * 2^e] with an
    integer. *)
Definition finite_compare_Z (neg : bool) (m : N) (e : Z) (z : Z) : comparison :=
  let sm := if neg then - Z.of_N m else Z.of_N m in
  if 0 <=? e then Z.compare (sm * 2 ^ e) z
  else Z.compare sm (z * 2 ^ (- e)).

(** Comparison of a number with an integer; [None] when the value is no
    number or is a NaN.  A [bool] is the integer 0 or 1. *)
Definition num_compare_Z (v : pyval) (z : Z) : option (option comparison) :=
  match v with
  | VInt x => Some (Some (Z.compare x z))
  | VBool b => Some (Some (Z.compare (if b then 1 else 0) z))
  | VFloat FNaN => Some None
  | VFloat (FInf neg) => Some (Some (if neg then Lt else Gt))
  | VFloat (FFinite neg m e) => Some (Some (finite_compare_Z neg m e z))
  | _ => None
  end.

(** [v == z] for an integer literal [z]: never raises. *)
Definition py_eq_int (v : pyval) (z : Z) : bool :=
  match num_compare_Z v z with
  | Some (Some Eq) => true
  | _ => false
  end.

(** [v == s] for a string literal [s]. *)
Definition py_eq_str (v : pyval) (s : string) : bool :=
  match v with
  | VStr s' => String.eqb s' s
  | _ => false
  end.

(** [v >= z] and [v > z] for an integer [z]: a [TypeError] unless [v] is a number. *)
Definition py_ge_int (v : pyval) (z : Z) : res bool :=
  match num_compare_Z v z with
  | Some (Some Lt) => Return false
  | Some (Some _) => Return true
  | Some None => Return false
  | None => Raise TypeError
  end.

Definition py_gt_int (v : pyval) (z : Z) : res bool :=
  match num_compare_Z v z with
  | Some (Some Gt) => Return true
  | Some _ => Return false
  | None => Raise TypeError
  end.

(** Truth value of a JSON-derived value. *)
Definition truthy (v : pyval) : bool :=
  match v with
  | VNone => false
  | VBool b => b
  | VInt z => negb (z =? 0)
  | VFloat FNaN => true
  | VFloat (FInf _) => true
  | VFloat (FFinite _ m _) => negb (N.eqb m 0)
  | VStr s => negb (String.eqb s "")
  | VList l => match l with [] => false | _ => true end
  | VDict d => match d with [] => false | _ => true end
  end.

(** Substring test on strings. *)
Fixpoint is_substring (needle hay : string) : bool :=
  if String.prefix needle hay then true
  else match hay with
       | EmptyString => false
       | String _ hay' => is_substring needle hay'
       end.

(** ['k' in v] for a string literal [k]. *)
Definition py_in_str (k : string) (v : pyval) : res bool :=
  match v with
  | VDict d => Return (match lookup k d with Some _ => true | None => false end)
  | VList l => Return (existsb (fun x => py_eq_str x k) l)
  | VStr s => Return (is_substring k s)
  | _ => Raise TypeError
  end.

(** A [str] is kept in its UTF-8 encoding; its characters are the
    groups made of a byte and the continuation bytes ([10xxxxxx]) that
    follow it. *)
Definition is_continuation (c : ascii) : bool :=
  let n := N_of_ascii c in (128 <=? n)%N && (n <? 192)%N.

Fixpoint str_chars (s : string) : list string :=
  match s with
  | EmptyString => []
  | String c s' =>
      match str_chars s' with
      | [] => [String c EmptyString]
      | g :: gs =>
          match g with
          | String c' _ =>
              if is_continuation c' then String c g :: gs
              else String c EmptyString :: g :: gs
          | EmptyString => String c EmptyString :: gs
          end
      end
  end.

(** [len(v)]. *)
Definition py_len (v : pyval) : res Z :=
  match v with
  | VStr s => Return (Z.of_nat (List.length (str_chars s)))
  | VList l => Return (Z.of_nat (List.length l))
  | VDict d => Return (Z.of_nat (List.length d))
  | _ => Raise TypeError
  end.

(** [v[i]] for a non-negative integer literal [i].  The keys of a
    JSON-derived dict are strings, so an integer key is never found. *)
Definition py_index_nat (v : pyval) (i : nat) : res pyval :=
  match v with
  | VList l => match nth_error l i with
               | Some x => Return x
               | None => Raise IndexError
               end
  | VStr s => match nth_error (str_chars s) i with
              | Some c => Return (VStr c)
              | None => Raise IndexError
              end
  | VDict _ => Raise KeyError
  | _ => Raise TypeError
  end.

(** [v['k']] for a string literal [k]. *)
Definition py_index_str (v : pyval) (k : string) : res pyval :=
  match v with
  | VDict d => match lookup k d with
               | Some x => Return x
               | None => Raise KeyError
               end
  | _ => Raise TypeError
  end.

(** Is the value a number ([int], [float] or [bool])? *)
Definition is_number (v : pyval) : bool :=
  match v with
  | VInt _ | VFloat _ | VBool _ => true
  | _ => false
  end.

(** [v + 1]: only whether it raises matters to the scripts' control
    flow; an [int + int] and a [float + int] never raise. *)
Definition py_add_int_check (v : pyval) : res unit :=
  if is_number v then Return tt else Raise TypeError.

(** [v + 0.1]: an [int] is converted to [float] first, which overflows
    for an integer that rounds to [2^1024] or beyond. *)
Definition float_overflow_bound : Z := 2 ^ 1024 - 2 ^ 970.

Definition py_add_float_check (v : pyval) : res unit :=
  match v with
  | VInt z => if float_overflow_bound <=? Z.abs z then Raise OverflowError
              else Return tt
  | VFloat _ | VBool _ => Return tt
  | _ => Raise TypeError
  end.

(** Integer view of a value that must be an [int] (or [bool]). *)
Definition as_int (v : pyval) : option Z :=
  match v with
  | VInt z => Some z
  | VBool b => Some (if b then 1 else 0)
  | _ => None
  end.

End Py.
Export Py.

Notation "x <- m ;; k" := (rbind m (fun x => k))
  (at level 61, m at next level, right associativity).

(* ================================================================== *)
(** ** The socket as the scripts see it *)
(* ================================================================== *)

Module Net.

Definition bytes := list Init.Byte.byte.

(** What one [s.recv(n)] call does: hand over bytes (an empty string
    when the peer has closed) or raise. *)
Inductive recv_event :=
| Data (chunk : bytes)
| RecvRaises (k : sockerr).

(** The behaviour of one connection.  [connect] and [sendall] say
    whether the call raises; [recvs] scripts the successive [recv]
    calls.  Both scripts set a timeout on the socket, so a [recv] past
    the end of the script raises [socket.timeout]. *)
Record conn := mkConn {
  connect : option sockerr;
  sendall : option sockerr;
  recvs : list recv_event
}.

(** The three outcomes of [json.loads(buf.decode())]. *)
Inductive parse_outcome :=
| Parsed (v : pyval)
| BadJSON
| BadUnicode.

Definition opt_raise (o : option sockerr) : res unit :=
  match o with
  | None => Return tt
  | Some k => Raise (OSError k)
  end.

End Net.
Export Net.

(* ================================================================== *)
(** ** The command client of the arrangement player *)
(* ================================================================== *)

Module Player.

Section Client.

(** [json.loads(buf.decode())], the standard library's decoder. *)
Variable loads : bytes -> parse_outcome.

(** The parse after the read loop (line 42). *)
Definition final_parse (buf : bytes) : res pyval :=
  match loads buf with
  | Parsed v => Return v
  | BadJSON => Raise JSONDecodeError
  | BadUnicode => Raise UnicodeDecodeError
  end.

(** The read loop (lines 27-40); [buf] is [b''.join(chunks)]. *)
Fixpoint recv_loop (buf : bytes) (evs : list recv_event) : res pyval :=
  match evs with
  | [] => final_parse buf
  | RecvRaises Timeout :: _ => final_parse buf
  | RecvRaises k :: _ => Raise (OSError k)
  | Data [] :: _ => final_parse buf
  | Data chunk :: evs' =>
      match loads (buf ++ chunk) with
      | Parsed v => Return v
      | BadJSON => recv_loop (buf ++ chunk) evs'
      | BadUnicode => Raise UnicodeDecodeError
      end
  end.

Definition send_command (c : conn) : res pyval :=
  _ <- opt_raise (connect c) ;;
  _ <- opt_raise (sendall c) ;;
  recv_loop [] (recvs c).

End Client.

(** An arrangement cue: the tuple [(bar_number, scene_index, name)]. *)
Record cue := mkCue {
  bar : Z;
  scene : Z;
  name : string
}.

(** [sorted(arrangement, key=lambda x: x[0])]: a stable sort on the bar
    number, here by insertion. *)
Fixpoint insert (x : cue) (l : list cue) : list cue :=
  match l with
  | [] => [x]
  | y :: l' => if bar x <=? bar y then x :: y :: l' else y :: insert x l'
  end.

Fixpoint sorted (arrangement : list cue) : list cue :=
  match arrangement with
  | [] => []
  | x :: l => insert x (sorted l)
  end.

(** What the remote side does with the successive connections of each
    command the player issues.  When a queue is used up the remote
    side is gone and connecting fails. *)
Record world := mkWorld {
  start_conns : list conn;
  fire_conns : list conn;
  position_conns : list conn
}.

Definition refused : conn := mkConn (Some Refused) None [].

(** The observable actions of a run: the calls of [send_command] and
    the two closing console lines. *)
Inductive event :=
| Command (cmd_type : string) (params : pyval)
| PrintStopped
| PrintComplete.

(** The state threaded through the player: the connections still to
    come for [start_playback] and [fire_scene], and the actions so far
    (oldest first). *)
Record pstate := mkP {
  start_q : list conn;
  fire_q : list conn;
  log : list event
}.

Definition M (A : Type) := pstate -> res A * pstate.

Definition ret {A} (a : A) : M A := fun s => (Return a, s).

Definition bind {A B} (m : M A) (f : A -> M B) : M B :=
  fun s => match m s with
           | (Return a, s') => f a s'
           | (Raise e, s') => (Raise e, s')
           end.

Definition lift {A} (r : res A) : M A := fun s => (r, s).

Definition emit (e : event) : M unit :=
  fun s => (Return tt, mkP (start_q s) (fire_q s) (log s ++ [e])).

Definition next_start : M conn :=
  fun s => match start_q s with
           | [] => (Return refused, s)
           | c :: q => (Return c, mkP q (fire_q s) (log s))
           end.

Definition next_fire : M conn :=
  fun s => match fire_q s with
           | [] => (Return refused, s)
           | c :: q => (Return c, mkP (start_q s) q (log s))
           end.

Section Scheduler.

Variable loads : bytes -> parse_outcome.

Local Notation "x <-- m ;;; k" := (bind m (fun x => k))
  (at level 61, m at next level, right associativity).

(** [get_position()] on the connection the remote side offers. *)
Definition get_position (c : conn) : M pyval :=
  _ <-- emit (Command "get_song_position" (VDict [])) ;;;
  result <-- lift (send_command loads c) ;;;
  lift (py_get result "result" result).

Definition fire_scene (index : Z) : M pyval :=
  _ <-- emit (Command "fire_scene" (VDict [("scene_index", VInt index)])) ;;;
  c <-- next_fire ;;;
  result <-- lift (send_command loads c) ;;;
  lift (py_get result "result" result).

Definition start_playback : M pyval :=
  _ <-- emit (Command "start_playback" (VDict [])) ;;;
  c <-- next_start ;;;
  lift (send_command loads c).

(** One pass through the body of the [while] loop (lines 103-123):
    [Some i] is the pending-cue index to go on with, [None] is [break]. *)
Definition poll (arrangement : list cue) (current_index : nat) (c : conn)
  : M (option nat) :=
  pos <-- get_position c ;;;
  current_bar <-- lift (py_get pos "current_bar" (VInt 0)) ;;;
  is_playing <-- lift (py_get pos "is_playing" (VBool false)) ;;;
  if negb (truthy is_playing) then
    _ <-- emit PrintStopped ;;;
    ret None
  else
    match nth_error arrangement current_index with
    | None => lift (Raise IndexError)
    | Some next =>
        due <-- lift (py_ge_int current_bar (bar next)) ;;;
        if (due : bool) then
          _ <-- fire_scene (scene next) ;;;
          ret (Some (S current_index))
        else ret (Some current_index)
    end.

(** The [while] loop (lines 102-123), one position query per pass.  The
    result carries the position connections left over.  Past the end
    of the feed the remote side is gone, so the query of that pass
    raises and the loop ends with its error. *)
Fixpoint poll_loop (arrangement : list cue) (feed : list conn)
    (current_index : nat) (s : pstate) : res unit * list conn * pstate :=
  if (current_index <? List.length arrangement)%nat then
    match feed with
    | [] =>
        match poll arrangement current_index refused s with
        | (Raise e, s') => (Raise e, [], s')
        | (Return _, s') => (Raise (OSError Refused), [], s')
        end
    | c :: feed' =>
        match poll arrangement current_index c s with
        | (Raise e, s') => (Raise e, feed', s')
        | (Return None, s') => (Return tt, feed', s')
        | (Return (Some i), s') => poll_loop arrangement feed' i s'
        end
    end
  else (Return tt, feed, s).

(** [run_arrangement] from the sort on (lines 83-126).  The listing of
    the arrangement, the ENTER prompt before it and the pauses of
    [time.sleep] do not touch the connection; a keyboard interrupt is
    not part of the model. *)
Definition run_arrangement (arrangement : list cue) (w : world)
  : res unit * world * list event :=
  let arrangement := sorted arrangement in
  let s0 := mkP (start_conns w) (fire_conns w) [] in
  let finish (r : res unit) (feed : list conn) (s : pstate) :=
    (r, mkWorld (start_q s) (fire_q s) feed, log s) in
  match start_playback s0 with
  | (Raise e, s1) => finish (Raise e) (position_conns w) s1
  | (Return _, s1) =>
      match arrangement with
      | [] => finish (Raise IndexError) (position_conns w) s1
      | first :: _ =>
          match fire_scene (scene first) s1 with
          | (Raise e, s2) => finish (Raise e) (position_conns w) s2
          | (Return _, s2) =>
              match poll_loop arrangement (position_conns w) 1 s2 with
              | (Raise e, feed, s3) => finish (Raise e) feed s3
              | (Return _, feed, s3) =>
                  match emit PrintComplete s3 with
                  | (_, s4) => finish (Return tt) feed s4
                  end
              end
          end
      end
  end.

(** The [scene_index] arguments of the [fire_scene] calls of a log. *)
Definition fired_scene (e : event) : list Z :=
  match e with
  | Command cmd (VDict [(_, VInt i)]) =>
      if String.eqb cmd "fire_scene" then [i] else []
  | _ => []
  end.

Definition fired_scenes (l : list event) : list Z := flat_map fired_scene l.

(** What a position query on [c] yields: the pair of
    [pos.get('current_bar', 0)] and [pos.get('is_playing', False)]. *)
Definition position_of (c : conn) : res (pyval * pyval) :=
  result <- send_command loads c ;;
  pos <- py_get result "result" result ;;
  current_bar <- py_get pos "current_bar" (VInt 0) ;;
  is_playing <- py_get pos "is_playing" (VBool false) ;;
  Return (current_bar, is_playing).

(** The query on [c] reports playback running at a bar that has
    reached [z]. *)
Definition due (z : Z) (c : conn) : bool :=
  match position_of c with
  | Return (b, p) =>
      truthy p && match py_ge_int b z with Return true => true | _ => false end
  | Raise _ => false
  end.

(** The query on [c] reports playback running at some bar number. *)
Definition playing (c : conn) : bool :=
  match position_of c with
  | Return (b, p) => truthy p && is_number b
  | Raise _ => false
  end.

(** The query on [c] reports that playback is not running. *)
Definition halted (c : conn) : bool :=
  match position_of c with
  | Return (_, p) => negb (truthy p)
  | Raise _ => false
  end.

(** A call of [fire_scene] on [c] returns. *)
Definition acked (c : conn) : bool :=
  match result <- send_command loads c ;; py_get result "result" result with
  | Return _ => true
  | Raise _ => false
  end.

(** A call of [start_playback] on [c] returns. *)
Definition started (c : conn) : bool :=
  match send_command loads c with
  | Return _ => true
  | Raise _ => false
  end.

Definition poll_command : event := Command "get_song_position" (VDict []).

Definition fire_command (index : Z) : event :=
  Command "fire_scene" (VDict [("scene_index", VInt index)]).

End Scheduler.

End Player.

(* ================================================================== *)
(** ** The command client of the test harness *)
(* ================================================================== *)

Module Harness.

Section Client.

Variable loads : bytes -> parse_outcome.

(** [str(e)], the message text of an exception. *)
Variable str_exn : exn -> string.

(** The read loop (lines 33-42), followed by [return result]: when the
    loop is left by [break] on an empty chunk, [result] was never
    assigned. *)
Fixpoint recv_loop (response : bytes) (evs : list recv_event) : res pyval :=
  match evs with
  | [] => Raise (OSError Timeout)
  | RecvRaises k :: _ => Raise (OSError k)
  | Data [] :: _ => Raise UnboundLocalError
  | Data chunk :: evs' =>
      match loads (response ++ chunk) with
      | Parsed v => Return v
      | BadJSON => recv_loop (response ++ chunk) evs'
      | BadUnicode => Raise UnicodeDecodeError
      end
  end.

(** The body of the [try] block (lines 24-45). *)
Definition send_command_body (c : conn) : res pyval :=
  _ <- opt_raise (connect c) ;;
  _ <- opt_raise (sendall c) ;;
  recv_loop [] (recvs c).

(** [{"status": "error", "message": str(e)}] *)
Definition error_response (e : exn) : pyval :=
  VDict [("status", VStr "error"); ("message", VStr (str_exn e))].

(** [send_command]: the [except Exception] clause turns every
    exception of the body into a returned error response (lines 46-47). *)
Definition send_command (c : conn) : res pyval :=
  match send_command_body c with
  | Return v => Return v
  | Raise e => Return (error_response e)
  end.

End Client.

(** One entry of [self.test_results]. *)
Inductive status := passed | failed.

(** The ['error'] item of a failed entry: the response's
    [result.get('message')], the text ['Check function failed'], or
    [str(e)] of the exception caught. *)
Inductive error_info :=
| ErrMessage (v : pyval)
| ErrCheck
| ErrException (e : exn).

Record test_result := mkResult {
  tr_name : string;
  tr_status : status;
  tr_error : option error_info
}.

(** The counters and the result list of an [AbletonMCPTester]. *)
Record tester := mkTester {
  tests_passed : nat;
  tests_failed : nat;
  test_results : list test_result
}.

(** [__init__] (lines 14-19). *)
Definition init : tester := mkTester 0 0 [].

(** The harness state: the tester object, the connections the remote
    side will offer to the calls of [send_command] still to come (in
    call order; past the end the remote side is gone and connecting
    fails), and the variables [E] that the caller's closures assign. *)
Record hstate (E : Type) := mkH {
  h_tester : tester;
  h_world : list conn;
  h_env : E
}.
Arguments mkH {E}.
Arguments h_tester {E}.
Arguments h_world {E}.
Arguments h_env {E}.

Definition refused : conn := mkConn (Some Refused) None [].

Definition record_failed (nm : string) (err : error_info) (t : tester) : tester :=
  mkTester (tests_passed t) (S (tests_failed t))
           (test_results t ++ [mkResult nm failed (Some err)]).

Definition record_passed (nm : string) (t : tester) : tester :=
  mkTester (S (tests_passed t)) (tests_failed t)
           (test_results t ++ [mkResult nm passed None]).

Section Tests.

Variable loads : bytes -> parse_outcome.
Variable str_exn : exn -> string.

Section Test.

Variable E : Type.

(** [self.send_command(...)] on the next connection.  The command and
    its parameters are payload only: the remote side is modelled by
    its replies in call order, so they are not represented. *)
Definition call (s : hstate E) : res pyval * hstate E :=
  match h_world s with
  | [] => (send_command loads str_exn refused, s)
  | c :: w => (send_command loads str_exn c, mkH (h_tester s) w (h_env s))
  end.

(** The [try] block of [test] (lines 55-80).  A check function returns
    a truth value or raises; a cleanup function updates the caller's
    variables or raises. *)
Definition test_try (nm : string)
    (check_func : option (pyval -> res bool))
    (cleanup_func : option (pyval -> E -> res E))
    (s : hstate E) : res bool * hstate E :=
  let '(sent, s1) := call s in
  match result <- sent ;;
        st <- py_get result "status" VNone ;;
        Return (result, st) with
  | Raise e => (Raise e, s1)
  | Return (result, st) =>
      if py_eq_str st "error" then
        match py_get result "message" VNone with
        | Raise e => (Raise e, s1)
        | Return msg =>
            (Return false,
             mkH (record_failed nm (ErrMessage msg) (h_tester s1))
                 (h_world s1) (h_env s1))
        end
      else
        match match check_func with
              | Some f => f result
              | None => Return true
              end with
        | Raise e => (Raise e, s1)
        | Return false =>
            (Return false,
             mkH (record_failed nm ErrCheck (h_tester s1))
                 (h_world s1) (h_env s1))
        | Return true =>
            let t2 := record_passed nm (h_tester s1) in
            match cleanup_func with
            | None => (Return true, mkH t2 (h_world s1) (h_env s1))
            | Some g =>
                match g result (h_env s1) with
                | Return env' => (Return true, mkH t2 (h_world s1) env')
                | Raise e => (Raise e, mkH t2 (h_world s1) (h_env s1))
                end
            end
        end
  end.

(** [test] (lines 49-87): the [except Exception] clause records a
    failure for whatever the [try] block raised. *)
Definition test (nm : string)
    (check_func : option (pyval -> res bool))
    (cleanup_func : option (pyval -> E -> res E))
    (s : hstate E) : bool * hstate E :=
  match test_try nm check_func cleanup_func s with
  | (Return b, s') => (b, s')
  | (Raise e, s') =>
      (false,
       mkH (record_failed nm (ErrException e) (h_tester s'))
           (h_world s') (h_env s'))
  end.

End Test.

(** The variables of [run_all_tests] that its nested functions assign
    through [nonlocal]. *)
Record locals := mkLocals {
  midi_result : option pyval;
  audio_result : option pyval;
  dup_result : option pyval;
  scene_result : option pyval
}.

Definition store_midi_track (r : pyval) (l : locals) : res locals :=
  Return (mkLocals (Some r) (audio_result l) (dup_result l) (scene_result l)).

Definition store_audio_track (r : pyval) (l : locals) : res locals :=
  Return (mkLocals (midi_result l) (Some r) (dup_result l) (scene_result l)).

Definition store_dup_track (r : pyval) (l : locals) : res locals :=
  Return (mkLocals (midi_result l) (audio_result l) (Some r) (scene_result l)).

Definition store_scene (r : pyval) (l : locals) : res locals :=
  Return (mkLocals (midi_result l) (audio_result l) (dup_result l) (Some r)).

(** [r.get('result', {}).get(k, default)] *)
Definition result_field (r : pyval) (k : string) (default : pyval) : res pyval :=
  x <- py_get r "result" (VDict []) ;;
  py_get x k default.

(** [lambda r: k in r.get('result', {})] *)
Definition has_key (k : string) (r : pyval) : res bool :=
  x <- py_get r "result" (VDict []) ;;
  py_in_str k x.

(** [lambda r: r.get('result', {}).get('note_count', 0) == 3] *)
Definition three_notes (r : pyval) : res bool :=
  n <- result_field r "note_count" (VInt 0) ;;
  Return (py_eq_int n 3).

(** [lambda r: r.get('result', {}).get(k) == True] *)
Definition is_true (k : string) (r : pyval) : res bool :=
  v <- result_field r k VNone ;;
  Return (py_eq_int v 1).

(** [x.get('result', {}).get(k, 0) if x else default] for a variable
    [x] that is [None] or a stored response. *)
Definition stored_index (x : option pyval) (k : string) (default : Z) : res pyval :=
  match x with
  | Some r => if truthy r then result_field r k (VInt 0) else Return (VInt default)
  | None => Return (VInt default)
  end.

(** [range(current - initial)]: the number of passes of the cleanup
    loop.  The difference of two integers is an integer; with a float
    operand the difference is a float, which [range] rejects, and an
    integer too large for a float cannot even be subtracted. *)
Definition tracks_to_delete (current initial : pyval) : res Z :=
  match as_int current, as_int initial with
  | Some c, Some i => Return (c - i)
  | _, _ =>
      match current, initial with
      | VFloat _, VInt z | VInt z, VFloat _ =>
          if float_overflow_bound <=? Z.abs z then Raise OverflowError
          else Raise TypeError
      | _, _ => Raise TypeError
      end
  end.

Definition decimal (z : Z) : string := NilZero.string_of_int (Z.to_int z).

(** The monad of [run_all_tests]: harness state, and an exception of
    the code between the tests ends the run. *)
Definition T (A : Type) := hstate locals -> res A * hstate locals.

Definition tret {A} (a : A) : T A := fun s => (Return a, s).

Definition tbind {A B} (m : T A) (f : A -> T B) : T B :=
  fun s => match m s with
           | (Return a, s') => f a s'
           | (Raise e, s') => (Raise e, s')
           end.

Definition tlift {A} (r : res A) : T A := fun s => (r, s).

Local Notation "x <~ m ;; k" := (tbind m (fun x => k))
  (at level 61, m at next level, right associativity).

Local Notation "m ;;; k" := (tbind m (fun _ => k))
  (at level 61, right associativity).

(** [self.test(name, ...)] as a step of the run. *)
Definition run_test (nm : string)
    (check_func : option (pyval -> res bool))
    (cleanup_func : option (pyval -> locals -> res locals)) : T bool :=
  fun s => let '(b, s') := test locals nm check_func cleanup_func s in
           (Return b, s').

(** [self.send_command(...)] outside of a test. *)
Definition query : T pyval := call locals.

(** [get_local f]: read one of the [nonlocal] variables. *)
Definition get_local (f : locals -> option pyval) : T (option pyval) :=
  fun s => (Return (f (h_env s)), s).

(** The cleanup loop (lines 364-367): [i] runs over [range(n)]. *)
Fixpoint delete_tracks (current : Z) (i : Z) (n : nat) : T unit :=
  match n with
  | O => tret tt
  | S n' =>
      run_test ("Delete test track " ++ decimal (current - 1 - i)) None None ;;;
      delete_tracks current (i + 1) n'
  end.

(** Lines 260-287: the tests on the first device of the track. *)
Definition device_tests (devices : pyval) : T unit :=
  d0 <~ tlift (py_index_nat devices 0) ;;
  _ <~ tlift (py_index_str d0 "index") ;;
  run_test "Get device parameters" (Some (has_key "parameters")) None ;;;
  params_result <~ query ;;
  params <~ tlift (result_field params_result "parameters" (VList [])) ;;
  n <~ tlift (py_len params) ;;
  (if 1 <? n then
     p1 <~ tlift (py_index_nat params 1) ;;
     _ <~ tlift (py_index_str p1 "index") ;;
     param_val <~ tlift (py_get p1 "value" (VFloat (FFinite false 1 (-1)))) ;;
     tlift (py_add_float_check param_val) ;;;
     run_test "Set device parameter" None None ;;;
     tret tt
   else tret tt) ;;;
  run_test "Set device enabled" None None ;;;
  run_test "Set device enabled (re-enable)" None None ;;;
  run_test "Delete device" None None ;;;
  tret tt.

(** Lines 103-370: the run after the connection check. *)
Definition run_suite : T unit :=
  initial_info <~ query ;;
  initial_track_count <~ tlift (result_field initial_info "track_count" (VInt 0)) ;;
  (* session info *)
  run_test "Get session info" (Some (has_key "tempo")) None ;;;
  run_test "Get song position" (Some (has_key "current_time")) None ;;;
  (* transport *)
  run_test "Start playback" None None ;;;
  run_test "Stop playback" None None ;;;
  run_test "Set tempo" None None ;;;
  (* track management *)
  run_test "Create MIDI track" (Some (has_key "index")) (Some store_midi_track) ;;;
  m <~ get_local midi_result ;;
  _ <~ tlift (stored_index m "index" 0) ;;
  run_test "Create audio track" (Some (has_key "index")) (Some store_audio_track) ;;;
  a <~ get_local audio_result ;;
  _ <~ tlift (stored_index a "index" 1) ;;
  run_test "Set track name" None None ;;;
  run_test "Get track info" (Some (has_key "name")) None ;;;
  run_test "Set track volume" None None ;;;
  run_test "Set track pan" None None ;;;
  run_test "Set track mute" None None ;;;
  run_test "Set track solo" None None ;;;
  run_test "Set track arm" None None ;;;
  run_test "Get track routing" (Some (has_key "input_routing_type")) None ;;;
  run_test "Duplicate track" (Some (has_key "new_index")) (Some store_dup_track) ;;;
  d <~ get_local dup_result ;;
  _ <~ tlift (stored_index d "new_index" 0) ;;
  (* clip management *)
  run_test "Create clip" (Some (has_key "name")) None ;;;
  run_test "Add notes to clip" (Some three_notes) None ;;;
  run_test "Get clip notes" (Some three_notes) None ;;;
  run_test "Set clip name" None None ;;;
  run_test "Set clip loop" (Some (is_true "looping")) None ;;;
  run_test "Duplicate clip" (Some (is_true "duplicated")) None ;;;
  run_test "Remove notes from clip" None None ;;;
  run_test "Replace notes in clip" None None ;;;
  run_test "Fire clip" None None ;;;
  run_test "Stop clip" None None ;;;
  run_test "Delete clip" None None ;;;
  (* device control *)
  run_test "Load instrument" None None ;;;
  track_info <~ query ;;
  devices <~ tlift (result_field track_info "devices" (VList [])) ;;
  (if truthy devices then device_tests devices else tret tt) ;;;
  (* scene management *)
  run_test "Get scenes" (Some (has_key "scenes")) None ;;;
  run_test "Create scene" (Some (has_key "index")) (Some store_scene) ;;;
  sc <~ get_local scene_result ;;
  scene_idx <~ tlift (stored_index sc "index" 0) ;;
  run_test "Set scene name" None None ;;;
  run_test "Fire scene" None None ;;;
  run_test "Stop all clips" None None ;;;
  run_test "Duplicate scene" None None ;;;
  tlift (py_add_int_check scene_idx) ;;;
  run_test "Delete scene" None None ;;;
  run_test "Delete scene" None None ;;;
  (* master track *)
  run_test "Get master track info" (Some (has_key "name")) None ;;;
  run_test "Set master volume" None None ;;;
  (* return tracks *)
  run_test "Get return tracks" (Some (has_key "returns")) None ;;;
  return_tracks <~ query ;;
  return_count <~ tlift (result_field return_tracks "return_count" (VInt 0)) ;;
  has_returns <~ tlift (py_gt_int return_count 0) ;;
  (if (has_returns : bool) then run_test "Set track send" None None ;;; tret tt
   else tret tt) ;;;
  (* browser *)
  run_test "Get browser tree" (Some (has_key "categories")) None ;;;
  run_test "Get browser items at path" (Some (has_key "items")) None ;;;
  (* undo and redo *)
  run_test "Undo" None None ;;;
  run_test "Redo" None None ;;;
  (* cleanup *)
  current_info <~ query ;;
  current_track_count <~ tlift (result_field current_info "track_count" (VInt 0)) ;;
  n <~ tlift (tracks_to_delete current_track_count initial_track_count) ;;
  delete_tracks (match as_int current_track_count with Some c => c | None => 0 end)
                0 (Z.to_nat n).

(** [run_all_tests] (lines 89-370): the run stops right after the
    connection check when that test fails.  [print_summary] only
    prints. *)
Definition run_all_tests : T unit :=
  connected <~ run_test "Connection" None None ;;
  if (connected : bool) then run_suite else tret tt.

Definition new_run (w : list conn) : hstate locals :=
  mkH init w (mkLocals None None None None).

(** [main] (lines 394-406): the exit status of the process.  An
    exception that leaves [run_all_tests] is not caught anywhere, so the
    interpreter ends with status 1. *)
Definition main (w : list conn) : Z :=
  match run_all_tests (new_run w) with
  | (Raise _, _) => 1
  | (Return _, s) => if (tests_failed (h_tester s) =? 0)%nat then 0 else 1
  end.

End Tests.

End Harness.

(* ================================================================== *)
(** ** A decoder for the integer fragment of JSON *)
(* ================================================================== *)

(** The clients are stated over any decoder [loads].  The examples
    below run them on this one: strict UTF-8 decoding followed by a
    JSON reader that follows [json.loads] on texts without fractional
    or exponent numbers and without [\u] escapes, and reports any other
    text as outside of the fragment. *)
Module Json.

(** Strict UTF-8: no overlong forms, no surrogates, nothing above
    U+10FFFF, no truncated sequence. *)
Definition cont (b : N) : bool := (128 <=? b)%N && (b <=? 191)%N.

Definition between (lo hi b : N) : bool := (lo <=? b)%N && (b <=? hi)%N.

Fixpoint utf8_valid_fuel (fuel : nat) (s : list N) : bool :=
  match fuel with
  | O => match s with [] => true | _ => false end
  | S f =>
      match s with
      | [] => true
      | b :: r =>
          if (b <=? 127)%N then utf8_valid_fuel f r
          else if between 194 223 b then
            match r with
            | c1 :: r' => cont c1 && utf8_valid_fuel f r'
            | _ => false
            end
          else if between 224 239 b then
            match r with
            | c1 :: c2 :: r' =>
                (if (b =? 224)%N then between 160 191 c1
                 else if (b =? 237)%N then between 128 159 c1
                 else cont c1)
                && cont c2 && utf8_valid_fuel f r'
            | _ => false
            end
          else if between 240 244 b then
            match r with
            | c1 :: c2 :: c3 :: r' =>
                (if (b =? 240)%N then between 144 191 c1
                 else if (b =? 244)%N then between 128 143 c1
                 else cont c1)
                && cont c2 && cont c3 && utf8_valid_fuel f r'
            | _ => false
            end
          else false
      end
  end.

Definition utf8_valid (s : list N) : bool := utf8_valid_fuel (List.length s) s.

(** Parser results: a value with the rest of the text, a syntax error,
    or a text outside of the fragment. *)
Inductive pr (A : Type) :=
| Ok (a : A) (rest : list N)
| Bad
| Unsupported.
Arguments Ok {A} a rest.
Arguments Bad {A}.
Arguments Unsupported {A}.

Definition is_ws (b : N) : bool :=
  (b =? 32)%N || (b =? 9)%N || (b =? 10)%N || (b =? 13)%N.

Fixpoint skip_ws (s : list N) : list N :=
  match s with
  | b :: r => if is_ws b then skip_ws r else s
  | [] => []
  end.

Definition is_digit (b : N) : bool := between 48 57 b.

(** The digits at the head of [s], as a number, and the rest. *)
Fixpoint digits (acc : Z) (s : list N) : Z * list N :=
  match s with
  | b :: r => if is_digit b then digits (10 * acc + Z.of_N (b - 48)) r
              else (acc, s)
  | [] => (acc, [])
  end.

(** Does a fraction or an exponent follow the integer part? *)
Definition starts_with_digit (s : list N) : bool :=
  match s with
  | d :: _ => is_digit d
  | [] => false
  end.

Definition float_follows (s : list N) : bool :=
  match s with
  | c :: r =>
      if (c =? 46)%N then starts_with_digit r
      else if (c =? 101)%N || (c =? 69)%N then
        match r with
        | sg :: r' =>
            is_digit sg
            || (((sg =? 43)%N || (sg =? 45)%N) && starts_with_digit r')
        | [] => false
        end
      else false
  | [] => false
  end.

(** The integer part [0 | [1-9][0-9]*] at the head of [s]. *)
Definition int_part (s : list N) : option (Z * list N) :=
  match s with
  | b :: r =>
      if (b =? 48)%N then Some (0, r)
      else if is_digit b then Some (digits 0 s)
      else None
  | [] => None
  end.

Definition string_of_bytes (l : list N) : string :=
  fold_right (fun b s => String (ascii_of_N b) s) EmptyString l.

Definition bytes_of_string (s : string) : list N :=
  map (fun b => Byte.to_N b) (list_byte_of_string s).

(** The characters of a string literal after its opening quote. *)
Fixpoint string_body (acc : list N) (s : list N) : pr string :=
  match s with
  | [] => Bad
  | b :: r =>
      if (b =? 34)%N then Ok (string_of_bytes (rev acc)) r
      else if (b <? 32)%N then Bad
      else if (b =? 92)%N then
        match r with
        | e :: r' =>
            if (e =? 34)%N || (e =? 92)%N || (e =? 47)%N
            then string_body (e :: acc) r'
            else if (e =? 98)%N then string_body (8%N :: acc) r'
            else if (e =? 102)%N then string_body (12%N :: acc) r'
            else if (e =? 110)%N then string_body (10%N :: acc) r'
            else if (e =? 114)%N then string_body (13%N :: acc) r'
            else if (e =? 116)%N then string_body (9%N :: acc) r'
            else if (e =? 117)%N then Unsupported
            else Bad
        | [] => Bad
        end
      else string_body (b :: acc) r
  end.

(** Does [s] start with the characters of [w]? Returns the rest. *)
Fixpoint strip (w s : list N) : option (list N) :=
  match w, s with
  | [], _ => Some s
  | a :: w', b :: s' => if (a =? b)%N then strip w' s' else None
  | _ :: _, [] => None
  end.

(** [d[k] = v] on the items of a dict. *)
Fixpoint dict_set (k : string) (v : pyval) (d : list (string * pyval))
  : list (string * pyval) :=
  match d with
  | [] => [(k, v)]
  | (k', v') :: d' =>
      if String.eqb k k' then (k', v) :: d' else (k', v') :: dict_set k v d'
  end.

Definition lit_null : list N := Eval vm_compute in bytes_of_string "null".
Definition lit_true : list N := Eval vm_compute in bytes_of_string "true".
Definition lit_false : list N := Eval vm_compute in bytes_of_string "false".
Definition lit_nan : list N := Eval vm_compute in bytes_of_string "NaN".
Definition lit_inf : list N := Eval vm_compute in bytes_of_string "Infinity".
Definition lit_neg_inf : list N := Eval vm_compute in bytes_of_string "-Infinity".

Definition literal (s : list N) : option (pyval * list N) :=
  match strip lit_null s with
  | Some r => Some (VNone, r)
  | None =>
  match strip lit_true s with
  | Some r => Some (VBool true, r)
  | None =>
  match strip lit_false s with
  | Some r => Some (VBool false, r)
  | None =>
  match strip lit_nan s with
  | Some r => Some (VFloat FNaN, r)
  | None =>
  match strip lit_inf s with
  | Some r => Some (VFloat (FInf false), r)
  | None =>
  match strip lit_neg_inf s with
  | Some r => Some (VFloat (FInf true), r)
  | None => None
  end end end end end end.

(** An integer (with its sign already read) at the head of [t]. *)
Definition number (neg : bool) (t : list N) : option (pr pyval) :=
  match int_part t with
  | Some (z, r) =>
      Some (if float_follows r then Unsupported
            else Ok (VInt (if neg then - z else z)) r)
  | None => None
  end.

(** A number or a literal at the head of [s]. *)
Definition scalar (s : list N) : pr pyval :=
  match match s with
        | c :: t => if (c =? 45)%N then number true t else number false s
        | [] => None
        end with
  | Some p => p
  | None => match literal s with
            | Some (v, r) => Ok v r
            | None => Bad
            end
  end.

(** The value at the head of [s] (after white space is skipped by the
    caller), the elements of an array from an element on, and the
    members of an object from a key on. *)
Fixpoint value (fuel : nat) (s : list N) : pr pyval :=
  match fuel with
  | O => Unsupported
  | S f =>
      match s with
      | [] => Bad
      | b :: r =>
          if (b =? 34)%N then
            match string_body [] r with
            | Ok str r' => Ok (VStr str) r'
            | Bad => Bad
            | Unsupported => Unsupported
            end
          else if (b =? 91)%N then
            match skip_ws r with
            | [] => Bad
            | c :: r' =>
                if (c =? 93)%N then Ok (VList []) r'
                else elements f (c :: r') []
            end
          else if (b =? 123)%N then
            match skip_ws r with
            | [] => Bad
            | c :: r' =>
                if (c =? 125)%N then Ok (VDict []) r'
                else members f (c :: r') []
            end
          else scalar s
      end
  end
with elements (fuel : nat) (s : list N) (acc : list pyval) : pr pyval :=
  match fuel with
  | O => Unsupported
  | S f =>
      match value f s with
      | Ok v r =>
          match skip_ws r with
          | [] => Bad
          | c :: r' =>
              if (c =? 44)%N then elements f (skip_ws r') (acc ++ [v])
              else if (c =? 93)%N then Ok (VList (acc ++ [v])) r'
              else Bad
          end
      | Bad => Bad
      | Unsupported => Unsupported
      end
  end
with members (fuel : nat) (s : list N) (acc : list (string * pyval)) : pr pyval :=
  match fuel with
  | O => Unsupported
  | S f =>
      match s with
      | [] => Bad
      | b :: r =>
          if (b =? 34)%N then
            match string_body [] r with
            | Ok k r1 =>
                match skip_ws r1 with
                | [] => Bad
                | c :: r2 =>
                    if (c =? 58)%N then
                      match value f (skip_ws r2) with
                      | Ok v r3 =>
                          match skip_ws r3 with
                          | [] => Bad
                          | c' :: r4 =>
                              if (c' =? 44)%N
                              then members f (skip_ws r4) (dict_set k v acc)
                              else if (c' =? 125)%N
                              then Ok (VDict (dict_set k v acc)) r4
                              else Bad
                          end
                      | Bad => Bad
                      | Unsupported => Unsupported
                      end
                    else Bad
                end
            | Bad => Bad
            | Unsupported => Unsupported
            end
          else Bad
      end
  end.

(** The byte at the head of [r] ends a value inside of an array or an
    object: white space, a comma or a closing bracket. *)
Definition stop (r : list N) : bool :=
  match r with
  | b :: _ => is_ws b || (b =? 44)%N || (b =? 93)%N || (b =? 125)%N
  | [] => false
  end.

(** The byte at the head of [s] opens a string, an array or an object. *)
Definition opens (s : list N) : bool :=
  match s with
  | b :: _ => (b =? 34)%N || (b =? 91)%N || (b =? 123)%N
  | [] => false
  end.

Definition ascii_only (s : list N) : bool := forallb (fun b => (b <=? 127)%N) s.

Definition to_N_list (b : bytes) : list N := map (fun x => Byte.to_N x) b.

(** [json.loads(buf.decode())] on the fragment; [None] outside of it. *)
Definition decode (buf : bytes) : option parse_outcome :=
  let s := to_N_list buf in
  if utf8_valid s then
    match value (2 * List.length s + 2) (skip_ws s) with
    | Ok v r => match skip_ws r with
                | [] => Some (Parsed v)
                | _ => Some BadJSON
                end
    | Bad => Some BadJSON
    | Unsupported => None
    end
  else Some BadUnicode.

Definition loads (buf : bytes) : parse_outcome :=
  match decode buf with
  | Some o => o
  | None => BadJSON
  end.

(** The bytes of an ASCII text in which an apostrophe stands for the
    double quote of JSON. *)
Definition text (s : string) : bytes :=
  map (fun b => match b with
                | Byte.x27 => Byte.x22
                | _ => b
                end) (list_byte_of_string s).

(** Message texts are irrelevant to the control flow; the examples use
    the class name. *)
Definition str_exn (e : exn) : string :=
  match e with
  | OSError Timeout => "timed out"
  | OSError Refused => "Connection refused"
  | OSError Reset => "Connection reset by peer"
  | JSONDecodeError => "JSONDecodeError"
  | UnicodeDecodeError => "UnicodeDecodeError"
  | UnboundLocalError => "UnboundLocalError"
  | AttributeError => "AttributeError"
  | TypeError => "TypeError"
  | KeyError => "KeyError"
  | IndexError => "IndexError"
  | OverflowError => "OverflowError"
  | UserError => "UserError"
  end.

End Json.

(* ================================================================== *)
(** ** Concrete connections, arrangements and remote sides *)
(* ================================================================== *)

Module Ex.

(** A connection that delivers the text in one chunk, or in the given
    chunks. *)
Definition reply (s : string) : conn := mkConn None None [Data (Json.text s)].

Definition chunked (l : list bytes) : conn := mkConn None None (map Data l).

(** A connection on which the peer closes without sending anything. *)
Definition closed : conn := mkConn None None [Data []].

(** A connection on which nothing arrives before the timeout. *)
Definition silent : conn := mkConn None None [RecvRaises Timeout].

Definition ok : conn := reply "{'status': 'success', 'result': {}}".

Definition at_bar_10 : conn :=
  reply "{'status': 'success', 'result': {'current_bar': 10, 'is_playing': true}}".

Definition at_bar_17 : conn :=
  reply "{'status': 'success', 'result': {'current_bar': 17, 'is_playing': true}}".

Definition at_bar_50 : conn :=
  reply "{'status': 'success', 'result': {'current_bar': 50, 'is_playing': true}}".

Definition stopped_at_12 : conn :=
  reply "{'status': 'success', 'result': {'current_bar': 12, 'is_playing': false}}".

(** Cues at bars 1, 20 and 30; the position jumps from bar 10 to bar 50. *)
Definition jump_arrangement : list Player.cue :=
  [ Player.mkCue 1 4 "Intro"; Player.mkCue 20 0 "A"; Player.mkCue 30 1 "B" ].

Definition jump_world (polls : list conn) : Player.world :=
  Player.mkWorld [ok] [ok; ok; ok] polls.

(** Two cues on the same bar, given out of order. *)
Definition tie_arrangement : list Player.cue :=
  [ Player.mkCue 17 0 "Build"; Player.mkCue 1 4 "Intro"; Player.mkCue 17 1 "Drop" ].

Definition tie_world : Player.world :=
  Player.mkWorld [ok] [ok; ok; ok] [at_bar_17; at_bar_17].

(** The example of the script and of the specification. *)
Definition intro_build : list Player.cue :=
  [ Player.mkCue 1 4 "Intro"; Player.mkCue 17 0 "Build" ].

(** The text [123] in one chunk and split after [12]. *)
Definition whole_123 : conn := chunked [Json.text "123"].
Definition split_123 : conn := chunked [Json.text "12"; Json.text "3"].

(** An object reply in one chunk and split inside of a key. *)
Definition whole_object : conn := chunked [Json.text "{'status': 'success'}"].
Definition split_object : conn :=
  chunked [Json.text "{'sta"; Json.text "tus': 'suc"; Json.text "cess'}"].

(** The object [{"a":"é"}], whole and split inside of the two-byte
    character. *)
Definition whole_accent : conn :=
  chunked [Json.text "{'a':'" ++ [Byte.xc3; Byte.xa9] ++ Json.text "'}"].
Definition split_accent : conn :=
  chunked [Json.text "{'a':'" ++ [Byte.xc3]; [Byte.xa9] ++ Json.text "'}"].

(** A remote side that answers the connection check and then sends a
    JSON array where an object is expected. *)
Definition array_after_check : list conn := [reply "{}"; reply "[]"].

(** Every buffer that a client can accumulate on the connection lies
    in the fragment of the decoder. *)
Fixpoint buffers_in_fragment (buf : bytes) (evs : list recv_event) : bool :=
  match evs with
  | Data chunk :: evs' =>
      match Json.decode (buf ++ chunk) with
      | Some _ => buffers_in_fragment (buf ++ chunk) evs'
      | None => false
      end
  | _ => match Json.decode buf with Some _ => true | None => false end
  end.

Definition in_fragment (c : conn) : bool := buffers_in_fragment [] (recvs c).

End Ex.

(* ================================================================== *)
(** ** Deliveries: how a reply is cut into chunks *)
(* ================================================================== *)

Module Delivery.

Definition is_bad_json (o : parse_outcome) : bool :=
  match o with BadJSON => true | _ => false end.

Definition nonempty (c : bytes) : bool :=
  match c with [] => false | _ => true end.

(** Every chunk carries data, and after none of them the accumulated
    buffer (starting from [buf]) parses or fails to decode as text: the
    decoder reports each of them as not (yet) JSON. *)
Fixpoint incomplete (loads : bytes -> parse_outcome) (buf : bytes)
    (chunks : list bytes) : bool :=
  match chunks with
  | [] => true
  | c :: cs =>
      nonempty c && is_bad_json (loads (buf ++ c)) && incomplete loads (buf ++ c) cs
  end.

(** The same, except that a buffer may already parse to [v]. *)
Fixpoint no_other_answer (loads : bytes -> parse_outcome) (v : pyval)
    (buf : bytes) (chunks : list bytes) : Prop :=
  match chunks with
  | [] => True
  | c :: cs =>
      nonempty c = true /\
      (loads (buf ++ c) = BadJSON \/ loads (buf ++ c) = Parsed v) /\
      no_other_answer loads v (buf ++ c) cs
  end.

(** The script goes on with the end of the data: the peer closes, the
    read times out, or nothing more is scripted (which times out). *)
Definition ends (tail : list recv_event) : bool :=
  match tail with
  | [] => true
  | Data [] :: _ => true
  | RecvRaises Timeout :: _ => true
  | _ => false
  end.

Definition is_timeout (k : sockerr) : bool :=
  match k with Timeout => true | _ => false end.

End Delivery.
Import Delivery.

(* ================================================================== *)
(** ** Vocabulary for the statements about the player *)
(* ================================================================== *)

Module Sched.

Import Player.

(** The order of the cues by bar number, weak and strict. *)
Definition bar_le (a b : cue) : Prop := bar a <= bar b.
Definition bar_lt (a b : cue) : Prop := bar a < bar b.

(** The state after more actions were logged. *)
Definition logged (s : pstate) (l : list event) : pstate :=
  mkP (start_q s) (fire_q s) (log s ++ l).

(** The two commands of a pass that fires the cue. *)
Definition pass (c : cue) : list event := [poll_command; fire_command (scene c)].

Definition start_command : event := Command "start_playback" (VDict []).

End Sched.
Import Sched.

(* ================================================================== *)
(** ** Vocabulary for the statements about the harness *)
(* ================================================================== *)

Module Suite.

Import Harness.

Definition is_passed (r : test_result) : bool :=
  match tr_status r with passed => true | failed => false end.

Definition is_failed (r : test_result) : bool :=
  match tr_status r with passed => false | failed => true end.

(** The names of the tests run so far, in order. *)
Definition names (t : tester) : list string := map tr_name (test_results t).

(** The counters agree with the result list. *)
Definition consistent (t : tester) : Prop :=
  tests_passed t = List.length (filter is_passed (test_results t)) /\
  tests_failed t = List.length (filter is_failed (test_results t)).

(** From [t] to [t'] the tests named [l] were recorded, and the
    counters stayed in step with the list. *)
Definition extends (t t' : tester) (l : list string) : Prop :=
  names t' = names t ++ l /\ (consistent t -> consistent t').

(** A cleanup function that does not raise. *)
Definition safe_cleanup {E} (cleanup_func : option (pyval -> E -> res E)) : Prop :=
  match cleanup_func with
  | None => True
  | Some g => forall r env, exists env', g r env = Return env'
  end.

(** The names of the tests of the cleanup loop. *)
Fixpoint delete_names (current : Z) (i : Z) (n : nat) : list string :=
  match n with
  | O => []
  | S n' => ("Delete test track " ++ decimal (current - 1 - i))%string
            :: delete_names current (i + 1) n'
  end.

(** The tests of [run_all_tests] that do not depend on a reply, in
    the order of the source. *)
Definition before_devices : list string :=
  [ "Get session info"; "Get song position";
    "Start playback"; "Stop playback"; "Set tempo";
    "Create MIDI track"; "Create audio track"; "Set track name";
    "Get track info"; "Set track volume"; "Set track pan"; "Set track mute";
    "Set track solo"; "Set track arm"; "Get track routing"; "Duplicate track";
    "Create clip"; "Add notes to clip"; "Get clip notes"; "Set clip name";
    "Set clip loop"; "Duplicate clip"; "Remove notes from clip";
    "Replace notes in clip"; "Fire clip"; "Stop clip"; "Delete clip";
    "Load instrument" ].

Definition before_send : list string :=
  [ "Get scenes"; "Create scene"; "Set scene name"; "Fire scene";
    "Stop all clips"; "Duplicate scene"; "Delete scene"; "Delete scene";
    "Get master track info"; "Set master volume"; "Get return tracks" ].

Definition before_cleanup : list string :=
  [ "Get browser tree"; "Get browser items at path"; "Undo"; "Redo" ].

(** The tests on a device, run only when the track reports one; the
    parameter test only when the device reports two parameters. *)
Definition device_names (with_parameter : bool) : list string :=
  "Get device parameters"
  :: (if with_parameter then ["Set device parameter"] else [])
  ++ [ "Set device enabled"; "Set device enabled (re-enable)"; "Delete device" ].

(** The shape of the test names of a complete run. *)
Definition suite_names (l : list string) : Prop :=
  exists dev send del,
    l = before_devices ++ dev ++ before_send ++ send ++ before_cleanup ++ del
    /\ (dev = [] \/ exists b, dev = device_names b)
    /\ (send = [] \/ send = ["Set track send"])
    /\ (exists current n, del = delete_names current 0 n).

(** A remote side that answers the connection check and is gone
    afterwards. *)
Definition gone_after_check : list conn := [Ex.reply "{}"].

End Suite.
Import Suite.

(* ================================================================== *)
(** ** The player script and more vocabulary *)
(* ================================================================== *)

Module Script.

Import Player.

(** [DETROIT_TECHNO_ARRANGEMENT] (lines 136-144). *)
Definition DETROIT_TECHNO_ARRANGEMENT : list cue :=
  [ mkCue 1 4 "INTRO - Sparse";
    mkCue 17 0 "BUILD - Full drums";
    mkCue 25 1 "DROP 1 - Main groove";
    mkCue 41 2 "BREAKDOWN - Dubby";
    mkCue 57 3 "BUILD 2 - Rising";
    mkCue 65 1 "PEAK - Main groove";
    mkCue 81 2 "OUTRO - Breakdown" ].


Section Main.

Variable loads : bytes -> parse_outcome.


End Main.

End Script.

(* ================================================================== *)
(** ** The summary of the test harness *)
(* ================================================================== *)

Module Report.

Import Harness.
Import Suite.

(** From [t] to [t'] the result list was only appended to, and the
    counters went up by the numbers of passes and of failures among
    the new entries. *)
Definition grows (t t' : tester) : Prop :=
  exists rs,
    test_results t' = test_results t ++ rs
    /\ tests_passed t' = (tests_passed t + List.length (filter is_passed rs))%nat
    /\ tests_failed t' = (tests_failed t + List.length (filter is_failed rs))%nat.

(** A step of the run under which the tester only grows, however the
    step ends. *)
Definition keeps {A} (m : T A) : Prop :=
  forall s, grows (h_tester s) (h_tester (snd (m s))).

(** The lines of [print_summary] that depend on the tester.  The
    coverage line carries the operands of the division
    [tests_passed / (tests_passed + tests_failed) * 100], or stands for
    the literal [0] of the guard. *)
Inductive line :=
| Passed (n : nat)
| Failed (n : nat)
| Total (n : nat)
| AllPassed
| SomeFailed (n : nat)
| FailedTest (name : string) (error : option error_info)
| Coverage (passed total : nat)
| CoverageZero.

(** [print_summary] (lines 372-392), without the rulers and the
    heading. *)
Definition print_summary (t : tester) : list line :=
  [ Passed (tests_passed t); Failed (tests_failed t);
    Total (tests_passed t + tests_failed t) ]
  ++ (if (tests_failed t =? 0)%nat then [AllPassed]
      else SomeFailed (tests_failed t)
           :: map (fun r => FailedTest (tr_name r) (tr_error r))
                  (filter is_failed (test_results t)))
  ++ [ if (0 <? tests_passed t + tests_failed t)%nat
       then Coverage (tests_passed t) (tests_passed t + tests_failed t)
       else CoverageZero ].

(** [run_all_tests] with its output: the summary is printed at the end
    of the suite (line 370), and not at all when the connection check
    fails (line 101) or an exception leaves the run. *)
Definition run_and_report (loads : bytes -> parse_outcome)
    (str_exn : exn -> string) (s : hstate locals)
  : res (option (list line)) * hstate locals :=
  let '(connected, s1) := test loads str_exn locals "Connection" None None s in
  if (connected : bool) then
    match run_suite loads str_exn s1 with
    | (Return _, s2) => (Return (Some (print_summary (h_tester s2))), s2)
    | (Raise e, s2) => (Raise e, s2)
    end
  else (Return None, s1).

Definition is_failed_line (l : line) : bool :=
  match l with FailedTest _ _ => true | _ => false end.

(** The values of [track_idx] in the cleanup loop (lines 364-365):
    [current - 1 - i] for [i] in [range(current - initial)]. *)
Definition indices_down (current initial : Z) : list Z :=
  map (fun k => current - 1 - Z.of_nat k)
      (seq 0 (Z.to_nat (current - initial))).

(** The name of the test that deletes track [k]. *)
Definition delete_name (k : Z) : string :=
  ("Delete test track " ++ decimal k)%string.

(** The exceptions of the code between the tests: what a reply of an
    unexpected shape makes [.get], indexing, [len], [+], [>] and
    [range] raise. *)
Definition shape_error (e : exn) : bool :=
  match e with
  | AttributeError | TypeError | KeyError | IndexError | OverflowError => true
  | _ => false
  end.

(** A step of the run that raises nothing but exceptions in [P]. *)
Definition raises_only {A} (P : exn -> Prop) (m : T A) : Prop :=
  forall s e s', m s = (Raise e, s') -> P e.

(** A connection on which the command fails inside of [send_command]:
    the remote side is unreachable, hangs up, or stays silent. *)
Definition unanswered (loads : bytes -> parse_outcome) (c : conn) : Prop :=
  exists e, send_command_body loads c = Raise e.

(** A state in which no command will be answered any more, and no
    response has been stored. *)
Definition dead (loads : bytes -> parse_outcome) (s : hstate locals) : Prop :=
  Forall (unanswered loads) (h_world s)
  /\ h_env s = mkLocals None None None None.

(** From [t] to [t'] the tests named [l] were recorded, all of them as
    failed. *)
Definition all_failed (t t' : tester) (l : list string) : Prop :=
  exists rs,
    test_results t' = test_results t ++ rs
    /\ map tr_name rs = l
    /\ Forall (fun r => tr_status r = failed) rs
    /\ tests_passed t' = tests_passed t
    /\ tests_failed t' = (tests_failed t + List.length rs)%nat.

(** A step that, from a dead state, returns a value in [P], records
    the tests [l] as failed and leaves a dead state. *)
Definition dead_run {A} (loads : bytes -> parse_outcome) (m : T A)
    (l : list string) (P : A -> Prop) : Prop :=
  forall s,
    dead loads s ->
    exists a s',
      m s = (Return a, s') /\ P a /\ dead loads s'
      /\ all_failed (h_tester s) (h_tester s') l.

End Report.

(* ================================================================== *)
(** * Properties of the command clients *)
(* ================================================================== *)

Section ClientFacts.

Variable loads : bytes -> parse_outcome.
Variable str_exn : exn -> string.

(** While the buffer does not parse, the player's loop keeps reading. *)
Lemma player_reads_on (chunks : list bytes) :
  forall buf tail,
    incomplete loads buf chunks = true ->
    Player.recv_loop loads buf (map Data chunks ++ tail)
    = Player.recv_loop loads (buf ++ List.concat chunks) tail.
Proof.
  induction chunks as [|c cs IH]; intros buf tail H; simpl.
  - now rewrite app_nil_r.
  - simpl in H. apply andb_prop in H as [H Hcs]. apply andb_prop in H as [Hc Hbad].
    destruct c as [|b c']; [discriminate|].
    destruct (loads (buf ++ b :: c')) eqn:E; try discriminate.
    rewrite IH by exact Hcs. now rewrite app_assoc.
Qed.

(** So does the harness's loop. *)
Lemma harness_reads_on (chunks : list bytes) :
  forall buf tail,
    incomplete loads buf chunks = true ->
    Harness.recv_loop loads buf (map Data chunks ++ tail)
    = Harness.recv_loop loads (buf ++ List.concat chunks) tail.
Proof.
  induction chunks as [|c cs IH]; intros buf tail H; simpl.
  - now rewrite app_nil_r.
  - simpl in H. apply andb_prop in H as [H Hcs]. apply andb_prop in H as [Hc Hbad].
    destruct c as [|b c']; [discriminate|].
    destruct (loads (buf ++ b :: c')) eqn:E; try discriminate.
    rewrite IH by exact Hcs. now rewrite app_assoc.
Qed.

(** At the end of the data the player parses what it has. *)
Lemma player_at_end (buf : bytes) (tail : list recv_event) :
  ends tail = true ->
  Player.recv_loop loads buf tail = Player.final_parse loads buf.
Proof.
  destruct tail as [|[[|b c]|[| |]] tail]; simpl; intros H;
    try discriminate; reflexivity.
Qed.

Lemma final_parse_decode_error (buf : bytes) :
  (forall v, loads buf <> Parsed v) ->
  exists e, Player.final_parse loads buf = Raise e /\ is_decode_error e = true.
Proof.
  intros H. unfold Player.final_parse.
  destruct (loads buf) eqn:E.
  - exfalso. now apply (H v).
  - now exists JSONDecodeError.
  - now exists UnicodeDecodeError.
Qed.

(** The harness's [send_command] always returns. *)
Lemma harness_send_returns (c : conn) :
  exists v, Harness.send_command loads str_exn c = Return v.
Proof.
  unfold Harness.send_command.
  destruct (Harness.send_command_body loads c); eauto.
Qed.

Lemma harness_send_not_raise (c : conn) (e : exn) :
  Harness.send_command loads str_exn c <> Raise e.
Proof.
  destruct (harness_send_returns c) as [v ->]. discriminate.
Qed.

(** With no early answer, both loops return the value of the whole text. *)
Lemma player_whole_value (v : pyval) (chunks : list bytes) :
  forall buf last tail,
    no_other_answer loads v buf chunks ->
    nonempty last = true ->
    loads (buf ++ List.concat chunks ++ last) = Parsed v ->
    Player.recv_loop loads buf (map Data (chunks ++ [last]) ++ tail) = Return v.
Proof.
  induction chunks as [|c cs IH]; intros buf last tail H Hl Hv; simpl in *.
  - destruct last as [|b l]; [discriminate|]. now rewrite Hv.
  - destruct H as (Hc & Hp & Hcs).
    destruct c as [|b c']; [discriminate|].
    destruct Hp as [Hp|Hp]; rewrite Hp; [|reflexivity].
    apply IH; auto. now rewrite <- !app_assoc in *.
Qed.

Lemma harness_whole_value (v : pyval) (chunks : list bytes) :
  forall buf last tail,
    no_other_answer loads v buf chunks ->
    nonempty last = true ->
    loads (buf ++ List.concat chunks ++ last) = Parsed v ->
    Harness.recv_loop loads buf (map Data (chunks ++ [last]) ++ tail) = Return v.
Proof.
  induction chunks as [|c cs IH]; intros buf last tail H Hl Hv; simpl in *.
  - destruct last as [|b l]; [discriminate|]. now rewrite Hv.
  - destruct H as (Hc & Hp & Hcs).
    destruct c as [|b c']; [discriminate|].
    destruct Hp as [Hp|Hp]; rewrite Hp; [|reflexivity].
    apply IH; auto. now rewrite <- !app_assoc in *.
Qed.

End ClientFacts.

(** C4, as amended.  In the player's [send_command] a failure of
    [connect], of [sendall], or of [recv] other than a timeout reaches
    the caller as that transport error, and a reply that has not become
    valid JSON when the data ends (peer closed, read timed out) reaches
    the caller as a decode error; a [recv] timeout itself is caught
    inside.  The harness's [send_command] never raises: whatever its
    body raises comes back as an error response. *)
Theorem C4_error_policy (loads : bytes -> parse_outcome)
    (str_exn : exn -> string) (c : conn) :
  (forall k, connect c = Some k ->
     Player.send_command loads c = Raise (OSError k)) /\
  (forall k, connect c = None -> sendall c = Some k ->
     Player.send_command loads c = Raise (OSError k)) /\
  (forall chunks k rest,
     connect c = None -> sendall c = None ->
     recvs c = map Data chunks ++ RecvRaises k :: rest ->
     incomplete loads [] chunks = true -> is_timeout k = false ->
     Player.send_command loads c = Raise (OSError k)) /\
  (forall chunks tail,
     connect c = None -> sendall c = None ->
     recvs c = map Data chunks ++ tail ->
     incomplete loads [] chunks = true -> ends tail = true ->
     (forall v, loads (List.concat chunks) <> Parsed v) ->
     exists e, Player.send_command loads c = Raise e /\ is_decode_error e = true) /\
  (exists v, Harness.send_command loads str_exn c = Return v) /\
  (forall e, Harness.send_command_body loads c = Raise e ->
     Harness.send_command loads str_exn c
     = Return (Harness.error_response str_exn e)).
Proof.
  repeat split.
  - intros k Hc. unfold Player.send_command. now rewrite Hc.
  - intros k Hc Hs. unfold Player.send_command. now rewrite Hc, Hs.
  - intros chunks k rest Hc Hs Hr Hi Hk.
    unfold Player.send_command. rewrite Hc, Hs, Hr. simpl.
    rewrite player_reads_on by exact Hi.
    destruct k; [discriminate| |]; reflexivity.
  - intros chunks tail Hc Hs Hr Hi He Hv.
    unfold Player.send_command. rewrite Hc, Hs, Hr. simpl.
    rewrite player_reads_on by exact Hi.
    rewrite player_at_end by exact He.
    now apply final_parse_decode_error.
  - apply harness_send_returns.
  - intros e He. unfold Harness.send_command. now rewrite He.
Qed.

Lemma C4_error_policy_witness :
  Player.send_command Json.loads Player.refused = Raise (OSError Refused) /\
  (exists e, Player.send_command Json.loads
               (Ex.chunked [Json.text "{'status': "; []]) = Raise e
             /\ is_decode_error e = true).
Proof.
  split.
  - exact (proj1 (C4_error_policy Json.loads Json.str_exn Player.refused)
                 Refused eq_refl).
  - refine (proj1 (proj2 (proj2 (proj2
             (C4_error_policy Json.loads Json.str_exn
                (Ex.chunked [Json.text "{'status': "; []])))))
             [Json.text "{'status': "] [Data []] eq_refl eq_refl eq_refl _ eq_refl _).
    + vm_compute. reflexivity.
    + intros v H. vm_compute in H. discriminate.
Defined.

(** C4 fails as stated: the harness's [send_command] catches the
    refused connection inside and returns a value, and the player's
    [send_command] catches a read timeout inside and raises a decode
    error in its place. *)
Lemma C4_counterexample :
  Harness.send_command_body Json.loads Harness.refused = Raise (OSError Refused) /\
  Harness.send_command Json.loads Json.str_exn Harness.refused
  = Return (VDict [("status", VStr "error"); ("message", VStr "Connection refused")]) /\
  ~ (exists e, Harness.send_command Json.loads Json.str_exn Harness.refused = Raise e) /\
  Player.send_command Json.loads Ex.silent = Raise JSONDecodeError.
Proof.
  repeat split; try reflexivity.
  intros [e H]. vm_compute in H. discriminate.
Qed.

(** C5, as amended.  When the peer closes while the buffer is empty or
    has not become valid JSON, the player's [send_command] raises a
    decode error to its caller, and the harness's [send_command]
    returns an error response to its caller; neither hangs. *)
Theorem C5_closed_before_json (loads : bytes -> parse_outcome)
    (str_exn : exn -> string) (c : conn) (chunks : list bytes)
    (rest : list recv_event) :
  connect c = None -> sendall c = None ->
  recvs c = map Data chunks ++ Data [] :: rest ->
  incomplete loads [] chunks = true ->
  (forall v, loads (List.concat chunks) <> Parsed v) ->
  (exists e, Player.send_command loads c = Raise e /\ is_decode_error e = true) /\
  (exists e, Harness.send_command loads str_exn c
             = Return (Harness.error_response str_exn e)).
Proof.
  intros Hc Hs Hr Hi Hv. split.
  - unfold Player.send_command. rewrite Hc, Hs, Hr. simpl.
    rewrite player_reads_on by exact Hi. simpl.
    now apply final_parse_decode_error.
  - exists UnboundLocalError.
    unfold Harness.send_command, Harness.send_command_body.
    rewrite Hc, Hs, Hr. simpl.
    now rewrite harness_reads_on by exact Hi.
Qed.

Lemma C5_closed_before_json_witness :
  (exists e, Player.send_command Json.loads
               (Ex.chunked [Json.text "{'status': "; []]) = Raise e
             /\ is_decode_error e = true) /\
  (exists e, Harness.send_command Json.loads Json.str_exn
               (Ex.chunked [Json.text "{'status': "; []])
             = Return (Harness.error_response Json.str_exn e)).
Proof.
  refine (C5_closed_before_json Json.loads Json.str_exn
            (Ex.chunked [Json.text "{'status': "; []])
            [Json.text "{'status': "] [] eq_refl eq_refl eq_refl _ _).
  - vm_compute. reflexivity.
  - intros v H. vm_compute in H. discriminate.
Defined.

(** C5 fails as stated for the harness: on a connection closed with an
    empty buffer its [send_command] returns a value and raises
    nothing. *)
Lemma C5_counterexample :
  Harness.send_command Json.loads Json.str_exn Ex.closed
  = Return (VDict [("status", VStr "error"); ("message", VStr "UnboundLocalError")]) /\
  ~ (exists e, Harness.send_command Json.loads Json.str_exn Ex.closed = Raise e
               /\ is_decode_error e = true).
Proof.
  split; [reflexivity|].
  intros (e & H & _). vm_compute in H. discriminate.
Qed.

(** C6, as amended.  Take a reply that parses to [v], delivered whole
    or split into chunks that all carry data.  If no buffer accumulated
    before the last chunk parses to another value or fails to decode as
    text, the read loops of both clients return [v] for the split
    delivery as for the whole one. *)
Theorem C6_split_delivery (loads : bytes -> parse_outcome)
    (str_exn : exn -> string) (chunks : list bytes) (last : bytes)
    (tail : list recv_event) (v : pyval) :
  no_other_answer loads v [] chunks ->
  nonempty last = true ->
  loads (List.concat chunks ++ last) = Parsed v ->
  let whole := mkConn None None [Data (List.concat chunks ++ last)] in
  let split := mkConn None None (map Data (chunks ++ [last]) ++ tail) in
  Player.send_command loads split = Return v /\
  Player.send_command loads whole = Return v /\
  Harness.send_command loads str_exn split = Return v /\
  Harness.send_command loads str_exn whole = Return v.
Proof.
  intros H Hl Hv whole split.
  assert (Hne : nonempty (List.concat chunks ++ last) = true).
  { destruct last; [discriminate|]. now destruct (List.concat chunks). }
  assert (P := player_whole_value loads v chunks [] last tail H Hl Hv).
  assert (Q := harness_whole_value loads v chunks [] last tail H Hl Hv).
  assert (P1 : Player.recv_loop loads [] [Data (List.concat chunks ++ last)]
               = Return v)
    by exact (player_whole_value loads v [] [] _ [] I Hne Hv).
  assert (Q1 : Harness.recv_loop loads [] [Data (List.concat chunks ++ last)]
               = Return v)
    by exact (harness_whole_value loads v [] [] _ [] I Hne Hv).
  unfold Player.send_command, Harness.send_command, Harness.send_command_body.
  subst whole split. cbn [connect sendall recvs opt_raise rbind].
  rewrite P, Q, P1, Q1. repeat split.
Qed.

Lemma C6_split_delivery_witness :
  Player.send_command Json.loads Ex.split_object
  = Return (VDict [("status", VStr "success")]) /\
  Player.send_command Json.loads Ex.whole_object
  = Return (VDict [("status", VStr "success")]) /\
  Harness.send_command Json.loads Json.str_exn Ex.split_object
  = Return (VDict [("status", VStr "success")]) /\
  Harness.send_command Json.loads Json.str_exn Ex.whole_object
  = Return (VDict [("status", VStr "success")]).
Proof.
  refine (C6_split_delivery Json.loads Json.str_exn
            [Json.text "{'sta"; Json.text "tus': 'suc"] (Json.text "cess'}") []
            (VDict [("status", VStr "success")]) _ eq_refl _).
  - simpl. repeat split; try (left; vm_compute; reflexivity).
  - vm_compute. reflexivity.
Defined.

(** C6 fails as stated: the text [123] is complete JSON, yet delivered
    as [12] and [3] both clients return 12 after the first chunk,
    against 123 for the delivery in one chunk. *)
Lemma C6_counterexample :
  Json.decode (Json.text "123") = Some (Parsed (VInt 123)) /\
  Player.send_command Json.loads Ex.whole_123 = Return (VInt 123) /\
  Player.send_command Json.loads Ex.split_123 = Return (VInt 12) /\
  Harness.send_command Json.loads Json.str_exn Ex.whole_123 = Return (VInt 123) /\
  Harness.send_command Json.loads Json.str_exn Ex.split_123 = Return (VInt 12) /\
  Player.send_command Json.loads Ex.split_123
  <> Player.send_command Json.loads Ex.whole_123.
Proof.
  repeat split; try reflexivity.
  vm_compute. discriminate.
Qed.

(** A reply split inside of a multi-byte character: the text of the
    first chunk does not decode, which neither loop treats as
    "incomplete".  The player raises, the harness reports an error. *)
Lemma split_inside_character :
  Player.send_command Json.loads Ex.whole_accent
  = Return (VDict [("a", VStr (String (ascii_of_N 195) (String (ascii_of_N 169) EmptyString)))]) /\
  Player.send_command Json.loads Ex.split_accent = Raise UnicodeDecodeError /\
  Harness.send_command Json.loads Json.str_exn Ex.split_accent
  = Return (Harness.error_response Json.str_exn UnicodeDecodeError).
Proof.
  repeat split; reflexivity.
Qed.

(* ================================================================== *)
(** * Properties of the arrangement player *)
(* ================================================================== *)

Import Player.

(** ** The sort *)

Lemma insert_perm (x : cue) (l : list cue) : Permutation (x :: l) (insert x l).
Proof.
  induction l as [|y l IH]; simpl; [reflexivity|].
  destruct (bar x <=? bar y); [reflexivity|].
  rewrite perm_swap. now constructor.
Qed.

Lemma sorted_perm (l : list cue) : Permutation (sorted l) l.
Proof.
  induction l as [|x l IH]; simpl; [constructor|].
  rewrite <- insert_perm. now constructor.
Qed.

Lemma insert_ascending (x : cue) (l : list cue) :
  StronglySorted bar_le l -> StronglySorted bar_le (insert x l).
Proof.
  induction 1 as [|y l Hs IH Hy]; simpl.
  - repeat constructor.
  - destruct (bar x <=? bar y) eqn:E.
    + apply Z.leb_le in E. constructor; [now constructor|].
      constructor; [exact E|].
      eapply Forall_impl; [|exact Hy]. unfold bar_le. intros; lia.
    + apply Z.leb_gt in E. constructor; [exact IH|].
      eapply Permutation_Forall; [apply insert_perm|].
      constructor; [unfold bar_le; lia | exact Hy].
Qed.

Lemma sorted_ascending (l : list cue) : StronglySorted bar_le (sorted l).
Proof.
  induction l as [|x l IH]; simpl; [constructor|]. now apply insert_ascending.
Qed.

(** The sort is stable: cues on one bar keep their relative order. *)
Lemma insert_stable (b : Z) (x : cue) (l : list cue) :
  StronglySorted bar_le l ->
  filter (fun c => bar c =? b) (insert x l)
  = filter (fun c => bar c =? b) (x :: l).
Proof.
  induction 1 as [|y l Hs IH Hy]; [reflexivity|].
  cbn [insert]. destruct (bar x <=? bar y) eqn:E; [reflexivity|].
  apply Z.leb_gt in E.
  cbn [filter] in *. rewrite IH.
  destruct (bar x =? b) eqn:Ex, (bar y =? b) eqn:Ey; try reflexivity.
  apply Z.eqb_eq in Ex, Ey. lia.
Qed.

Lemma sorted_stable (b : Z) (l : list cue) :
  filter (fun c => bar c =? b) (sorted l) = filter (fun c => bar c =? b) l.
Proof.
  induction l as [|x l IH]; [reflexivity|].
  cbn [sorted]. rewrite insert_stable by apply sorted_ascending.
  cbn [filter]. now rewrite IH.
Qed.

(** With pairwise distinct bar numbers the sorted order is strict. *)
Lemma ascending_strict (l : list cue) :
  StronglySorted bar_le l -> NoDup (map bar l) -> StronglySorted bar_lt l.
Proof.
  induction 1 as [|x l Hs IH Hx]; intros Hn; [constructor|].
  inversion Hn as [|? ? Hnot Hn']; subst.
  constructor; [now apply IH|].
  rewrite Forall_forall in *. intros y Hy.
  specialize (Hx y Hy). unfold bar_le, bar_lt in *.
  assert (bar x <> bar y).
  { intros E. apply Hnot. rewrite E. now apply in_map. }
  lia.
Qed.

Lemma sorted_strict (l : list cue) :
  NoDup (map bar l) -> StronglySorted bar_lt (sorted l).
Proof.
  intros Hn. apply ascending_strict; [apply sorted_ascending|].
  eapply Permutation_NoDup; [|exact Hn].
  apply Permutation_map. symmetry. apply sorted_perm.
Qed.

(** ** One pass of the polling loop *)

Section PlayerFacts.

Variable loads : bytes -> parse_outcome.

Lemma logged_logged (s : pstate) (l1 l2 : list event) :
  logged (logged s l1) l2 = logged s (l1 ++ l2).
Proof. unfold logged. simpl. now rewrite app_assoc. Qed.

Lemma fired_scenes_app (l1 l2 : list event) :
  fired_scenes (l1 ++ l2) = fired_scenes l1 ++ fired_scenes l2.
Proof. apply flat_map_app. Qed.

(** [fire_scene] logs the call, takes the next connection and returns
    or raises with it. *)
Lemma fire_scene_eq (index : Z) (s : pstate) :
  fire_scene loads index s
  = (result <- send_command loads (hd refused (fire_q s)) ;;
     py_get result "result" result,
     mkP (start_q s) (tl (fire_q s)) (log s ++ [fire_command index])).
Proof.
  unfold fire_scene, bind, emit, next_fire, lift, fire_command. simpl.
  destruct (fire_q s) as [|c q]; simpl;
    [destruct (send_command loads refused) | destruct (send_command loads c)];
    reflexivity.
Qed.

Lemma fire_scene_acked (index : Z) (s : pstate) (c : conn) (q : list conn) :
  fire_q s = c :: q -> acked loads c = true ->
  exists v, fire_scene loads index s
            = (Return v, mkP (start_q s) q (log s ++ [fire_command index])).
Proof.
  intros Hq Ha. rewrite fire_scene_eq, Hq. simpl.
  unfold acked in Ha.
  destruct (result <- send_command loads c ;; py_get result "result" result);
    [eauto | discriminate].
Qed.

(** One pass, by what the position query yields. *)
Lemma poll_eq (arrangement : list cue) (i : nat) (c : conn) (s : pstate) :
  poll loads arrangement i c s
  = let s1 := logged s [poll_command] in
    match position_of loads c with
    | Raise e => (Raise e, s1)
    | Return (b, p) =>
        if negb (truthy p) then (Return None, logged s1 [PrintStopped])
        else match nth_error arrangement i with
             | None => (Raise IndexError, s1)
             | Some next =>
                 match py_ge_int b (bar next) with
                 | Raise e => (Raise e, s1)
                 | Return true =>
                     match fire_scene loads (scene next) s1 with
                     | (Return _, s2) => (Return (Some (S i)), s2)
                     | (Raise e, s2) => (Raise e, s2)
                     end
                 | Return false => (Return (Some i), s1)
                 end
             end
    end.
Proof.
  unfold poll, get_position, position_of, bind, emit, lift, ret, logged,
    poll_command. simpl.
  destruct (send_command loads c) as [result|e]; simpl; [|reflexivity].
  destruct (py_get result "result" result) as [pos|e]; simpl; [|reflexivity].
  destruct (py_get pos "current_bar" (VInt 0)) as [b|e]; simpl; [|reflexivity].
  destruct (py_get pos "is_playing" (VBool false)) as [p|e]; simpl; [|reflexivity].
  destruct (truthy p); simpl; [|reflexivity].
  destruct (nth_error arrangement i) as [next|]; [|reflexivity].
  destruct (py_ge_int b (bar next)) as [[|]|e]; reflexivity.
Qed.

(** A pass that sees playback stopped only logs the query and the
    closing line, and breaks. *)
Lemma poll_halted (arrangement : list cue) (i : nat) (c : conn) (s : pstate) :
  halted loads c = true ->
  poll loads arrangement i c s
  = (Return None, logged s [poll_command; PrintStopped]).
Proof.
  intros H. rewrite poll_eq. unfold halted in H.
  destruct (position_of loads c) as [[b p]|e]; [|discriminate].
  cbv zeta. rewrite H. now rewrite logged_logged.
Qed.

(** A pass that sees the pending cue's bar reached fires that cue and
    moves the pointer by one. *)
Lemma poll_due (arrangement : list cue) (i : nat) (c : conn) (s : pstate)
    (next : cue) (fc : conn) (q : list conn) :
  nth_error arrangement i = Some next ->
  due loads (bar next) c = true ->
  fire_q s = fc :: q -> acked loads fc = true ->
  poll loads arrangement i c s
  = (Return (Some (S i)),
     mkP (start_q s) q (log s ++ [poll_command; fire_command (scene next)])).
Proof.
  intros Hn Hd Hq Ha. rewrite poll_eq. unfold due in Hd.
  destruct (position_of loads c) as [[b p]|e]; [|discriminate].
  apply andb_prop in Hd as [Hp Hb]. cbv zeta. rewrite Hp, Hn. simpl.
  destruct (py_ge_int b (bar next)) as [[|]|e]; try discriminate.
  destruct (fire_scene_acked (scene next) (logged s [poll_command]) fc q Hq Ha)
    as [v ->].
  simpl. now rewrite <- app_assoc.
Qed.

(** A pass that sees playback running moves the pointer by at most
    one, and fires the pending cue when it moves.  *)
Lemma poll_playing (arrangement : list cue) (i : nat) (c : conn) (s : pstate)
    (next : cue) (fc : conn) (q : list conn) :
  nth_error arrangement i = Some next ->
  playing loads c = true ->
  fire_q s = fc :: q -> acked loads fc = true ->
  poll loads arrangement i c s
  = (Return (Some (S i)),
     mkP (start_q s) q (log s ++ [poll_command; fire_command (scene next)]))
  \/ poll loads arrangement i c s = (Return (Some i), logged s [poll_command]).
Proof.
  intros Hn Hd Hq Ha. rewrite poll_eq. unfold playing in Hd.
  destruct (position_of loads c) as [[b p]|e]; [|discriminate].
  apply andb_prop in Hd as [Hp Hb]. cbv zeta. rewrite Hp, Hn. simpl.
  assert (Hge : exists r, py_ge_int b (bar next) = Return r).
  { unfold py_ge_int. destruct b; try discriminate; simpl.
    - destruct (_ ?= _); eauto.
    - destruct (_ ?= _); eauto.
    - destruct f as [|neg|neg m e]; simpl; eauto.
      + destruct neg; eauto.
      + destruct (finite_compare_Z _ _ _ _); eauto. }
  destruct Hge as [[|] ->]; [left|now right].
  destruct (fire_scene_acked (scene next) (logged s [poll_command]) fc q Hq Ha)
    as [v ->].
  simpl. now rewrite <- app_assoc.
Qed.

(** When the remote side is gone, the query raises: the loop cannot
    go on past the end of the feed. *)
Lemma poll_refused (arrangement : list cue) (i : nat) (s : pstate) :
  fst (poll loads arrangement i refused s) = Raise (OSError Refused).
Proof. rewrite poll_eq. reflexivity. Qed.

(** The pointer never moves back and never jumps. *)
Lemma poll_pointer (arrangement : list cue) (i j : nat) (c : conn)
    (s s' : pstate) :
  poll loads arrangement i c s = (Return (Some j), s') -> j = i \/ j = S i.
Proof.
  rewrite poll_eq. cbv zeta.
  destruct (position_of loads c) as [[b p]|e]; [|discriminate].
  destruct (negb (truthy p)); [discriminate|].
  destruct (nth_error arrangement i) as [next|]; [|discriminate].
  destruct (py_ge_int b (bar next)) as [[|]|e]; try discriminate.
  - destruct (fire_scene loads (scene next) _) as [[v|e] s2]; [|discriminate].
    intros H. inversion H. now right.
  - intros H. inversion H. now left.
Qed.

End PlayerFacts.

(** ** Runs of the polling loop *)

Section LoopFacts.

Variable loads : bytes -> parse_outcome.
Variable arrangement : list cue.

Lemma skipn_head (i : nat) (x : cue) (t : list cue) :
  skipn i arrangement = x :: t ->
  nth_error arrangement i = Some x /\ skipn (S i) arrangement = t
  /\ (i <? List.length arrangement)%nat = true.
Proof.
  revert i. induction arrangement as [|y l IH]; intros i H.
  - destruct i; discriminate.
  - destruct i as [|i]; simpl in *.
    + inversion H; subst. now repeat split.
    + destruct (IH i H) as (A & B & C). repeat split; auto.
Qed.

Lemma fired_scenes_pass (l : list cue) :
  fired_scenes (flat_map pass l) = map scene l.
Proof.
  induction l as [|c l IH]; [reflexivity|].
  cbn [flat_map map]. rewrite fired_scenes_app, IH. reflexivity.
Qed.

(** As long as every query sees the bar of the pending cue reached,
    each pass fires exactly that cue. *)
Lemma loop_fires_in_turn (feed : list conn) (pending : list cue) :
  Forall2 (fun c cue => due loads (bar cue) c = true) feed pending ->
  forall i s fires q later rest,
    skipn i arrangement = pending ++ later ->
    fire_q s = fires ++ q ->
    List.length fires = List.length feed ->
    Forall (fun c => acked loads c = true) fires ->
    poll_loop loads arrangement (feed ++ rest) i s
    = poll_loop loads arrangement rest (i + List.length feed)%nat
        (mkP (start_q s) q (log s ++ flat_map pass pending)).
Proof.
  induction 1 as [|c cue feed pending Hd HF IH];
    intros i s fires q later rest Hsk Hq Hlen Hack.
  - destruct fires; [|discriminate]. simpl in *.
    rewrite Nat.add_0_r, app_nil_r. rewrite <- Hq. now destruct s.
  - destruct fires as [|fc fires]; [discriminate|].
    simpl in Hsk. apply skipn_head in Hsk as (Hn & Hsk & Hlt).
    inversion Hack as [|? ? Hfc Hack']; subst.
    cbn [app poll_loop]. rewrite Hlt.
    rewrite (poll_due loads arrangement i c s cue fc (fires ++ q) Hn Hd Hq Hfc).
    cbv beta iota. fold (pass cue).
    rewrite (IH (S i) (mkP (start_q s) (fires ++ q) (log s ++ pass cue))
               fires q later rest Hsk eq_refl); auto.
    cbn [List.length start_q log flat_map]. rewrite Nat.add_succ_r.
    now rewrite <- app_assoc.
Qed.

(** While the queries see playback running, the loop fires a prefix of
    the pending cues in order; it either completes or uses up the
    queries. *)
Lemma loop_while_playing (pre : list conn) :
  Forall (fun c => playing loads c = true) pre ->
  forall i s fires q rest,
    fire_q s = fires ++ q ->
    (i + List.length fires = List.length arrangement)%nat ->
    Forall (fun c => acked loads c = true) fires ->
    exists j pre' s' done,
      poll_loop loads arrangement (pre ++ rest) i s
      = poll_loop loads arrangement (pre' ++ rest) j s'
      /\ skipn i arrangement = done ++ skipn j arrangement
      /\ (j = List.length arrangement \/ pre' = [])
      /\ (j + List.length (skipn (List.length done) fires)
          = List.length arrangement)%nat
      /\ fired_scenes (log s') = fired_scenes (log s) ++ map scene done
      /\ fire_q s' = skipn (List.length done) fires ++ q
      /\ start_q s' = start_q s.
Proof.
  induction 1 as [|c pre Hc HF IH]; intros i s fires q rest Hq Hlen Hack.
  - exists i, [], s, []. simpl. rewrite app_nil_r. repeat split; auto.
  - destruct fires as [|fc fires].
    + exists i, (c :: pre), s, []. simpl in *. rewrite app_nil_r.
      repeat split; auto. left. lia.
    + simpl in Hlen.
      destruct (skipn i arrangement) as [|cue t] eqn:Hsk.
      { exfalso. assert (L := length_skipn i arrangement).
        rewrite Hsk in L. simpl in L. lia. }
      pose proof Hsk as Hsk0.
      apply skipn_head in Hsk as (Hn & Hsk & Hlt).
      pose proof (Forall_inv Hack) as Hfc.
      pose proof (Forall_inv_tail Hack) as Hack'.
      destruct (poll_playing loads arrangement i c s cue fc (fires ++ q)
                  Hn Hc Hq Hfc) as [Hp|Hp].
      * destruct (IH (S i) (mkP (start_q s) (fires ++ q)
                               (log s ++ [poll_command; fire_command (scene cue)]))
                     fires q rest eq_refl ltac:(lia) Hack')
          as (j & pre' & s' & done & E & Hd & Hj & Hl & Hf & Hfq & Hs).
        exists j, pre', s', (cue :: done).
        cbn [app poll_loop]. rewrite Hlt, Hp, E.
        repeat split; auto.
        -- rewrite Hsk in Hd. simpl. now rewrite <- Hd.
        -- rewrite Hf. cbn [log]. rewrite fired_scenes_app.
           cbn [map]. rewrite <- app_assoc. reflexivity.
      * destruct (IH i (logged s [poll_command]) (fc :: fires) q rest Hq
                     ltac:(simpl; lia) Hack)
          as (j & pre' & s' & done & E & Hd & Hj & Hl & Hf & Hfq & Hs).
        exists j, pre', s', done.
        cbn [app poll_loop]. rewrite Hlt, Hp, E.
        repeat split; auto.
        -- now rewrite <- Hsk0.
        -- rewrite Hf. unfold logged. cbn [log]. rewrite fired_scenes_app.
           cbn. now rewrite app_nil_r.
Qed.

(** Every pass only adds to the log. *)
Lemma poll_log (i : nat) (c : conn) (s : pstate) :
  exists l, log (snd (poll loads arrangement i c s)) = log s ++ l.
Proof.
  rewrite poll_eq. cbv zeta.
  destruct (position_of loads c) as [[b p]|e];
    [|now exists [poll_command]].
  destruct (negb (truthy p)).
  { exists [poll_command; PrintStopped]. simpl. now rewrite <- app_assoc. }
  destruct (nth_error arrangement i) as [next|]; [|now exists [poll_command]].
  destruct (py_ge_int b (bar next)) as [[|]|e];
    try (now exists [poll_command]).
  rewrite fire_scene_eq.
  destruct (result <- send_command loads _ ;; py_get result "result" result);
    exists [poll_command; fire_command (scene next)]; simpl;
    now rewrite <- app_assoc.
Qed.

(** Nothing that follows a query answered "not playing" is ever used;
    when that query is reached, the loop logs it and the closing line
    and returns. *)
Lemma loop_halts_at (c : conn) (rest : list conn) :
  halted loads c = true ->
  forall pre i s,
    exists r left s',
      poll_loop loads arrangement (pre ++ c :: rest) i s = (r, left ++ rest, s')
      /\ (left = [] ->
          r = Return tt
          /\ exists l0, log s' = log s ++ l0 ++ [poll_command; PrintStopped]).
Proof.
  intros Hc. induction pre as [|p pre IH]; intros i s.
  - cbn [app poll_loop].
    destruct (i <? List.length arrangement)%nat.
    + rewrite poll_halted by exact Hc.
      exists (Return tt), [], (logged s [poll_command; PrintStopped]).
      split; [reflexivity|]. intros _. split; [reflexivity|]. now exists [].
    + exists (Return tt), [c], s. split; [reflexivity|]. discriminate.
  - cbn [app poll_loop].
    destruct (i <? List.length arrangement)%nat.
    + destruct (poll_log i p s) as [l Hl].
      destruct (poll loads arrangement i p s) as [[[j|]|e] s1].
      * destruct (IH j s1) as (r & left & s' & E & H).
        exists r, left, s'. split; [exact E|].
        intros Hleft. destruct (H Hleft) as (Hr & l0 & Hl0).
        split; [exact Hr|]. exists (l ++ l0).
        simpl in Hl. rewrite Hl0, Hl. now rewrite <- !app_assoc.
      * exists (Return tt), (pre ++ [c]), s1.
        rewrite <- app_assoc. split; [reflexivity|].
        intros H. now destruct pre.
      * exists (Raise e), (pre ++ [c]), s1.
        rewrite <- app_assoc. split; [reflexivity|].
        intros H. now destruct pre.
    + exists (Return tt), (p :: pre ++ [c]), s.
      cbn [app]. rewrite <- app_assoc. split; [reflexivity|]. discriminate.
Qed.

End LoopFacts.

(** ** Whole runs *)

Section RunFacts.

Variable loads : bytes -> parse_outcome.

Lemma start_playback_eq (s : pstate) :
  start_playback loads s
  = (send_command loads (hd refused (start_q s)),
     mkP (tl (start_q s)) (fire_q s) (log s ++ [start_command])).
Proof.
  unfold start_playback, bind, emit, next_start, lift, start_command. simpl.
  destruct (start_q s) as [|c q]; simpl;
    [destruct (send_command loads refused) | destruct (send_command loads c)];
    reflexivity.
Qed.

(** With no cue pending the loop is over. *)
Lemma loop_done (arrangement : list cue) (feed : list conn) (i : nat)
    (s : pstate) :
  (List.length arrangement <= i)%nat ->
  poll_loop loads arrangement feed i s = (Return tt, feed, s).
Proof.
  intros H. destruct feed; simpl;
    (destruct (i <? List.length arrangement)%nat eqn:E;
     [apply Nat.ltb_lt in E; lia | reflexivity]).
Qed.

(** Queries that see every bar of [cues] reached are due for any of them. *)
Lemma due_for_all (cues pending : list cue) :
  forall tail,
    Forall (fun c => forall cue, In cue cues -> due loads (bar cue) c = true) tail ->
    incl pending cues ->
    (List.length pending <= List.length tail)%nat ->
    Forall2 (fun c cue => due loads (bar cue) c = true)
            (firstn (List.length pending) tail) pending.
Proof.
  induction pending as [|cue pending IH]; intros tail HF Hin Hlen; simpl.
  - constructor.
  - destruct tail as [|c tail]; [simpl in Hlen; lia|].
    inversion HF as [|? ? Hc HF']; subst.
    constructor.
    + apply Hc, Hin. now left.
    + apply IH; auto.
      * intros x Hx. apply Hin. now right.
      * simpl in Hlen. lia.
Qed.

(** The run of [run_arrangement] on a remote side that acknowledges
    the commands, keeps playback running, and in the end reports every
    cue's bar reached for long enough. *)
Lemma run_fires_all (arrangement : list cue) (w : world)
    (sc : conn) (sq fires fq pre tail rest : list conn) :
  start_conns w = sc :: sq -> started loads sc = true ->
  fire_conns w = fires ++ fq ->
  List.length fires = List.length arrangement ->
  Forall (fun c => acked loads c = true) fires ->
  position_conns w = pre ++ tail ++ rest ->
  Forall (fun c => playing loads c = true) pre ->
  Forall (fun c => forall cue, In cue arrangement -> due loads (bar cue) c = true)
         tail ->
  (List.length arrangement <= S (List.length tail))%nat ->
  fired_scenes (snd (run_arrangement loads arrangement w))
  = map scene (sorted arrangement)
  /\ (arrangement <> [] ->
      fst (fst (run_arrangement loads arrangement w)) = Return tt).
Proof.
  intros Hs Hst Hf Hlen Hack Hp Hpre Htail Hn.
  assert (Hperm := sorted_perm arrangement).
  assert (HlenS : List.length (sorted arrangement) = List.length arrangement)
    by now apply Permutation_length.
  unfold run_arrangement. rewrite start_playback_eq. cbn [start_q fire_q log].
  rewrite Hs. cbn [hd tl]. unfold started in Hst.
  destruct (send_command loads sc) as [v0|e]; [|discriminate].
  destruct (sorted arrangement) as [|first others] eqn:Hsorted.
  { simpl. split; [reflexivity|]. intros Hne. exfalso. apply Hne.
    destruct arrangement; [reflexivity|discriminate]. }
  destruct fires as [|f0 fires]; [simpl in *; lia|].
  pose proof (Forall_inv Hack) as Hf0.
  pose proof (Forall_inv_tail Hack) as Hack'.
  destruct (fire_scene_acked loads (scene first)
              (mkP sq (fire_conns w) ([] ++ [start_command])) f0 (fires ++ fq)
              Hf Hf0) as [v1 E1].
  rewrite E1. cbv beta iota. cbn [start_q fire_q log app]. rewrite Hp.
  set (s2 := mkP sq (fires ++ fq) [start_command; fire_command (scene first)]).
  destruct (loop_while_playing loads (first :: others) pre Hpre 1%nat s2
              fires fq (tail ++ rest) eq_refl
              ltac:(simpl in *; lia) Hack')
    as (j & pre' & s' & done & E & Hd & Hj & Hl & Hfs & Hfq & Hsq).
  rewrite E.
  assert (Hfinal : exists feed' s3,
             poll_loop loads (first :: others) (pre' ++ tail ++ rest) j s'
             = (Return tt, feed', s3)
             /\ fired_scenes (log s3)
                = fired_scenes (log s') ++ map scene (skipn j (first :: others))).
  { destruct Hj as [Hj|Hj].
    - exists (pre' ++ tail ++ rest), s'.
      rewrite loop_done by lia. split; [reflexivity|].
      rewrite Hj, skipn_all. simpl. now rewrite app_nil_r.
    - subst pre'. cbn [app].
      set (pending := skipn j (first :: others)) in *.
      set (left := skipn (List.length done) fires) in *.
      assert (Hjn : (j + List.length pending = List.length (first :: others))%nat).
      { assert (L := f_equal (@List.length _) Hd).
        rewrite length_app, length_skipn in L. fold pending in L.
        unfold pending. rewrite length_skipn.
        cbn [List.length] in *. clear - Hl. lia. }
      assert (Hpl : List.length pending = List.length left)
        by (clear - Hjn Hl; lia).
      assert (Hpt : (List.length pending <= List.length tail)%nat).
      { cbn [List.length] in *. clear - Hjn Hd Hn HlenS.
        apply (f_equal (@List.length _)) in Hd.
        rewrite length_app in Hd. cbn in Hd. lia. }
      assert (HF2 := due_for_all arrangement pending tail Htail
                       ltac:(intros x Hx; apply (Permutation_in x Hperm);
                             unfold pending in Hx;
                             rewrite <- (firstn_skipn j (first :: others));
                             apply in_or_app; now right) Hpt).
      replace (tail ++ rest)
        with (firstn (List.length pending) tail
              ++ skipn (List.length pending) tail ++ rest)
        by (now rewrite app_assoc, firstn_skipn).
      rewrite (loop_fires_in_turn loads (first :: others) _ pending HF2
                 j s' left fq [] _ ltac:(now rewrite app_nil_r) Hfq
                 ltac:(rewrite length_firstn; lia)
                 ltac:(unfold left; apply Forall_forall; intros x Hx;
                       rewrite Forall_forall in Hack'; apply Hack';
                       rewrite <- (firstn_skipn (List.length done) fires);
                       apply in_or_app; now right)).
      do 2 eexists. rewrite loop_done.
      + split; [reflexivity|]. cbn [log].
        now rewrite fired_scenes_app, fired_scenes_pass.
      + rewrite length_firstn. lia. }
  destruct Hfinal as (feed' & s3 & E3 & Hf3).
  rewrite E3. cbn [emit log fst snd].
  split; [|reflexivity].
  rewrite fired_scenes_app, Hf3, Hfs. simpl in Hd. subst s2. cbn [log].
  rewrite app_nil_r. cbn [map].
  assert (Hm : map scene others
               = map scene done ++ map scene (skipn j (first :: others))).
  { rewrite <- map_app. f_equal. exact Hd. }
  rewrite Hm.
  change (fired_scenes [start_command; fire_command (scene first)])
    with [scene first].
  now rewrite <- app_assoc.
Qed.

(** A run whose position feed contains a query answered "not
    playing" never uses what follows it; when the run reaches that
    query it ends normally with the query, the "stopped" line and the
    closing line. *)
Lemma run_halts_at (arrangement : list cue) (w : world) (c : conn)
    (pre rest : list conn) :
  halted loads c = true ->
  position_conns w = pre ++ c :: rest ->
  exists left,
    position_conns (snd (fst (run_arrangement loads arrangement w)))
    = left ++ rest
    /\ (left = [] ->
        fst (fst (run_arrangement loads arrangement w)) = Return tt
        /\ exists l0, snd (run_arrangement loads arrangement w)
                      = l0 ++ [poll_command; PrintStopped; PrintComplete]).
Proof.
  intros Hc Hp.
  assert (Hearly : forall r s,
             exists left,
               position_conns (snd (fst (r, mkWorld (start_q s) (fire_q s)
                                              (position_conns w), log s)))
               = left ++ rest
               /\ (left = [] ->
                   fst (fst (r, mkWorld (start_q s) (fire_q s)
                                  (position_conns w), log s)) = Return tt
                   /\ exists l0, snd (r, mkWorld (start_q s) (fire_q s)
                                        (position_conns w), log s)
                                 = l0 ++ [poll_command; PrintStopped; PrintComplete])).
  { intros r s. exists (pre ++ [c]). cbn. rewrite Hp, <- app_assoc.
    split; [reflexivity|]. intros H. now destruct pre. }
  unfold run_arrangement.
  destruct (start_playback loads _) as [[v0|e] s1]; [|apply Hearly].
  destruct (sorted arrangement) as [|first others]; [apply Hearly|].
  destruct (fire_scene loads (scene first) s1) as [[v1|e] s2]; [|apply Hearly].
  rewrite Hp.
  destruct (loop_halts_at loads (first :: others) c rest Hc pre 1%nat s2)
    as (r & left & s3 & E & H).
  rewrite E. exists left.
  destruct r as [[]|e]; cbn.
  - split; [reflexivity|]. intros Hl. destruct (H Hl) as (_ & l0 & Hl0).
    split; [reflexivity|]. exists (log s2 ++ l0).
    rewrite Hl0. now rewrite <- !app_assoc.
  - split; [reflexivity|]. intros Hl. destruct (H Hl) as (Hr & _). discriminate.
Qed.

End RunFacts.

(** C1, as amended.  When the reported bar has passed several pending
    cues, no cue is dropped: each following poll that still sees the
    pending cue's bar reached fires exactly that cue, the earliest one
    pending, and moves the pointer by one, so the overtaken cues are
    fired one per poll in the order of the arrangement. *)
Theorem C1_overtaken_cues_fire_in_turn (loads : bytes -> parse_outcome)
    (arrangement : list cue) (feed : list conn) (pending later : list cue)
    (i : nat) (s : pstate) (fires q rest : list conn) :
  Forall2 (fun c cue => due loads (bar cue) c = true) feed pending ->
  skipn i arrangement = pending ++ later ->
  fire_q s = fires ++ q ->
  List.length fires = List.length feed ->
  Forall (fun c => acked loads c = true) fires ->
  exists s',
    poll_loop loads arrangement (feed ++ rest) i s
    = poll_loop loads arrangement rest (i + List.length feed)%nat s'
    /\ log s' = log s ++ flat_map pass pending
    /\ fired_scenes (log s') = fired_scenes (log s) ++ map scene pending
    /\ fire_q s' = q.
Proof.
  intros HF Hsk Hq Hlen Hack.
  exists (mkP (start_q s) q (log s ++ flat_map pass pending)).
  split; [|repeat split].
  - eapply loop_fires_in_turn; eauto.
  - cbn [log]. now rewrite fired_scenes_app, fired_scenes_pass.
Qed.

Lemma C1_overtaken_cues_fire_in_turn_witness :
  exists s',
    poll_loop Json.loads Ex.jump_arrangement ([Ex.at_bar_50; Ex.at_bar_50] ++ [])
      1 (mkP [] [Ex.ok; Ex.ok] [])
    = poll_loop Json.loads Ex.jump_arrangement [] (1 + 2)%nat s'
    /\ log s' = [] ++ flat_map pass [mkCue 20 0 "A"; mkCue 30 1 "B"]
    /\ fired_scenes (log s') = [] ++ map scene [mkCue 20 0 "A"; mkCue 30 1 "B"]
    /\ fire_q s' = [].
Proof.
  apply (C1_overtaken_cues_fire_in_turn Json.loads Ex.jump_arrangement
           [Ex.at_bar_50; Ex.at_bar_50] [mkCue 20 0 "A"; mkCue 30 1 "B"] []
           1 (mkP [] [Ex.ok; Ex.ok] []) [Ex.ok; Ex.ok] [] []).
  - repeat constructor; vm_compute; reflexivity.
  - reflexivity.
  - reflexivity.
  - reflexivity.
  - repeat constructor; vm_compute; reflexivity.
Defined.

(** C1 fails as stated.  With cues at bars 1, 20 and 30 and a position
    that jumps from bar 10 to bar 50, the poll that sees bar 50 fires
    the cue of bar 20 (scene 0), and the next poll fires the cue of bar
    30 (scene 1): the cue of bar 20 is not skipped. *)
Lemma C1_counterexample :
  sorted Ex.jump_arrangement = Ex.jump_arrangement /\
  fired_scenes (snd (run_arrangement Json.loads Ex.jump_arrangement
                       (Ex.jump_world [Ex.at_bar_10; Ex.at_bar_50])))
  = [4; 0] /\
  fired_scenes (snd (run_arrangement Json.loads Ex.jump_arrangement
                       (Ex.jump_world [Ex.at_bar_10; Ex.at_bar_50; Ex.at_bar_50])))
  = [4; 0; 1] /\
  fired_scenes (snd (run_arrangement Json.loads Ex.jump_arrangement
                       (Ex.jump_world [Ex.at_bar_10; Ex.at_bar_50; Ex.at_bar_50])))
  <> [4; 1].
Proof.
  repeat split; try (vm_compute; reflexivity).
  vm_compute. discriminate.
Qed.

(** C2, as amended.  Let the remote side acknowledge every command,
    keep reporting playback as running, and in the end report a bar
    that has reached every cue's bar for as many polls as there are
    cues after the first.  Then the run fires each cue of the sorted
    arrangement exactly once and in the sorted order, and completes.
    The sorted order is ascending in the bar number, cues of one bar
    keep their given order, and it is strictly ascending when the bar
    numbers are pairwise distinct.  The pending-cue pointer stays or
    moves on by one in every pass. *)
Theorem C2_fires_each_cue_once_in_order (loads : bytes -> parse_outcome)
    (arrangement : list cue) (w : world)
    (sc : conn) (sq fires fq pre tail rest : list conn) :
  start_conns w = sc :: sq -> started loads sc = true ->
  fire_conns w = fires ++ fq ->
  List.length fires = List.length arrangement ->
  Forall (fun c => acked loads c = true) fires ->
  position_conns w = pre ++ tail ++ rest ->
  Forall (fun c => playing loads c = true) pre ->
  Forall (fun c => forall cue, In cue arrangement -> due loads (bar cue) c = true)
         tail ->
  (List.length arrangement <= S (List.length tail))%nat ->
  fired_scenes (snd (run_arrangement loads arrangement w))
  = map scene (sorted arrangement)
  /\ (arrangement <> [] ->
      fst (fst (run_arrangement loads arrangement w)) = Return tt)
  /\ Permutation (sorted arrangement) arrangement
  /\ StronglySorted bar_le (sorted arrangement)
  /\ (forall b, filter (fun c => bar c =? b) (sorted arrangement)
                = filter (fun c => bar c =? b) arrangement)
  /\ (NoDup (map bar arrangement) -> StronglySorted bar_lt (sorted arrangement))
  /\ (forall i j c s s',
        poll loads (sorted arrangement) i c s = (Return (Some j), s') ->
        j = i \/ j = S i).
Proof.
  intros Hs Hst Hf Hlen Hack Hp Hpre Htail Hn.
  destruct (run_fires_all loads arrangement w sc sq fires fq pre tail rest
              Hs Hst Hf Hlen Hack Hp Hpre Htail Hn) as [A B].
  repeat split; auto.
  - apply sorted_perm.
  - apply sorted_ascending.
  - intros b. apply sorted_stable.
  - apply sorted_strict.
  - intros i j c s s'. apply poll_pointer.
Qed.

Lemma C2_fires_each_cue_once_in_order_witness :
  fired_scenes (snd (run_arrangement Json.loads Ex.intro_build
                       (mkWorld [Ex.ok] [Ex.ok; Ex.ok] [Ex.at_bar_10; Ex.at_bar_17])))
  = map scene (sorted Ex.intro_build).
Proof.
  refine (proj1 (C2_fires_each_cue_once_in_order Json.loads Ex.intro_build
                   (mkWorld [Ex.ok] [Ex.ok; Ex.ok] [Ex.at_bar_10; Ex.at_bar_17])
                   Ex.ok [] [Ex.ok; Ex.ok] [] [Ex.at_bar_10] [Ex.at_bar_17] []
                   eq_refl _ eq_refl eq_refl _ eq_refl _ _ _)).
  - vm_compute. reflexivity.
  - repeat constructor; vm_compute; reflexivity.
  - repeat constructor; vm_compute; reflexivity.
  - constructor; [|constructor].
    intros cue [<-|[<-|[]]]; vm_compute; reflexivity.
  - simpl. lia.
Defined.

(** C2 fails as stated: with two cues on bar 17 the run fires every cue
    once, but the bars of the cues fired are 1, 17, 17, which is not
    strictly ascending. *)
Lemma C2_counterexample :
  fst (fst (run_arrangement Json.loads Ex.tie_arrangement Ex.tie_world)) = Return tt /\
  fired_scenes (snd (run_arrangement Json.loads Ex.tie_arrangement Ex.tie_world))
  = map scene (sorted Ex.tie_arrangement) /\
  map bar (sorted Ex.tie_arrangement) = [1; 17; 17] /\
  ~ StronglySorted bar_lt (sorted Ex.tie_arrangement).
Proof.
  repeat split; try (vm_compute; reflexivity).
  intros H.
  change (sorted Ex.tie_arrangement)
    with [mkCue 1 4 "Intro"; mkCue 17 0 "Build"; mkCue 17 1 "Drop"] in H.
  apply StronglySorted_inv in H as [H _].
  apply StronglySorted_inv in H as [_ H].
  apply Forall_inv in H. unfold bar_lt in H. simpl in H. lia.
Qed.

(** C3.  A position query that reports [is_playing] false ends the
    loop: the pass that makes it logs the query and the closing line
    and returns normally with the other connections untouched; nothing
    that follows it in the feed is ever used, and a run that reaches it
    ends with that query, the "stopped" line and the closing line, so
    no [fire_scene] call comes after it. *)
Theorem C3_stops_when_not_playing (loads : bytes -> parse_outcome)
    (arrangement : list cue) (c : conn) (rest : list conn) :
  halted loads c = true ->
  (forall i s,
     (i < List.length arrangement)%nat ->
     poll_loop loads arrangement (c :: rest) i s
     = (Return tt, rest, logged s [poll_command; PrintStopped])) /\
  (forall pre i s,
     exists r left s',
       poll_loop loads arrangement (pre ++ c :: rest) i s = (r, left ++ rest, s')
       /\ (left = [] ->
           r = Return tt
           /\ exists l0, log s' = log s ++ l0 ++ [poll_command; PrintStopped])) /\
  (forall cues w pre,
     position_conns w = pre ++ c :: rest ->
     exists left,
       position_conns (snd (fst (run_arrangement loads cues w))) = left ++ rest
       /\ (left = [] ->
           fst (fst (run_arrangement loads cues w)) = Return tt
           /\ exists l0, snd (run_arrangement loads cues w)
                         = l0 ++ [poll_command; PrintStopped; PrintComplete])).
Proof.
  intros Hc. split; [|split].
  - intros i s Hi. cbn [poll_loop].
    apply Nat.ltb_lt in Hi. rewrite Hi.
    now rewrite poll_halted by exact Hc.
  - now apply loop_halts_at.
  - intros cues w pre Hp. exact (run_halts_at loads cues w c pre rest Hc Hp).
Qed.

Lemma C3_stops_when_not_playing_witness :
  poll_loop Json.loads Ex.jump_arrangement [Ex.stopped_at_12; Ex.at_bar_50] 1
    (mkP [] [Ex.ok; Ex.ok] [])
  = (Return tt, [Ex.at_bar_50],
     logged (mkP [] [Ex.ok; Ex.ok] []) [poll_command; PrintStopped]).
Proof.
  refine (proj1 (C3_stops_when_not_playing Json.loads Ex.jump_arrangement
                   Ex.stopped_at_12 [Ex.at_bar_50] _) 1%nat _ _).
  - vm_compute. reflexivity.
  - simpl. lia.
Defined.

(** C9.  On the empty arrangement [run_arrangement] issues the
    start-playback command and nothing else, fires no scene, and does
    not return normally: it raises [IndexError] when the start command
    went through (and the error of that command otherwise). *)
Theorem C9_empty_arrangement_crashes (loads : bytes -> parse_outcome)
    (w : world) :
  run_arrangement loads [] w
  = (match send_command loads (hd refused (start_conns w)) with
     | Return _ => Raise IndexError
     | Raise e => Raise e
     end,
     mkWorld (tl (start_conns w)) (fire_conns w) (position_conns w),
     [start_command])
  /\ fired_scenes (snd (run_arrangement loads [] w)) = []
  /\ fst (fst (run_arrangement loads [] w)) <> Return tt.
Proof.
  assert (E : run_arrangement loads [] w
              = (match send_command loads (hd refused (start_conns w)) with
                 | Return _ => Raise IndexError
                 | Raise e => Raise e
                 end,
                 mkWorld (tl (start_conns w)) (fire_conns w) (position_conns w),
                 [start_command])).
  { unfold run_arrangement. rewrite start_playback_eq. cbn.
    destruct (send_command loads (hd refused (start_conns w))); reflexivity. }
  rewrite E. repeat split.
  cbn. destruct (send_command loads (hd refused (start_conns w))); discriminate.
Qed.

(* ================================================================== *)
(** * Properties of the test harness *)
(* ================================================================== *)

Import Harness.

Section TestFacts.

Variable loads : bytes -> parse_outcome.
Variable str_exn : exn -> string.

(** A call of [send_command] leaves the tester alone. *)
Lemma call_tester (E : Type) (s : hstate E) :
  h_tester (snd (call loads str_exn E s)) = h_tester s
  /\ h_env (snd (call loads str_exn E s)) = h_env s.
Proof. unfold call. now destruct (h_world s). Qed.

(** The three ways a call of [test] can go: one failure recorded, one
    pass recorded, or, when the cleanup function raises, a pass and
    then a failure recorded. *)
Lemma test_cases (E : Type) (nm : string)
    (check_func : option (pyval -> res bool))
    (cleanup_func : option (pyval -> E -> res E)) (s : hstate E) :
  let out := test loads str_exn E nm check_func cleanup_func s in
  (fst out = false
   /\ exists err, h_tester (snd out) = record_failed nm err (h_tester s))
  \/ (fst out = true /\ h_tester (snd out) = record_passed nm (h_tester s))
  \/ (fst out = false
      /\ exists g r env e,
           cleanup_func = Some g /\ g r env = Raise e
           /\ h_tester (snd out)
              = record_failed nm (ErrException e)
                  (record_passed nm (h_tester s))).
Proof.
  unfold test, test_try.
  destruct (call_tester E s) as [Ht He].
  destruct (call loads str_exn E s) as [sent s1]. simpl in Ht, He.
  destruct sent as [result|e]; cbn [rbind].
  2:{ left. simpl. rewrite Ht. eauto. }
  destruct (py_get result "status" VNone) as [st|e]; cbn [rbind].
  2:{ left. simpl. rewrite Ht. eauto. }
  destruct (py_eq_str st "error").
  { destruct (py_get result "message" VNone) as [msg|e];
      left; simpl; rewrite Ht; eauto. }
  destruct (match check_func with Some f => f result | None => Return true end)
    as [[|]|e].
  - destruct cleanup_func as [g|].
    + destruct (g result (h_env s1)) as [env'|e] eqn:Eg.
      * right; left. simpl. now rewrite Ht.
      * right; right. simpl. rewrite Ht. split; [reflexivity|].
        now exists g, result, (h_env s1), e.
    + right; left. simpl. now rewrite Ht.
  - left. simpl. rewrite Ht. eauto.
  - left. simpl. rewrite Ht. eauto.
Qed.

Lemma filter_length_snoc {A} (f : A -> bool) (l : list A) (x : A) :
  List.length (filter f (l ++ [x]))
  = (List.length (filter f l) + if f x then 1 else 0)%nat.
Proof.
  rewrite filter_app, length_app. simpl. now destruct (f x).
Qed.

Lemma record_failed_extends (nm : string) (err : error_info) (t : tester) :
  extends t (record_failed nm err t) [nm].
Proof.
  split.
  - unfold names. simpl. now rewrite map_app.
  - intros [Hp Hf]. split; simpl; rewrite filter_length_snoc; simpl; lia.
Qed.

Lemma record_passed_extends (nm : string) (t : tester) :
  extends t (record_passed nm t) [nm].
Proof.
  split.
  - unfold names. simpl. now rewrite map_app.
  - intros [Hp Hf]. split; simpl; rewrite filter_length_snoc; simpl; lia.
Qed.

Lemma extends_refl (t : tester) : extends t t [].
Proof. split; [now rewrite app_nil_r | auto]. Qed.

Lemma extends_trans (t1 t2 t3 : tester) (l1 l2 : list string) :
  extends t1 t2 l1 -> extends t2 t3 l2 -> extends t1 t3 (l1 ++ l2).
Proof.
  intros [N1 C1] [N2 C2]. split; [|auto].
  now rewrite N2, N1, app_assoc.
Qed.

(** Whatever happens in [test], the counters stay in step with the
    result list. *)
Lemma test_consistent (E : Type) (nm : string)
    (check_func : option (pyval -> res bool))
    (cleanup_func : option (pyval -> E -> res E)) (s : hstate E) :
  consistent (h_tester s) ->
  consistent (h_tester (snd (test loads str_exn E nm check_func cleanup_func s))).
Proof.
  intros Hc.
  pose proof (test_cases E nm check_func cleanup_func s) as H. cbv zeta in H.
  destruct H as [(_ & err & ->)|[(_ & ->)|(_ & g & r & env & e & _ & _ & ->)]].
  - now apply record_failed_extends.
  - now apply record_passed_extends.
  - now apply record_failed_extends, record_passed_extends.
Qed.

(** With a cleanup function that does not raise, a call of [test]
    records exactly its own name, once, and returns whether the entry
    is a pass. *)
Lemma test_once (E : Type) (nm : string)
    (check_func : option (pyval -> res bool))
    (cleanup_func : option (pyval -> E -> res E)) (s : hstate E) :
  safe_cleanup cleanup_func ->
  let out := test loads str_exn E nm check_func cleanup_func s in
  extends (h_tester s) (h_tester (snd out)) [nm]
  /\ exists err,
       test_results (h_tester (snd out))
       = test_results (h_tester s)
         ++ [mkResult nm (if fst out then passed else failed) err]
  /\ tests_passed (h_tester (snd out))
     = (tests_passed (h_tester s) + if fst out then 1 else 0)%nat
  /\ tests_failed (h_tester (snd out))
     = (tests_failed (h_tester s) + if fst out then 0 else 1)%nat.
Proof.
  intros Hsafe. cbv zeta.
  pose proof (test_cases E nm check_func cleanup_func s) as H. cbv zeta in H.
  destruct H as [(Hb & err & Ht)|[(Hb & Ht)|(_ & g & r & env & e & Hg & Hr & _)]].
  - rewrite Hb, Ht. split; [apply record_failed_extends|].
    eexists. simpl. repeat split; lia.
  - rewrite Hb, Ht. split; [apply record_passed_extends|].
    eexists. simpl. repeat split; lia.
  - exfalso. subst cleanup_func. destruct (Hsafe r env) as [env' Henv].
    congruence.
Qed.

End TestFacts.

(** ** Stepping through [run_all_tests] *)

Section SuiteFacts.

Variable loads : bytes -> parse_outcome.
Variable str_exn : exn -> string.

Lemma tbind_inv {A B} (m : Harness.T A) (f : A -> Harness.T B)
    (s s' : hstate locals) (b : B) :
  tbind m f s = (Return b, s') ->
  exists a s1, m s = (Return a, s1) /\ f a s1 = (Return b, s').
Proof.
  unfold tbind. destruct (m s) as [[a|e] s1]; [eauto|discriminate].
Qed.

Lemma run_test_inv (nm : string) (check_func : option (pyval -> res bool))
    (cleanup_func : option (pyval -> locals -> res locals))
    (s s1 : hstate locals) (r : res bool) :
  safe_cleanup cleanup_func ->
  run_test loads str_exn nm check_func cleanup_func s = (r, s1) ->
  extends (h_tester s) (h_tester s1) [nm].
Proof.
  intros Hsafe H. unfold run_test in H.
  pose proof (test_once loads str_exn locals nm check_func cleanup_func s Hsafe)
    as [Hx _].
  destruct (test loads str_exn locals nm check_func cleanup_func s) as [b s2].
  inversion H; subst. exact Hx.
Qed.

Lemma query_inv (s s1 : hstate locals) (r : res pyval) :
  query loads str_exn s = (r, s1) -> extends (h_tester s) (h_tester s1) [].
Proof.
  unfold query. intros H.
  pose proof (call_tester loads str_exn locals s) as [Ht _].
  rewrite H in Ht. simpl in Ht. rewrite Ht. apply extends_refl.
Qed.

Lemma tlift_inv {A} (x : res A) (s s1 : hstate locals) (r : res A) :
  tlift x s = (r, s1) -> s1 = s.
Proof. unfold tlift. now inversion 1. Qed.

Lemma get_local_inv (f : locals -> option pyval) (s s1 : hstate locals)
    (r : res (option pyval)) :
  get_local f s = (r, s1) -> s1 = s.
Proof. unfold get_local. now inversion 1. Qed.

Lemma tret_inv {A} (a : A) (s s1 : hstate locals) (r : res A) :
  tret a s = (r, s1) -> s1 = s.
Proof. unfold tret. now inversion 1. Qed.

Lemma safe_none {E} : @safe_cleanup E None.
Proof. exact I. Qed.

Lemma safe_store_midi : safe_cleanup (Some store_midi_track).
Proof. intros r env. eexists. reflexivity. Qed.

Lemma safe_store_audio : safe_cleanup (Some store_audio_track).
Proof. intros r env. eexists. reflexivity. Qed.

Lemma safe_store_dup : safe_cleanup (Some store_dup_track).
Proof. intros r env. eexists. reflexivity. Qed.

Lemma safe_store_scene : safe_cleanup (Some store_scene).
Proof. intros r env. eexists. reflexivity. Qed.

Create HintDb suite.

#[local] Hint Resolve safe_none safe_store_midi safe_store_audio safe_store_dup
  safe_store_scene : suite.

(** One step of the run: split off the first action of [H], and add
    what it recorded to the account [Acc]. *)
Ltac add_to Acc Hm :=
  let Acc' := fresh "Acc" in
  pose proof (extends_trans _ _ _ _ _ Acc Hm) as Acc';
  clear Acc Hm; rename Acc' into Acc.

Ltac step Acc H :=
  let a := fresh "a" in
  let s1 := fresh "s" in
  let Hm := fresh "Hm" in
  apply tbind_inv in H as (a & s1 & Hm & H);
  lazymatch type of Hm with
  | run_test _ _ _ _ _ _ = _ =>
      apply run_test_inv in Hm; [|auto with suite]; add_to Acc Hm
  | query _ _ _ = _ =>
      apply query_inv in Hm; add_to Acc Hm
  | tlift _ _ = _ => apply tlift_inv in Hm; subst s1
  | get_local _ _ = _ => apply get_local_inv in Hm; subst s1
  | tret _ _ = _ => apply tret_inv in Hm; subst s1
  end.

(** The cleanup loop runs its [n] tests. *)
Lemma delete_tracks_inv (current : Z) (n : nat) :
  forall i s s' r,
    delete_tracks loads str_exn current i n s = (r, s') ->
    r = Return tt
    /\ extends (h_tester s) (h_tester s') (delete_names current i n).
Proof.
  induction n as [|n IH]; intros i s s' r H; simpl in H.
  - unfold tret in H. inversion H; subst. split; [reflexivity|apply extends_refl].
  - unfold tbind in H.
    destruct (run_test loads str_exn _ None None s) as [[b|e] s1] eqn:Hm.
    + apply run_test_inv in Hm; [|exact I].
      destruct (IH _ _ _ _ H) as [Hr Hx]. split; [exact Hr|].
      exact (extends_trans _ _ _ _ _ Hm Hx).
    + exfalso. unfold run_test in Hm.
      destruct (test loads str_exn locals _ None None s); discriminate.
Qed.

(** The tests on the first device. *)
Lemma device_tests_inv (devices : pyval) (s s' : hstate locals) :
  device_tests loads str_exn devices s = (Return tt, s') ->
  exists b, extends (h_tester s) (h_tester s') (device_names b).
Proof.
  intros H. unfold device_tests in H.
  pose proof (extends_refl (h_tester s)) as Acc.
  do 6 step Acc H.
  apply tbind_inv in H as (u & sp & Hm & H).
  match type of Hm with
  | (if ?c then _ else _) _ = _ => destruct c
  end.
  - do 5 step Acc Hm. apply tret_inv in Hm. subst.
    do 3 step Acc H. apply tret_inv in H. subst.
    exists true. exact Acc.
  - apply tret_inv in Hm. subst.
    do 3 step Acc H. apply tret_inv in H. subst.
    exists false. exact Acc.
Qed.

(** The device block of the run. *)
Lemma device_block_inv (devices : pyval) (s s' : hstate locals) (u : unit) :
  (if truthy devices then device_tests loads str_exn devices else tret tt) s
  = (Return u, s') ->
  exists dev,
    extends (h_tester s) (h_tester s') dev
    /\ (dev = [] \/ exists b, dev = device_names b).
Proof.
  intros H. destruct u. destruct (truthy devices).
  - apply device_tests_inv in H as [b Hb].
    exists (device_names b). split; [exact Hb|right; now exists b].
  - apply tret_inv in H. subst. exists [].
    split; [apply extends_refl|now left].
Qed.

(** The test on a send, run only when the remote side reports a
    return track. *)
Lemma send_block_inv (has_returns : bool) (s s' : hstate locals) (u : unit) :
  (if has_returns
   then tbind (run_test loads str_exn "Set track send" None None)
              (fun _ => tret tt)
   else tret tt) s = (Return u, s') ->
  exists send,
    extends (h_tester s) (h_tester s') send
    /\ (send = [] \/ send = ["Set track send"]).
Proof.
  intros H. pose proof (extends_refl (h_tester s)) as Acc.
  destruct has_returns.
  - step Acc H. apply tret_inv in H. subst.
    exists ["Set track send"]. split; [exact Acc|now right].
  - apply tret_inv in H. subst. exists []. split; [exact Acc|now left].
Qed.

Ltac block Acc H :=
  let u := fresh "u" in
  let s1 := fresh "s" in
  let Hm := fresh "Hm" in
  let l := fresh "l" in
  let Hl := fresh "Hl" in
  apply tbind_inv in H as (u & s1 & Hm & H);
  first [ apply device_block_inv in Hm as (l & Hm & Hl)
        | apply send_block_inv in Hm as (l & Hm & Hl) ];
  add_to Acc Hm.

(** The run after the connection check: whenever it returns, it has
    recorded the tests of the suite in the order of the source,
    whatever their outcomes, and the counters are in step with the
    result list. *)
Lemma run_suite_inv (s s' : hstate locals) :
  run_suite loads str_exn s = (Return tt, s') ->
  exists l, extends (h_tester s) (h_tester s') l /\ suite_names l.
Proof.
  intros H. unfold run_suite in H.
  pose proof (extends_refl (h_tester s)) as Acc.
  repeat step Acc H.
  block Acc H.
  repeat step Acc H.
  block Acc H.
  repeat step Acc H.
  apply delete_tracks_inv in H as [_ Hdel].
  add_to Acc Hdel.
  eexists. split; [exact Acc|].
  unfold suite_names. rewrite <- !app_assoc. cbn [app].
  do 3 eexists. split; [|split; [|split]].
  - unfold before_devices, before_send, before_cleanup. cbn [app]. reflexivity.
  - assumption.
  - assumption.
  - do 2 eexists. reflexivity.
Qed.

End SuiteFacts.

(** ** The run as a whole *)

Section RunAllFacts.

Variable loads : bytes -> parse_outcome.
Variable str_exn : exn -> string.

(** [run_all_tests] is the connection check followed, when it passed,
    by the suite. *)
Lemma run_all_tests_eq (s : hstate locals) :
  run_all_tests loads str_exn s
  = let check := test loads str_exn locals "Connection" None None s in
    if fst check then run_suite loads str_exn (snd check)
    else (Return tt, snd check).
Proof.
  unfold run_all_tests, tbind, run_test.
  now destruct (test loads str_exn locals "Connection" None None s) as [[|] s1].
Qed.

Lemma consistent_init : consistent init.
Proof. split; reflexivity. Qed.

(** In step with the list, the failure counter is zero exactly when
    every entry is a pass. *)
Lemma no_failure (t : tester) :
  consistent t ->
  (tests_failed t = 0%nat
   <-> Forall (fun r => tr_status r = passed) (test_results t)).
Proof.
  intros [_ Hf]. rewrite Hf. clear Hf.
  induction (test_results t) as [|r l IH]; simpl.
  - split; [constructor|reflexivity].
  - unfold is_failed at 1. destruct (tr_status r) eqn:E; simpl.
    + rewrite IH. split; [now constructor|now inversion 1].
    + split; [discriminate|]. inversion 1; congruence.
Qed.

(** In step with the list, the counters add up to its length. *)
Lemma counters_sum (t : tester) :
  consistent t ->
  (tests_passed t + tests_failed t)%nat = List.length (test_results t).
Proof.
  intros [-> ->].
  induction (test_results t) as [|r l IH]; [reflexivity|].
  simpl. unfold is_passed at 1, is_failed at 1.
  destruct (tr_status r); simpl; lia.
Qed.

(** A run that returns leaves the counters in step with the list. *)
Lemma run_all_tests_consistent (w : list conn) (s : hstate locals) :
  run_all_tests loads str_exn (new_run w) = (Return tt, s) ->
  consistent (h_tester s).
Proof.
  rewrite run_all_tests_eq. cbv zeta.
  pose proof (test_consistent loads str_exn locals "Connection" None None
                (new_run w) consistent_init) as Hc.
  destruct (test loads str_exn locals "Connection" None None (new_run w))
    as [[|] s1]; cbn [fst snd] in *.
  - intros H. apply run_suite_inv in H as (l & [_ Hx] & _). auto.
  - intros H. inversion H; subst. exact Hc.
Qed.

End RunAllFacts.

(** C7, as amended.  The harness exits with code 0 if and only if
    [run_all_tests] returned (no exception left it) and every entry of
    the result list is a pass; otherwise it exits with code 1, in
    particular whenever an entry is a failure. *)
Theorem C7_exit_code (loads : bytes -> parse_outcome)
    (str_exn : exn -> string) (w : list conn) :
  let out := run_all_tests loads str_exn (new_run w) in
  (main loads str_exn w = 0
   <-> fst out = Return tt
       /\ Forall (fun r => tr_status r = passed)
                 (test_results (h_tester (snd out))))
  /\ (main loads str_exn w = 0 \/ main loads str_exn w = 1)
  /\ (Exists (fun r => tr_status r = failed)
             (test_results (h_tester (snd out))) ->
      main loads str_exn w = 1).
Proof.
  cbv zeta. unfold main.
  destruct (run_all_tests loads str_exn (new_run w)) as [[[]|e] s] eqn:E;
    cbn [fst snd].
  - pose proof (no_failure _ (run_all_tests_consistent loads str_exn w s E))
      as Hnf.
    destruct (tests_failed (h_tester s) =? 0)%nat eqn:Ez.
    + apply Nat.eqb_eq in Ez. apply Hnf in Ez.
      repeat split; auto.
      intros Hex. exfalso. rewrite Forall_forall in Ez.
      apply Exists_exists in Hex as (r & Hin & Hr).
      specialize (Ez r Hin). congruence.
    + apply Nat.eqb_neq in Ez.
      repeat split; auto; try discriminate.
      intros [_ Hall]. exfalso. apply Ez. now apply Hnf.
  - repeat split; auto; try discriminate.
    intros [H _]. discriminate.
Qed.

Lemma C7_exit_code_witness :
  main Json.loads Json.str_exn gone_after_check = 1.
Proof.
  refine (proj2 (proj2 (C7_exit_code Json.loads Json.str_exn gone_after_check)) _).
  apply Exists_cons_tl, Exists_cons_hd. vm_compute. reflexivity.
Defined.

(** C7 fails as stated: when the remote side answers the connection
    check and then sends a JSON array, the one test that ran passed and
    [tests_failed] is 0, yet the exception that leaves [run_all_tests]
    makes the exit code 1. *)
Lemma C7_counterexample :
  let out := run_all_tests Json.loads Json.str_exn (new_run Ex.array_after_check) in
  test_results (h_tester (snd out)) = [mkResult "Connection" passed None]
  /\ tests_failed (h_tester (snd out)) = 0%nat
  /\ fst out = Raise AttributeError
  /\ main Json.loads Json.str_exn Ex.array_after_check = 1.
Proof. repeat split; vm_compute; reflexivity. Qed.

(** C8, as amended.  The connection check is the one test whose failure
    ends the run: nothing else is run after it.  When it passes, a run
    that returns has run the tests of the suite in the order of the
    source, whatever the outcome of each of them: the fixed ones always,
    the device tests, the send test and the track deletions as the
    replies decide. *)
Theorem C8_suite_runs_on (loads : bytes -> parse_outcome)
    (str_exn : exn -> string) (w : list conn) :
  let check := test loads str_exn locals "Connection" None None (new_run w) in
  (fst check = false ->
     run_all_tests loads str_exn (new_run w) = (Return tt, snd check)
     /\ names (h_tester (snd check)) = ["Connection"])
  /\ (fst check = true ->
      forall s,
        run_all_tests loads str_exn (new_run w) = (Return tt, s) ->
        exists l, names (h_tester s) = "Connection" :: l /\ suite_names l).
Proof.
  cbv zeta.
  pose proof (test_once loads str_exn locals "Connection" None None
                (new_run w) I) as [[Hn _] _].
  rewrite run_all_tests_eq. cbv zeta.
  destruct (test loads str_exn locals "Connection" None None (new_run w))
    as [b s1]; cbn [fst snd] in *.
  split; intros ->.
  - split; [reflexivity|exact Hn].
  - intros s H. apply run_suite_inv in H as (l & [Hl _] & Hs).
    exists l. split; [|exact Hs]. now rewrite Hl, Hn.
Qed.

Lemma C8_suite_runs_on_witness :
  exists l,
    names (h_tester (snd (run_all_tests Json.loads Json.str_exn
                            (new_run gone_after_check))))
    = "Connection" :: l
    /\ suite_names l.
Proof.
  refine (proj2 (C8_suite_runs_on Json.loads Json.str_exn gone_after_check) _ _ _).
  - vm_compute. reflexivity.
  - vm_compute. reflexivity.
Defined.

(** C8 fails as stated: when the connection check fails (here the
    remote side is not there at all), the run ends after that one test
    and none of the later tests is run. *)
Lemma C8_counterexample :
  let out := run_all_tests Json.loads Json.str_exn (new_run []) in
  fst out = Return tt
  /\ test_results (h_tester (snd out))
     = [mkResult "Connection" failed (Some (ErrMessage (VStr "Connection refused")))]
  /\ ~ In "Get session info" (names (h_tester (snd out))).
Proof.
  repeat split; try (vm_compute; reflexivity).
  vm_compute. intros [H|[]]. discriminate.
Qed.

(** C10 at its failing input.  A call of [test] whose cleanup function
    raises has already counted and recorded the pass when the
    [except] clause counts and records a failure: both counters go up,
    two entries are appended, and [False] is returned although one of
    the entries is a pass. *)
Theorem C10_cleanup_raise_counted_twice :
  test Json.loads Json.str_exn unit "t" None (Some (fun _ _ => Raise UserError))
       (mkH init [Ex.reply "{}"] tt)
  = (false,
     mkH (mkTester 1 1 [ mkResult "t" passed None;
                         mkResult "t" failed (Some (ErrException UserError)) ])
         [] tt).
Proof. vm_compute. reflexivity. Qed.

(* ================================================================== *)
(** * Objects are self-delimiting for the decoder *)
(* ================================================================== *)

Section JsonFacts.

Import Json.

Lemma skip_ws_app (s t : list N) :
  skip_ws s <> [] -> skip_ws (s ++ t) = skip_ws s ++ t.
Proof.
  induction s as [|b s IH]; simpl; [congruence|].
  destruct (is_ws b); auto.
Qed.

Lemma skip_ws_stop (r r' : list N) (c : N) :
  skip_ws r = c :: r' ->
  (c =? 44)%N || (c =? 93)%N || (c =? 125)%N = true ->
  stop r = true.
Proof.
  destruct r as [|b r0]; simpl; [discriminate|].
  destruct (is_ws b) eqn:E; [reflexivity|].
  intros H Hc. inversion H; subst. simpl. exact Hc.
Qed.

Lemma list_ind2 {A} (P : list A -> Prop) :
  P [] -> (forall a, P [a]) ->
  (forall a b l, P l -> P (b :: l) -> P (a :: b :: l)) ->
  forall l, P l.
Proof.
  intros H0 H1 H2.
  assert (H : forall l, P l /\ forall a, P (a :: l)).
  { induction l as [|b l [IH1 IH2]]; split; auto. }
  intros l. apply H.
Qed.

Lemma string_body_app (s : list N) :
  forall acc str r t,
    string_body acc s = Ok str r ->
    string_body acc (s ++ t) = Ok str (r ++ t).
Proof.
  induction s as [|a|a b l IHl IHbl] using list_ind2; intros acc str r t H.
  - discriminate.
  - simpl in *. destruct (a =? 34)%N; [now inversion H|].
    destruct (a <? 32)%N; [discriminate|].
    destruct (a =? 92)%N; discriminate.
  - cbn [string_body app] in *.
    destruct (a =? 34)%N; [now inversion H|].
    destruct (a <? 32)%N; [discriminate|].
    destruct (a =? 92)%N.
    + repeat match type of H with
             | (if ?c then _ else _) = _ => destruct c
             end; try discriminate; now apply IHl.
    + now apply (IHbl (a :: acc)).
Qed.

Lemma digits_app (s : list N) :
  forall acc z r t,
    digits acc s = (z, r) -> stop r = true ->
    digits acc (s ++ t) = (z, r ++ t).
Proof.
  induction s as [|b s IH]; intros acc z r t H Hr; cbn [digits app] in *.
  - inversion H; subst. discriminate.
  - destruct (is_digit b) eqn:E; [now apply IH|].
    inversion H; subst. reflexivity.
Qed.

Lemma stop_not_digit (b : N) (r : list N) :
  stop (b :: r) = true -> is_digit b = false.
Proof.
  unfold stop, is_ws, is_digit, between. intros H.
  repeat (apply orb_prop in H as [H|H]); apply N.eqb_eq in H; now subst.
Qed.

Lemma float_follows_stop (r t : list N) :
  stop r = true -> float_follows (r ++ t) = false.
Proof.
  destruct r as [|b r]; [discriminate|]. intros H.
  unfold stop, is_ws in H. cbn [app float_follows].
  repeat (apply orb_prop in H as [H|H]); apply N.eqb_eq in H; now subst.
Qed.

Lemma int_part_app (s r t : list N) (z : Z) :
  int_part s = Some (z, r) -> stop r = true ->
  int_part (s ++ t) = Some (z, r ++ t).
Proof.
  destruct s as [|b s]; [discriminate|]. cbn [app int_part].
  destruct (b =? 48)%N; [now inversion 1|].
  destruct (is_digit b) eqn:E; [|discriminate].
  intros H Hr.
  assert (H' : digits 0 (b :: s) = (z, r)) by congruence.
  change (b :: s ++ t) with ((b :: s) ++ t).
  now rewrite (digits_app (b :: s) 0 z r t H' Hr).
Qed.

Lemma int_part_none (s t : list N) :
  int_part s = None -> s <> [] -> int_part (s ++ t) = None.
Proof.
  destruct s as [|b s]; [congruence|]. cbn [app int_part].
  destruct (b =? 48)%N; [discriminate|].
  now destruct (is_digit b).
Qed.

Lemma number_app (neg : bool) (s t r : list N) (v : pyval) :
  number neg s = Some (Ok v r) -> stop r = true ->
  number neg (s ++ t) = Some (Ok v (r ++ t)).
Proof.
  unfold number. destruct (int_part s) as [[z r0]|] eqn:E; [|discriminate].
  destruct (float_follows r0) eqn:F; [discriminate|].
  intros H Hr. inversion H; subst.
  now rewrite (int_part_app _ _ t _ E Hr), float_follows_stop.
Qed.

Lemma strip_app (w : list N) :
  forall s r t, strip w s = Some r -> strip w (s ++ t) = Some (r ++ t).
Proof.
  induction w as [|a w IH]; intros s r t H; simpl in *.
  - now inversion H.
  - destruct s as [|b s]; [discriminate|]. simpl.
    destruct (a =? b)%N; [now apply IH|discriminate].
Qed.

(** A text that starts with one literal does not start with a literal
    that begins with another byte, however it goes on. *)
Lemma strip_other (w w' s r t : list N) :
  strip w' s = Some r ->
  match w, w' with
  | a :: _, a' :: _ => (a =? a')%N = false
  | _, _ => False
  end ->
  strip w (s ++ t) = None.
Proof.
  destruct w as [|a w], w' as [|a' w']; try contradiction.
  destruct s as [|b s]; [discriminate|]. cbn [strip app].
  destruct (N.eqb_spec a' b); [subst b|discriminate].
  now intros _ ->.
Qed.

Lemma literal_app (s r t : list N) (v : pyval) :
  literal s = Some (v, r) -> literal (s ++ t) = Some (v, r ++ t).
Proof.
  unfold literal. intros H.
  repeat match type of H with
         | match strip ?w s with _ => _ end = _ =>
             let E := fresh "E" in
             destruct (strip w s) as [r0|] eqn:E;
             [ inversion H; subst;
               repeat match goal with
                      | |- context [strip ?w' (s ++ t)] =>
                          first [ rewrite (strip_app w' s _ t E)
                                | rewrite (strip_other w' w s _ t E)
                                    by reflexivity ]
                      end;
               reflexivity
             | ]
         end.
  discriminate.
Qed.

Lemma number_none (neg : bool) (s t : list N) :
  number neg s = None -> s <> [] -> number neg (s ++ t) = None.
Proof.
  unfold number. destruct (int_part s) as [[z r]|] eqn:E; [discriminate|].
  intros _ Hs. now rewrite int_part_none.
Qed.

Lemma scalar_app (s r t : list N) (v : pyval) :
  scalar s = Ok v r -> stop r = true -> scalar (s ++ t) = Ok v (r ++ t).
Proof.
  unfold scalar. destruct s as [|c s0]; [discriminate|]. cbn [app].
  intros H Hr.
  assert (Hlit : forall o,
             match o with
             | Some p => p
             | None => match literal (c :: s0) with
                       | Some (v, r) => Ok v r
                       | None => Bad
                       end
             end = Ok v r ->
             o = None ->
             match literal (c :: s0 ++ t) with
             | Some (v, r) => Ok v r
             | None => Bad
             end = Ok v (r ++ t)).
  { intros o Ho ->. destruct (literal (c :: s0)) as [[v' r']|] eqn:El;
      [|discriminate].
    inversion Ho; subst.
    change (c :: s0 ++ t) with ((c :: s0) ++ t).
    now rewrite (literal_app _ _ t _ El). }
  destruct (c =? 45)%N eqn:Ec.
  - destruct (number true s0) as [p|] eqn:En.
    + subst p. now rewrite (number_app true s0 t r v En Hr).
    + destruct s0 as [|c0 s0].
      * apply N.eqb_eq in Ec. subst c. discriminate.
      * rewrite (number_none true (c0 :: s0) t En) by discriminate.
        now apply (Hlit None).
  - destruct (number false (c :: s0)) as [p|] eqn:En.
    + subst p. change (c :: s0 ++ t) with ((c :: s0) ++ t).
      now rewrite (number_app false (c :: s0) t r v En Hr).
    + change (number false (c :: s0 ++ t))
        with (number false ((c :: s0) ++ t)).
      rewrite (number_none false (c :: s0) t En) by discriminate.
      now apply (Hlit None).
Qed.

(** One step of each of the three readers. *)
Lemma value_S (f : nat) (s : list N) :
  value (S f) s
  = match s with
    | [] => Bad
    | b :: r =>
        if (b =? 34)%N then
          match string_body [] r with
          | Ok str r' => Ok (VStr str) r'
          | Bad => Bad
          | Unsupported => Unsupported
          end
        else if (b =? 91)%N then
          match skip_ws r with
          | [] => Bad
          | c :: r' =>
              if (c =? 93)%N then Ok (VList []) r' else elements f (c :: r') []
          end
        else if (b =? 123)%N then
          match skip_ws r with
          | [] => Bad
          | c :: r' =>
              if (c =? 125)%N then Ok (VDict []) r' else members f (c :: r') []
          end
        else scalar s
    end.
Proof. reflexivity. Qed.

Lemma elements_S (f : nat) (s : list N) (acc : list pyval) :
  elements (S f) s acc
  = match value f s with
    | Ok v r =>
        match skip_ws r with
        | [] => Bad
        | c :: r' =>
            if (c =? 44)%N then elements f (skip_ws r') (acc ++ [v])
            else if (c =? 93)%N then Ok (VList (acc ++ [v])) r'
            else Bad
        end
    | Bad => Bad
    | Unsupported => Unsupported
    end.
Proof. reflexivity. Qed.

Lemma members_S (f : nat) (s : list N) (acc : list (string * pyval)) :
  members (S f) s acc
  = match s with
    | [] => Bad
    | b :: r =>
        if (b =? 34)%N then
          match string_body [] r with
          | Ok k r1 =>
              match skip_ws r1 with
              | [] => Bad
              | c :: r2 =>
                  if (c =? 58)%N then
                    match value f (skip_ws r2) with
                    | Ok v r3 =>
                        match skip_ws r3 with
                        | [] => Bad
                        | c' :: r4 =>
                            if (c' =? 44)%N
                            then members f (skip_ws r4) (dict_set k v acc)
                            else if (c' =? 125)%N
                            then Ok (VDict (dict_set k v acc)) r4
                            else Bad
                        end
                    | Bad => Bad
                    | Unsupported => Unsupported
                    end
                  else Bad
              end
          | Bad => Bad
          | Unsupported => Unsupported
          end
        else Bad
    end.
Proof. reflexivity. Qed.

Lemma value_nil (f : nat) (v : pyval) (r : list N) : value f [] <> Ok v r.
Proof. destruct f; discriminate. Qed.

Lemma elements_nil (f : nat) (acc : list pyval) (v : pyval) (r : list N) :
  elements f [] acc <> Ok v r.
Proof.
  destruct f; [discriminate|]. rewrite elements_S.
  destruct (value f []) eqn:E; try discriminate. now apply value_nil in E.
Qed.

Lemma members_nil (f : nat) (acc : list (string * pyval)) (v : pyval)
    (r : list N) :
  members f [] acc <> Ok v r.
Proof. destruct f; discriminate. Qed.

(** A text that parses still parses, to the same value, when more
    text follows, provided the value is delimited: it is a string, an
    array or an object, or it is followed by a byte that ends it. *)
Lemma parse_app (f : nat) :
  (forall s v r t,
     value f s = Ok v r -> opens s = true \/ stop r = true ->
     value f (s ++ t) = Ok v (r ++ t)) /\
  (forall s acc v r t,
     elements f s acc = Ok v r -> elements f (s ++ t) acc = Ok v (r ++ t)) /\
  (forall s acc v r t,
     members f s acc = Ok v r -> members f (s ++ t) acc = Ok v (r ++ t)).
Proof.
  induction f as [|f (IHv & IHe & IHm)].
  { repeat split; intros; discriminate. }
  split; [|split].
  - intros s v r t H Hg. rewrite value_S in *.
    destruct s as [|b s0]; [discriminate|]. cbn [app].
    destruct (b =? 34)%N eqn:E34.
    { destruct (string_body [] s0) as [str r'| |] eqn:Es; try discriminate.
      inversion H; subst. now rewrite (string_body_app _ _ _ _ t Es). }
    destruct (b =? 91)%N eqn:E91.
    { destruct (skip_ws s0) as [|c r'] eqn:Ew; [discriminate|].
      rewrite skip_ws_app by (rewrite Ew; discriminate). rewrite Ew. cbn [app].
      destruct (c =? 93)%N; [now inversion H|].
      exact (IHe _ _ _ _ t H). }
    destruct (b =? 123)%N eqn:E123.
    { destruct (skip_ws s0) as [|c r'] eqn:Ew; [discriminate|].
      rewrite skip_ws_app by (rewrite Ew; discriminate). rewrite Ew. cbn [app].
      destruct (c =? 125)%N; [now inversion H|].
      exact (IHm _ _ _ _ t H). }
    destruct Hg as [Hg|Hg].
    { simpl in Hg. rewrite E34, E91, E123 in Hg. discriminate. }
    change (b :: s0 ++ t) with ((b :: s0) ++ t). now apply scalar_app.
  - intros s acc v r t H. rewrite elements_S in *.
    destruct (value f s) as [v0 r0| |] eqn:Ev; try discriminate.
    destruct (skip_ws r0) as [|c r'] eqn:Ew; [discriminate|].
    assert (Hs : stop r0 = true).
    { apply (skip_ws_stop r0 r' c Ew).
      destruct (c =? 44)%N; [reflexivity|].
      destruct (c =? 93)%N; [reflexivity|discriminate]. }
    rewrite (IHv s v0 r0 t Ev (or_intror Hs)).
    rewrite skip_ws_app by (rewrite Ew; discriminate). rewrite Ew. cbn [app].
    destruct (c =? 44)%N.
    + rewrite skip_ws_app.
      * exact (IHe _ _ _ _ t H).
      * intros E. rewrite E in H. now apply elements_nil in H.
    + destruct (c =? 93)%N; [now inversion H|discriminate].
  - intros s acc v r t H. rewrite members_S in *.
    destruct s as [|b s0]; [discriminate|]. cbn [app].
    destruct (b =? 34)%N; [|discriminate].
    destruct (string_body [] s0) as [k r1| |] eqn:Es; try discriminate.
    rewrite (string_body_app _ _ _ _ t Es).
    destruct (skip_ws r1) as [|c r2] eqn:Ew1; [discriminate|].
    rewrite skip_ws_app by (rewrite Ew1; discriminate). rewrite Ew1. cbn [app].
    destruct (c =? 58)%N; [|discriminate].
    destruct (value f (skip_ws r2)) as [v0 r3| |] eqn:Ev; try discriminate.
    destruct (skip_ws r3) as [|c' r4] eqn:Ew3; [discriminate|].
    assert (Hs : stop r3 = true).
    { apply (skip_ws_stop r3 r4 c' Ew3).
      destruct (c' =? 44)%N; [reflexivity|].
      destruct (c' =? 125)%N; [|discriminate].
      now rewrite orb_true_r. }
    rewrite skip_ws_app
      by (intros E; rewrite E in Ev; now apply value_nil in Ev).
    rewrite (IHv _ v0 r3 t Ev (or_intror Hs)).
    rewrite skip_ws_app by (rewrite Ew3; discriminate). rewrite Ew3. cbn [app].
    destruct (c' =? 44)%N.
    + rewrite skip_ws_app.
      * exact (IHm _ _ _ _ t H).
      * intros E. rewrite E in H. now apply members_nil in H.
    + destruct (c' =? 125)%N; [now inversion H|discriminate].
Qed.

(** More fuel does not change a successful parse. *)
Lemma parse_more_fuel (f : nat) :
  (forall s v r, value f s = Ok v r -> value (S f) s = Ok v r) /\
  (forall s acc v r, elements f s acc = Ok v r -> elements (S f) s acc = Ok v r) /\
  (forall s acc v r, members f s acc = Ok v r -> members (S f) s acc = Ok v r).
Proof.
  induction f as [|f (IHv & IHe & IHm)].
  { repeat split; intros; discriminate. }
  split; [|split].
  - intros s v r H. rewrite value_S in H. rewrite (value_S (S f)).
    destruct s as [|b s0]; [discriminate|].
    destruct (b =? 34)%N; [exact H|].
    destruct (b =? 91)%N.
    { destruct (skip_ws s0) as [|c r']; [discriminate|].
      destruct (c =? 93)%N; [exact H|]. now apply IHe. }
    destruct (b =? 123)%N; [|exact H].
    destruct (skip_ws s0) as [|c r']; [discriminate|].
    destruct (c =? 125)%N; [exact H|]. now apply IHm.
  - intros s acc v r H. rewrite elements_S in H. rewrite (elements_S (S f)).
    destruct (value f s) as [v0 r0| |] eqn:Ev; try discriminate.
    rewrite (IHv _ _ _ Ev).
    destruct (skip_ws r0) as [|c r']; [discriminate|].
    destruct (c =? 44)%N; [now apply IHe|exact H].
  - intros s acc v r H. rewrite members_S in H. rewrite (members_S (S f)).
    destruct s as [|b s0]; [discriminate|].
    destruct (b =? 34)%N; [|discriminate].
    destruct (string_body [] s0) as [k r1| |]; try discriminate.
    destruct (skip_ws r1) as [|c r2]; [discriminate|].
    destruct (c =? 58)%N; [|discriminate].
    destruct (value f (skip_ws r2)) as [v0 r3| |] eqn:Ev; try discriminate.
    rewrite (IHv _ _ _ Ev).
    destruct (skip_ws r3) as [|c' r4]; [discriminate|].
    destruct (c' =? 44)%N; [now apply IHm|exact H].
Qed.

Lemma value_fuel_le (f f' : nat) (s r : list N) (v : pyval) :
  value f s = Ok v r -> (f <= f')%nat -> value f' s = Ok v r.
Proof.
  intros H Hle. induction Hle as [|f' _ IH]; [exact H|].
  now apply parse_more_fuel.
Qed.

(** Only a text that opens with a brace parses to a dict. *)
Lemma elements_list (f : nat) :
  forall s acc v r, elements f s acc = Ok v r -> exists l, v = VList l.
Proof.
  induction f as [|f IH]; intros s acc v r H; [discriminate|].
  rewrite elements_S in H.
  destruct (value f s) as [v0 r0| |]; try discriminate.
  destruct (skip_ws r0) as [|c r']; [discriminate|].
  destruct (c =? 44)%N; [now apply IH in H|].
  destruct (c =? 93)%N; [|discriminate]. inversion H. eauto.
Qed.

Lemma number_int (neg : bool) (s r : list N) (v : pyval) :
  number neg s = Some (Ok v r) -> exists z, v = VInt z.
Proof.
  unfold number. destruct (int_part s) as [[z r0]|]; [|discriminate].
  destruct (float_follows r0); [discriminate|]. inversion 1. eauto.
Qed.

Lemma literal_not_dict (s r : list N) (d : list (string * pyval)) :
  literal s <> Some (VDict d, r).
Proof.
  unfold literal.
  repeat match goal with
         | |- context [strip ?w s] => destruct (strip w s)
         end; discriminate.
Qed.

Lemma scalar_not_dict (s r : list N) (d : list (string * pyval)) :
  scalar s <> Ok (VDict d) r.
Proof.
  unfold scalar. intros H.
  destruct (match s with
            | [] => None
            | c :: t => if (c =? 45)%N then number true t else number false s
            end) as [p|] eqn:E.
  - subst p. destruct s as [|c t]; [discriminate|].
    destruct (c =? 45)%N; apply number_int in E as [z Hz]; discriminate.
  - destruct (literal s) as [[v r0]|] eqn:El; [|discriminate].
    inversion H; subst. now apply literal_not_dict in El.
Qed.

Lemma value_dict_opens (f : nat) (s r : list N) (d : list (string * pyval)) :
  value f s = Ok (VDict d) r -> exists s0, s = 123%N :: s0.
Proof.
  destruct f; [discriminate|]. rewrite value_S.
  destruct s as [|b s0]; [discriminate|].
  destruct (b =? 34)%N.
  { destruct (string_body [] s0); discriminate. }
  destruct (b =? 91)%N.
  { destruct (skip_ws s0) as [|c r']; [discriminate|].
    destruct (c =? 93)%N; [discriminate|].
    intros H. apply elements_list in H as [l Hl]. discriminate. }
  destruct (N.eqb_spec b 123).
  - subst. eauto.
  - intros H. now apply scalar_not_dict in H.
Qed.

(** ASCII bytes always decode as text. *)
Lemma ascii_utf8_valid (s : list N) :
  ascii_only s = true -> utf8_valid s = true.
Proof.
  unfold utf8_valid. induction s as [|b s IH]; [reflexivity|].
  cbn [ascii_only forallb List.length utf8_valid_fuel].
  intros H. apply andb_prop in H as [Hb Hs]. rewrite Hb. now apply IH.
Qed.

Lemma ascii_only_app (s t : list N) :
  ascii_only (s ++ t) = true -> ascii_only s = true.
Proof.
  unfold ascii_only. rewrite forallb_app. intros H.
  now apply andb_prop in H as [H _].
Qed.

(** A prefix of an ASCII text that parses to a dict either does not
    parse or parses to the same dict. *)
Lemma prefix_of_object (p t : bytes) (d : list (string * pyval)) :
  ascii_only (to_N_list (p ++ t)) = true ->
  decode (p ++ t) = Some (Parsed (VDict d)) ->
  loads p = BadJSON \/ loads p = Parsed (VDict d).
Proof.
  unfold loads, decode, to_N_list. rewrite map_app.
  set (pN := map (fun x => Byte.to_N x) p).
  set (tN := map (fun x => Byte.to_N x) t).
  intros Ha. rewrite (ascii_utf8_valid _ Ha).
  rewrite (ascii_utf8_valid _ (ascii_only_app _ _ Ha)).
  set (fm := (2 * List.length (pN ++ tN) + 2)%nat).
  set (fp := (2 * List.length pN + 2)%nat).
  destruct (value fm (skip_ws (pN ++ tN))) as [vm rm| |] eqn:Em;
    try discriminate.
  destruct (skip_ws rm) eqn:Erm; try discriminate.
  intros H. inversion H; subst vm. clear H.
  destruct (value fp (skip_ws pN)) as [v r| |] eqn:Ep; auto.
  destruct (skip_ws r) eqn:Er; auto.
  right. do 2 f_equal.
  assert (Hne : skip_ws pN <> []).
  { intros E. rewrite E in Ep. now apply value_nil in Ep. }
  rewrite skip_ws_app in Em by exact Hne.
  destruct (value_dict_opens _ _ _ _ Em) as [s0 Hs0].
  assert (Ho : opens (skip_ws pN) = true).
  { destruct (skip_ws pN) as [|b q]; [congruence|].
    cbn [app] in Hs0. inversion Hs0; subst. reflexivity. }
  assert (E1 := value_fuel_le fp (Nat.max fp fm) _ _ _ Ep (Nat.le_max_l _ _)).
  assert (E2 := value_fuel_le fm (Nat.max fp fm) _ _ _ Em (Nat.le_max_r _ _)).
  apply (proj1 (parse_app _)) with (t := tN) in E1; [|now left].
  congruence.
Qed.

(** Hence a split of an ASCII object never produces another answer. *)
Lemma object_no_other_answer (d : list (string * pyval)) (last : bytes)
    (chunks : list bytes) :
  forall buf,
    ascii_only (to_N_list (buf ++ List.concat chunks ++ last)) = true ->
    decode (buf ++ List.concat chunks ++ last) = Some (Parsed (VDict d)) ->
    forallb nonempty chunks = true ->
    no_other_answer loads (VDict d) buf chunks.
Proof.
  induction chunks as [|c cs IH]; intros buf Ha Hd Hn; [exact I|].
  cbn [List.concat forallb no_other_answer] in *.
  apply andb_prop in Hn as [Hc Hcs].
  rewrite <- app_assoc in Ha, Hd. rewrite app_assoc in Ha, Hd.
  repeat split; auto.
  now apply (prefix_of_object (buf ++ c) (List.concat cs ++ last) d).
Qed.

End JsonFacts.

(** For the decoder of this file: an ASCII reply that is a JSON object
    gives the same dict in both clients however it is split into
    non-empty chunks. *)
Lemma object_split_delivery (chunks : list bytes) (last : bytes)
    (tail : list recv_event) (d : list (string * pyval)) :
  Json.ascii_only (Json.to_N_list (List.concat chunks ++ last)) = true ->
  Json.decode (List.concat chunks ++ last) = Some (Parsed (VDict d)) ->
  forallb nonempty chunks = true -> nonempty last = true ->
  Player.send_command Json.loads
    (mkConn None None (map Data (chunks ++ [last]) ++ tail))
  = Return (VDict d)
  /\ Harness.send_command Json.loads Json.str_exn
       (mkConn None None (map Data (chunks ++ [last]) ++ tail))
     = Return (VDict d).
Proof.
  intros Ha Hd Hn Hl.
  assert (Hno := object_no_other_answer d last chunks [] Ha Hd Hn).
  assert (Hv : Json.loads ([] ++ List.concat chunks ++ last) = Parsed (VDict d)).
  { unfold Json.loads. cbn [app]. now rewrite Hd. }
  unfold Player.send_command, Harness.send_command, Harness.send_command_body.
  cbn [connect sendall recvs opt_raise rbind].
  rewrite (player_whole_value Json.loads (VDict d) chunks [] last tail Hno Hl Hv).
  rewrite (harness_whole_value Json.loads (VDict d) chunks [] last tail Hno Hl Hv).
  split; reflexivity.
Qed.

(* ================================================================== *)
(** * The examples lie in the decoder's fragment *)
(* ================================================================== *)

(** On every connection used in the closed lemmas above, each buffer a
    client can accumulate is a text on which the decoder of this file
    follows [json.loads]. *)
Lemma examples_in_fragment :
  forallb Ex.in_fragment
    [ Ex.ok; Ex.at_bar_10; Ex.at_bar_17; Ex.at_bar_50; Ex.stopped_at_12;
      Ex.closed; Ex.silent; Ex.whole_123; Ex.split_123;
      Ex.whole_object; Ex.split_object; Ex.whole_accent; Ex.split_accent;
      Ex.reply "{}"; Ex.reply "[]";
      Ex.chunked [Json.text "{'status': "; []] ] = true.
Proof. vm_compute. reflexivity. Qed.

(* ================================================================== *)
(** * Further properties of the arrangement player *)
(* ================================================================== *)

Section PlayerSafety.

Variable loads : bytes -> parse_outcome.

Lemma fired_scenes_logged (s : pstate) (l : list event) :
  fired_scenes (log (logged s l)) = fired_scenes (log s) ++ fired_scenes l.
Proof. unfold logged. cbn [log]. apply fired_scenes_app. Qed.

(** What a pass adds to the scenes fired: nothing, with the pointer
    kept, or the scene of the pending cue, with the pointer moved on. *)
Lemma poll_fired (arrangement : list cue) (i : nat) (c : conn) (s : pstate) :
  let out := poll loads arrangement i c s in
  (fired_scenes (log (snd out)) = fired_scenes (log s)
   /\ forall j, fst out = Return (Some j) -> j = i)
  \/ (exists next,
        nth_error arrangement i = Some next
        /\ fired_scenes (log (snd out)) = fired_scenes (log s) ++ [scene next]
        /\ forall j, fst out = Return (Some j) -> j = S i).
Proof.
  cbv zeta. rewrite poll_eq. cbv zeta.
  assert (Hq : fired_scenes (log (logged s [poll_command]))
               = fired_scenes (log s)).
  { rewrite fired_scenes_logged. cbn. now rewrite app_nil_r. }
  destruct (position_of loads c) as [[b p]|e];
    [|left; split; [exact Hq|discriminate]].
  destruct (negb (truthy p)).
  { left. cbn [fst snd]. split; [|discriminate].
    rewrite logged_logged, fired_scenes_logged. cbn. now rewrite app_nil_r. }
  destruct (nth_error arrangement i) as [next|] eqn:En;
    [|left; split; [exact Hq|discriminate]].
  destruct (py_ge_int b (bar next)) as [[|]|e].
  - right. exists next. split; [reflexivity|].
    rewrite fire_scene_eq.
    assert (Hf : fired_scenes (log (logged s [poll_command])
                                ++ [fire_command (scene next)])
                 = fired_scenes (log s) ++ [scene next]).
    { rewrite fired_scenes_app, Hq. reflexivity. }
    destruct (result <- Player.send_command loads _ ;; py_get result "result" result);
      cbn [fst snd log]; (split; [exact Hf|intros j H; now inversion H]).
  - left. split; [exact Hq|]. intros j H. now inversion H.
  - left. split; [exact Hq|discriminate].
Qed.

Lemma skipn_nth (arrangement : list cue) (i : nat) (next : cue) :
  nth_error arrangement i = Some next ->
  skipn i arrangement = next :: skipn (S i) arrangement.
Proof.
  revert i. induction arrangement as [|x l IH]; intros [|i] H;
    try discriminate.
  - now inversion H.
  - simpl in H. apply IH in H. exact H.
Qed.

(** Whatever the remote side does, the loop fires the scenes of a
    run of consecutive pending cues, starting with the one pointed at. *)
Lemma loop_fired_prefix (arrangement : list cue) (feed : list conn) :
  forall i s,
    exists k,
      fired_scenes (log (snd (poll_loop loads arrangement feed i s)))
      = fired_scenes (log s) ++ map scene (firstn k (skipn i arrangement)).
Proof.
  assert (Hzero : forall i (s : pstate),
             fired_scenes (log s)
             = fired_scenes (log s)
               ++ map scene (firstn 0 (skipn i arrangement))).
  { intros. cbn. now rewrite app_nil_r. }
  assert (Hone : forall i next (s s1 : pstate),
             nth_error arrangement i = Some next ->
             fired_scenes (log s1) = fired_scenes (log s) ++ [scene next] ->
             fired_scenes (log s1)
             = fired_scenes (log s)
               ++ map scene (firstn 1 (skipn i arrangement))).
  { intros i next s s1 Hn H. now rewrite (skipn_nth _ _ _ Hn), H. }
  induction feed as [|c feed IH]; intros i s; cbn [poll_loop].
  - destruct (i <? List.length arrangement)%nat; [|exists 0%nat; apply Hzero].
    pose proof (poll_fired arrangement i Player.refused s) as H. cbv zeta in H.
    destruct (poll loads arrangement i Player.refused s) as [[o|e] s1];
      cbn [fst snd] in *;
      (destruct H as [[H _]|(next & Hn & H & _)];
       [ exists 0%nat; rewrite H; apply Hzero
       | exists 1%nat; now apply Hone with (next := next) ]).
  - destruct (i <? List.length arrangement)%nat; [|exists 0%nat; apply Hzero].
    pose proof (poll_fired arrangement i c s) as H. cbv zeta in H.
    destruct (poll loads arrangement i c s) as [[[j|]|e] s1];
      cbn [fst snd] in *.
    + destruct (IH j s1) as [k Hk].
      destruct H as [[H Hj]|(next & Hn & H & Hj)];
        pose proof (Hj j eq_refl) as Ej; subst j.
      * exists k. now rewrite Hk, H.
      * exists (S k).
        rewrite Hk, H, (skipn_nth _ _ _ Hn). cbn [firstn map].
        now rewrite <- app_assoc.
    + destruct H as [[H _]|(next & Hn & H & _)];
        [ exists 0%nat; rewrite H; apply Hzero
        | exists 1%nat; now apply Hone with (next := next) ].
    + destruct H as [[H _]|(next & Hn & H & _)];
        [ exists 0%nat; rewrite H; apply Hzero
        | exists 1%nat; now apply Hone with (next := next) ].
Qed.

(** [run_arrangement], step by step. *)
Lemma run_arrangement_eq (arrangement : list cue) (w : world) :
  run_arrangement loads arrangement w
  = let s1 := mkP (tl (start_conns w)) (fire_conns w) [start_command] in
    match Player.send_command loads (hd Player.refused (start_conns w)) with
    | Raise e => (Raise e, mkWorld (start_q s1) (fire_q s1) (position_conns w), log s1)
    | Return _ =>
        match sorted arrangement with
        | [] => (Raise IndexError,
                 mkWorld (start_q s1) (fire_q s1) (position_conns w), log s1)
        | first :: _ =>
            let s2 := mkP (tl (start_conns w)) (tl (fire_conns w))
                          [start_command; fire_command (scene first)] in
            match result <- Player.send_command loads
                              (hd Player.refused (fire_conns w)) ;;
                  py_get result "result" result with
            | Raise e =>
                (Raise e, mkWorld (start_q s2) (fire_q s2) (position_conns w), log s2)
            | Return _ =>
                match poll_loop loads (sorted arrangement) (position_conns w) 1 s2 with
                | (Raise e, feed, s3) =>
                    (Raise e, mkWorld (start_q s3) (fire_q s3) feed, log s3)
                | (Return _, feed, s3) =>
                    (Return tt, mkWorld (start_q s3) (fire_q s3) feed,
                     log s3 ++ [PrintComplete])
                end
            end
        end
    end.
Proof.
  unfold run_arrangement. rewrite start_playback_eq. cbn [start_q fire_q log app].
  destruct (Player.send_command loads (hd Player.refused (start_conns w)));
    [|reflexivity].
  cbv beta iota zeta.
  destruct (sorted arrangement) as [|first others]; [reflexivity|].
  rewrite fire_scene_eq. cbn [start_q fire_q log app].
  destruct (result <- Player.send_command loads _ ;; py_get result "result" result);
    [|reflexivity].
  cbv beta iota.
  destruct (poll_loop loads _ _ _ _) as [[[[]|e] feed] s3]; reflexivity.
Qed.

(** The loop only adds to the log. *)
Lemma loop_log (arrangement : list cue) (feed : list conn) :
  forall i s,
    exists l, log (snd (poll_loop loads arrangement feed i s)) = log s ++ l.
Proof.
  induction feed as [|c feed IH]; intros i s; cbn [poll_loop].
  - destruct (i <? _)%nat; [|exists []; cbn; now rewrite app_nil_r].
    pose proof (poll_log loads arrangement i Player.refused s) as [l Hl].
    destruct (poll loads arrangement i Player.refused s) as [[o|e] s1];
      exists l; exact Hl.
  - destruct (i <? _)%nat; [|exists []; cbn; now rewrite app_nil_r].
    pose proof (poll_log loads arrangement i c s) as [l Hl].
    destruct (poll loads arrangement i c s) as [[[j|]|e] s1];
      cbn [snd] in Hl; try (exists l; exact Hl).
    destruct (IH j s1) as [l' Hl']. exists (l ++ l').
    now rewrite Hl', Hl, app_assoc.
Qed.

(** The log of a run starts with the start command. *)
Lemma run_log (arrangement : list cue) (w : world) :
  exists l, snd (run_arrangement loads arrangement w) = start_command :: l.
Proof.
  rewrite run_arrangement_eq. cbv zeta.
  destruct (Player.send_command loads (hd Player.refused (start_conns w)));
    [|cbn; eauto].
  destruct (sorted arrangement) as [|first others]; [cbn; eauto|].
  destruct (result <- Player.send_command loads _ ;; py_get result "result" result);
    [|cbn; eauto].
  match goal with
  | |- context [poll_loop loads ?a ?f ?i ?s] =>
      destruct (loop_log a f i s) as [l Hl];
      destruct (poll_loop loads a f i s) as [[[[]|e] feed] s3]
  end; cbn [snd fst log] in *; rewrite Hl; cbn; eauto.
Qed.

(** The scenes fired by a run are the scenes of the first cues of the
    sorted arrangement. *)
Lemma run_fired_prefix (arrangement : list cue) (w : world) :
  exists k,
    fired_scenes (snd (run_arrangement loads arrangement w))
    = firstn k (map scene (sorted arrangement)).
Proof.
  rewrite run_arrangement_eq. cbv zeta.
  destruct (Player.send_command loads (hd Player.refused (start_conns w)));
    [|exists 0%nat; reflexivity].
  destruct (sorted arrangement) as [|first others];
    [exists 0%nat; reflexivity|].
  destruct (result <- Player.send_command loads _ ;; py_get result "result" result);
    [|exists 1%nat; reflexivity].
  match goal with
  | |- context [poll_loop loads ?a ?f ?i ?s] =>
      destruct (loop_fired_prefix a f i s) as [k Hk];
      destruct (poll_loop loads a f i s) as [[[[]|e] feed] s3]
  end; cbn [snd fst log] in *; exists (S k);
    rewrite ?fired_scenes_app, Hk; cbn; rewrite ?app_nil_r, ?firstn_map;
    reflexivity.
Qed.

End PlayerSafety.

(** X1.  Whatever the remote side does and however the run ends, the
    [fire_scene] calls of [run_arrangement] are the scenes of the
    first cues of the sorted arrangement, in that order: no scene is
    fired twice or out of turn; and the first command of every run is
    the start of playback. *)
Theorem X1_fires_a_prefix_of_the_cues (loads : bytes -> parse_outcome)
    (arrangement : list cue) (w : world) :
  (exists k,
     fired_scenes (snd (run_arrangement loads arrangement w))
     = firstn k (map scene (sorted arrangement)))
  /\ (exists l, snd (run_arrangement loads arrangement w) = start_command :: l).
Proof.
  split; [apply run_fired_prefix | apply run_log].
Qed.

(** * The order of the listing *)

Section ListingOrder.

Lemma strict_order_unique (l1 : list cue) :
  forall l2,
    StronglySorted bar_lt l1 -> StronglySorted bar_lt l2 ->
    Permutation l1 l2 -> l1 = l2.
Proof.
  induction l1 as [|a l1 IH]; intros l2 H1 H2 P.
  - apply Permutation_nil in P. now subst.
  - destruct l2 as [|b l2].
    { apply Permutation_sym, Permutation_nil in P. discriminate. }
    apply StronglySorted_inv in H1 as [H1 Ha].
    apply StronglySorted_inv in H2 as [H2 Hb].
    rewrite Forall_forall in Ha, Hb.
    assert (E : a = b).
    { assert (Ia : In a (b :: l2))
        by (apply (Permutation_in a P); now left).
      assert (Ib : In b (a :: l1))
        by (apply (Permutation_in b (Permutation_sym P)); now left).
      destruct Ia as [Ia|Ia]; [now symmetry|].
      destruct Ib as [Ib|Ib]; [exact Ib|].
      specialize (Ha b Ib). specialize (Hb a Ia).
      unfold bar_lt in *. lia. }
    subst b. f_equal. apply IH; auto.
    now apply Permutation_cons_inv in P.
Qed.

Lemma sorted_of_permutation (l1 l2 : list cue) :
  NoDup (map bar l1) -> Permutation l1 l2 -> sorted l1 = sorted l2.
Proof.
  intros Hn P. apply strict_order_unique.
  - now apply sorted_strict.
  - apply sorted_strict. eapply Permutation_NoDup; [|exact Hn].
    now apply Permutation_map.
  - rewrite (sorted_perm l1), (sorted_perm l2). exact P.
Qed.

Lemma sorted_of_ascending (l : list cue) :
  StronglySorted bar_le l -> sorted l = l.
Proof.
  induction 1 as [|x l Hs IH Hx]; [reflexivity|].
  cbn [sorted]. rewrite IH. destruct l as [|y l]; [reflexivity|].
  cbn [insert]. apply Forall_inv in Hx. unfold bar_le in Hx.
  apply Z.leb_le in Hx. now rewrite Hx.
Qed.

End ListingOrder.

(** X2.  With pairwise distinct bar numbers the order in which the
    cues are listed does not matter: two listings of the same cues
    give the same run. *)
Theorem X2_listing_order_is_irrelevant (loads : bytes -> parse_outcome)
    (arrangement arrangement' : list cue) (w : world) :
  NoDup (map bar arrangement) ->
  Permutation arrangement arrangement' ->
  run_arrangement loads arrangement w = run_arrangement loads arrangement' w.
Proof.
  intros Hn P. unfold run_arrangement.
  now rewrite (sorted_of_permutation arrangement arrangement' Hn P).
Qed.

Lemma X2_listing_order_is_irrelevant_witness :
  run_arrangement Json.loads Ex.intro_build
    (mkWorld [Ex.ok] [Ex.ok; Ex.ok] [Ex.at_bar_17])
  = run_arrangement Json.loads (rev Ex.intro_build)
      (mkWorld [Ex.ok] [Ex.ok; Ex.ok] [Ex.at_bar_17]).
Proof.
  apply (X2_listing_order_is_irrelevant Json.loads Ex.intro_build
           (rev Ex.intro_build)).
  - repeat constructor; simpl; intuition discriminate.
  - apply Permutation_rev.
Defined.

(** X3.  The sort leaves an arrangement as it is exactly when it is
    listed in ascending bar order (cues of one bar in any order), so
    such an arrangement is played as listed; and sorting twice is
    sorting once. *)
Theorem X3_ascending_listing_is_kept (arrangement : list cue) :
  (sorted arrangement = arrangement <-> StronglySorted bar_le arrangement)
  /\ sorted (sorted arrangement) = sorted arrangement.
Proof.
  split; [split|].
  - intros <-. apply sorted_ascending.
  - apply sorted_of_ascending.
  - apply sorted_of_ascending, sorted_ascending.
Qed.

Lemma X3_ascending_listing_is_kept_witness :
  sorted Script.DETROIT_TECHNO_ARRANGEMENT = Script.DETROIT_TECHNO_ARRANGEMENT.
Proof.
  apply (proj2 (proj1 (X3_ascending_listing_is_kept
                         Script.DETROIT_TECHNO_ARRANGEMENT))).
  repeat constructor; unfold bar_le; simpl; lia.
Defined.

(** * The two clients side by side *)

Section TwoClients.

Variable loads : bytes -> parse_outcome.
Variable str_exn : exn -> string.



End TwoClients.





Section PositionReplies.

Variable loads : bytes -> parse_outcome.

(** A pass depends on the connection only through the position it
    yields. *)
Lemma poll_of_position (arrangement : list cue) (i : nat) (c c' : conn)
    (s : pstate) :
  position_of loads c = position_of loads c' ->
  poll loads arrangement i c s = poll loads arrangement i c' s.
Proof. intros H. now rewrite !poll_eq, H. Qed.

End PositionReplies.

(** X6.  The position fields may come at the top level of the reply or
    inside of its ['result'] member: a pass of the loop on a flat reply
    [d] (without a ['result'] key) does what it does on a reply whose
    ['result'] member is [d]. *)
Theorem X6_flat_and_wrapped_positions (loads : bytes -> parse_outcome)
    (c c' : conn) (d d' : list (string * pyval))
    (arrangement : list cue) (i : nat) (s : pstate) :
  Player.send_command loads c = Return (VDict d) ->
  lookup "result" d = None ->
  Player.send_command loads c' = Return (VDict d') ->
  lookup "result" d' = Some (VDict d) ->
  poll loads arrangement i c s = poll loads arrangement i c' s.
Proof.
  intros Hc Hd Hc' Hd'. apply poll_of_position.
  unfold position_of. rewrite Hc, Hc'. cbn. now rewrite Hd, Hd'.
Qed.

Lemma X6_flat_and_wrapped_positions_witness :
  poll Json.loads Ex.intro_build 1
    (Ex.reply "{'current_bar': 17, 'is_playing': true}") (mkP [] [Ex.ok] [])
  = poll Json.loads Ex.intro_build 1 Ex.at_bar_17 (mkP [] [Ex.ok] []).
Proof.
  apply (X6_flat_and_wrapped_positions Json.loads
           (Ex.reply "{'current_bar': 17, 'is_playing': true}") Ex.at_bar_17
           [("current_bar", VInt 17); ("is_playing", VBool true)]
           [("status", VStr "success");
            ("result", VDict [("current_bar", VInt 17); ("is_playing", VBool true)])]);
    vm_compute; reflexivity.
Defined.

(** X7.  Missing position fields.  A reply without ['is_playing'] counts
    as playback stopped: the pass logs the query and the closing line
    and breaks.  A reply without ['current_bar'] counts as bar 0: while
    playback is reported running, a pending cue on a bar from 1 on is
    not fired and stays pending. *)
Theorem X7_missing_position_fields (loads : bytes -> parse_outcome)
    (c : conn) (result : pyval) (d : list (string * pyval))
    (arrangement : list cue) (i : nat) (s : pstate) :
  Player.send_command loads c = Return result ->
  py_get result "result" result = Return (VDict d) ->
  (lookup "is_playing" d = None ->
   poll loads arrangement i c s
   = (Return None, logged s [poll_command; PrintStopped]))
  /\ (forall p next,
        lookup "current_bar" d = None ->
        lookup "is_playing" d = Some p -> truthy p = true ->
        nth_error arrangement i = Some next -> 0 < bar next ->
        poll loads arrangement i c s = (Return (Some i), logged s [poll_command])).
Proof.
  intros Hc Hr. split.
  - intros Hp. apply poll_halted. unfold halted, position_of.
    rewrite Hc. cbn [rbind]. rewrite Hr. cbn. now rewrite Hp.
  - intros p next Hb Hp Ht Hn Hpos. rewrite poll_eq. cbv zeta.
    unfold position_of. rewrite Hc. cbn [rbind]. rewrite Hr. cbn.
    rewrite Hb, Hp, Ht, Hn. cbn.
    destruct (bar next); [discriminate Hpos | reflexivity | discriminate Hpos].
Qed.

Lemma X7_missing_position_fields_witness :
  poll Json.loads Ex.intro_build 1 (Ex.reply "{'result': {'current_bar': 17}}")
    (mkP [] [Ex.ok] [])
  = (Return None, logged (mkP [] [Ex.ok] []) [poll_command; PrintStopped]).
Proof.
  refine (proj1 (X7_missing_position_fields Json.loads
                   (Ex.reply "{'result': {'current_bar': 17}}")
                   (VDict [("result", VDict [("current_bar", VInt 17)])])
                   [("current_bar", VInt 17)] Ex.intro_build 1
                   (mkP [] [Ex.ok] []) _ _) _);
    vm_compute; reflexivity.
Defined.

(** * The script as a whole *)

Section ScriptFacts.

Variable loads : bytes -> parse_outcome.


End ScriptFacts.



(** X9.  The player does not inspect the ['status'] of a reply.  A
    command counts as done as soon as [send_command] returns: for
    [start_playback] whatever the reply is, for [fire_scene] whenever
    the reply is an object, an error response included; a reply that is
    no object makes [fire_scene] raise [AttributeError]. *)
Theorem X9_replies_are_not_inspected (loads : bytes -> parse_outcome)
    (c : conn) (v : pyval) (index : Z) (s : pstate) (q : list conn) :
  Player.send_command loads c = Return v ->
  (forall q', start_q s = c :: q' ->
     start_playback loads s
     = (Return v, mkP q' (fire_q s) (log s ++ [start_command])))
  /\ (fire_q s = c :: q ->
      (forall d, v = VDict d ->
         exists r, fire_scene loads index s
                   = (Return r, mkP (start_q s) q (log s ++ [fire_command index])))
      /\ ((forall d, v <> VDict d) ->
          fire_scene loads index s
          = (Raise AttributeError,
             mkP (start_q s) q (log s ++ [fire_command index])))).
Proof.
  intros Hc. split.
  - intros q' Hq. rewrite start_playback_eq, Hq. cbn [hd tl]. now rewrite Hc.
  - intros Hq. rewrite fire_scene_eq, Hq. cbn [hd tl]. rewrite Hc. cbn [rbind].
    split.
    + intros d ->. cbn. eauto.
    + intros Hd. destruct v as [|b|z|f|str|l|d]; try reflexivity.
      now destruct (Hd d).
Qed.

Lemma X9_replies_are_not_inspected_witness :
  exists r,
    fire_scene Json.loads 4 (mkP [] [Ex.reply "{'status': 'error', 'message': 'no scene'}"] [])
    = (Return r, mkP [] [] [fire_command 4]).
Proof.
  refine (proj1 (proj2 (X9_replies_are_not_inspected Json.loads
                          (Ex.reply "{'status': 'error', 'message': 'no scene'}")
                          (VDict [("status", VStr "error"); ("message", VStr "no scene")])
                          4 (mkP [] [Ex.reply "{'status': 'error', 'message': 'no scene'}"] [])
                          [] _) _) _ eq_refl);
    vm_compute; reflexivity.
Defined.

(* ================================================================== *)
(** * Further properties of the test harness *)
(* ================================================================== *)

Import Report.

Section GrowthFacts.

Variable loads : bytes -> parse_outcome.
Variable str_exn : exn -> string.

Lemma grows_refl (t : tester) : grows t t.
Proof.
  exists []. cbn. rewrite app_nil_r, !Nat.add_0_r. auto.
Qed.

Lemma grows_trans (t1 t2 t3 : tester) :
  grows t1 t2 -> grows t2 t3 -> grows t1 t3.
Proof.
  intros (r1 & R1 & P1 & F1) (r2 & R2 & P2 & F2). exists (r1 ++ r2).
  rewrite R2, R1, P2, P1, F2, F1, !filter_app, !length_app, app_assoc.
  repeat split; lia.
Qed.

Lemma grows_failed (nm : string) (err : error_info) (t : tester) :
  grows t (record_failed nm err t).
Proof.
  exists [mkResult nm failed (Some err)]. cbn. repeat split; lia.
Qed.

Lemma grows_passed (nm : string) (t : tester) :
  grows t (record_passed nm t).
Proof.
  exists [mkResult nm passed None]. cbn. repeat split; lia.
Qed.

(** What grew out of a tester in step with its list is in step with
    its list. *)
Lemma grows_consistent (t t' : tester) :
  grows t t' -> consistent t -> consistent t'.
Proof.
  intros (rs & R & P & F) [Cp Cf]. unfold consistent.
  rewrite R, P, F, Cp, Cf, !filter_app, !length_app. split; reflexivity.
Qed.

Lemma test_grows (E : Type) (nm : string)
    (check_func : option (pyval -> res bool))
    (cleanup_func : option (pyval -> E -> res E)) (s : hstate E) :
  grows (h_tester s)
        (h_tester (snd (test loads str_exn E nm check_func cleanup_func s))).
Proof.
  pose proof (test_cases loads str_exn E nm check_func cleanup_func s) as H.
  cbv zeta in H.
  destruct H as [(_ & err & ->)|[(_ & ->)|(_ & g & r & env & e & _ & _ & ->)]].
  - apply grows_failed.
  - apply grows_passed.
  - eapply grows_trans; [apply grows_passed|apply grows_failed].
Qed.

Lemma keeps_bind {A B} (m : Harness.T A) (f : A -> Harness.T B) :
  keeps m -> (forall a, keeps (f a)) -> keeps (tbind m f).
Proof.
  intros Hm Hf s. unfold tbind. specialize (Hm s).
  destruct (m s) as [[a|e] s1]; cbn [snd] in *; [|exact Hm].
  eapply grows_trans; [exact Hm|apply Hf].
Qed.

Lemma keeps_tret {A} (a : A) : keeps (tret a).
Proof. intros s. apply grows_refl. Qed.

Lemma keeps_tlift {A} (r : res A) : keeps (tlift r).
Proof. intros s. apply grows_refl. Qed.

Lemma keeps_get_local (f : locals -> option pyval) : keeps (get_local f).
Proof. intros s. apply grows_refl. Qed.

Lemma keeps_query : keeps (query loads str_exn).
Proof.
  intros s. unfold query.
  destruct (call_tester loads str_exn locals s) as [-> _]. apply grows_refl.
Qed.

Lemma keeps_run_test (nm : string) (check_func : option (pyval -> res bool))
    (cleanup_func : option (pyval -> locals -> res locals)) :
  keeps (run_test loads str_exn nm check_func cleanup_func).
Proof.
  intros s. unfold run_test.
  pose proof (test_grows locals nm check_func cleanup_func s) as H.
  now destruct (test loads str_exn locals nm check_func cleanup_func s).
Qed.

Lemma keeps_delete_tracks (current : Z) (n : nat) :
  forall i, keeps (delete_tracks loads str_exn current i n).
Proof.
  induction n as [|n IH]; intros i; cbn [delete_tracks].
  - apply keeps_tret.
  - apply keeps_bind; [apply keeps_run_test|intros _; apply IH].
Qed.

Ltac keep :=
  repeat first
    [ apply keeps_bind; [|intros ?]
    | apply keeps_run_test
    | apply keeps_query
    | apply keeps_tlift
    | apply keeps_get_local
    | apply keeps_tret
    | apply keeps_delete_tracks
    | match goal with
      | |- keeps (if ?c then _ else _) => destruct c
      end ].

Lemma keeps_device_tests (devices : pyval) :
  keeps (device_tests loads str_exn devices).
Proof. unfold device_tests. keep. Qed.

Lemma keeps_run_suite : keeps (run_suite loads str_exn).
Proof.
  unfold run_suite. keep; apply keeps_device_tests.
Qed.

Lemma keeps_run_all_tests : keeps (run_all_tests loads str_exn).
Proof.
  unfold run_all_tests. keep.
Qed.

(** The first entry of a run is the one of the connection check. *)
Lemma connection_first (w : list conn) :
  exists r rs,
    test_results (h_tester (snd (run_all_tests loads str_exn (new_run w))))
    = r :: rs
    /\ tr_name r = "Connection"
    /\ (tr_status r = passed
        <-> fst (test loads str_exn locals "Connection" None None (new_run w))
            = true).
Proof.
  rewrite run_all_tests_eq. cbv zeta.
  pose proof (test_cases loads str_exn locals "Connection" None None (new_run w))
    as H. cbv zeta in H.
  destruct (test loads str_exn locals "Connection" None None (new_run w))
    as [b s1]; cbn [fst snd] in *.
  destruct H as [(-> & err & Ht)|[(-> & Ht)|(_ & g & _ & _ & _ & Hg & _)]];
    [| |discriminate].
  - cbn [snd]. rewrite Ht. cbn.
    eexists _, []. repeat split; discriminate.
  - destruct (keeps_run_suite s1) as (rs & R & _).
    rewrite R, Ht. cbn.
    eexists _, rs. repeat split; reflexivity.
Qed.

(** On a new tester every run leaves the counters in step with the
    list, with the connection check as its first entry. *)
Lemma run_on_new_tester (w : list conn) :
  let t := h_tester (snd (run_all_tests loads str_exn (new_run w))) in
  consistent t
  /\ exists r rs,
       test_results t = r :: rs
       /\ tr_name r = "Connection"
       /\ (tr_status r = passed
           <-> fst (test loads str_exn locals "Connection" None None (new_run w))
               = true).
Proof.
  cbv zeta. split; [|apply connection_first].
  apply (grows_consistent (h_tester (new_run w)));
    [apply keeps_run_all_tests|apply consistent_init].
Qed.

End GrowthFacts.

(** X10.  Whatever the remote side does and however the run ends,
    returned or left by an exception, [run_all_tests] only appends to
    the result list and counts what it appends: on a new tester the
    counters are the numbers of passed and of failed entries, their sum
    is the length of the list, and the first entry is the one of the
    connection check. *)
Theorem X10_counters_agree_in_every_outcome (loads : bytes -> parse_outcome)
    (str_exn : exn -> string) :
  (forall s, grows (h_tester s) (h_tester (snd (run_all_tests loads str_exn s))))
  /\ (forall w,
        let t := h_tester (snd (run_all_tests loads str_exn (new_run w))) in
        consistent t
        /\ (tests_passed t + tests_failed t)%nat = List.length (test_results t)
        /\ exists r rs, test_results t = r :: rs /\ tr_name r = "Connection").
Proof.
  split; [apply keeps_run_all_tests|].
  intros w t.
  assert (C : consistent t).
  { apply (grows_consistent (h_tester (new_run w)));
      [apply keeps_run_all_tests|apply consistent_init]. }
  split; [exact C|]. split; [now apply counters_sum|].
  destruct (connection_first loads str_exn w) as (r & rs & R & N & _).
  now exists r, rs.
Qed.

Section TestOutcomes.

Variable loads : bytes -> parse_outcome.
Variable str_exn : exn -> string.
Variable E : Type.

(** A test on an error response. *)
Lemma test_on_error_response (nm : string)
    (check_func : option (pyval -> res bool))
    (cleanup_func : option (pyval -> E -> res E))
    (s s1 : hstate E) (d : list (string * pyval)) :
  call loads str_exn E s = (Return (VDict d), s1) ->
  lookup "status" d = Some (VStr "error") ->
  test loads str_exn E nm check_func cleanup_func s
  = (false,
     mkH (record_failed nm
            (ErrMessage (match lookup "message" d with
                         | Some m => m
                         | None => VNone
                         end))
            (h_tester s1))
         (h_world s1) (h_env s1)).
Proof.
  intros Hc Hs. unfold test, test_try. rewrite Hc. cbn [rbind py_get].
  rewrite Hs. cbn. reflexivity.
Qed.

(** Every test uses one connection, whatever its outcome. *)
Lemma test_world (nm : string)
    (check_func : option (pyval -> res bool))
    (cleanup_func : option (pyval -> E -> res E)) (s : hstate E) :
  h_world (snd (test loads str_exn E nm check_func cleanup_func s))
  = tl (h_world s).
Proof.
  unfold test, test_try.
  assert (Hw : h_world (snd (call loads str_exn E s)) = tl (h_world s)).
  { unfold call. destruct (h_world s) eqn:Hq; cbn; [exact Hq|reflexivity]. }
  destruct (call loads str_exn E s) as [sent s1]. cbn [snd] in Hw.
  destruct sent as [result|e]; cbn [rbind]; [|exact Hw].
  destruct (py_get result "status" VNone) as [st|e]; cbn [rbind]; [|exact Hw].
  destruct (py_eq_str st "error").
  { destruct (py_get result "message" VNone); exact Hw. }
  destruct (match check_func with Some f => f result | None => Return true end)
    as [[|]|e]; try exact Hw.
  destruct cleanup_func as [g|]; [|exact Hw].
  destruct (g result (h_env s1)); exact Hw.
Qed.

End TestOutcomes.



(** X12.  A test passes exactly when [send_command] returned an object
    whose ['status'] is not ['error'], the check function (if any)
    returned true, and the cleanup function (if any) did not raise.  A
    test that passes has recorded one pass and nothing else. *)
Theorem X12_when_a_test_passes (loads : bytes -> parse_outcome)
    (str_exn : exn -> string) (E : Type) (nm : string)
    (check_func : option (pyval -> res bool))
    (cleanup_func : option (pyval -> E -> res E)) (s : hstate E) :
  let out := test loads str_exn E nm check_func cleanup_func s in
  (fst out = true
   <-> exists d,
         fst (call loads str_exn E s) = Return (VDict d)
         /\ lookup "status" d <> Some (VStr "error")
         /\ match check_func with
            | Some f => f (VDict d) = Return true
            | None => True
            end
         /\ match cleanup_func with
            | Some g => exists env', g (VDict d) (h_env s) = Return env'
            | None => True
            end)
  /\ (fst out = true ->
      h_tester (snd out) = record_passed nm (h_tester s)).
Proof.
  cbv zeta. split.
  2:{ intros Hb.
      pose proof (test_cases loads str_exn E nm check_func cleanup_func s) as H.
      cbv zeta in H.
      destruct H as [(Hf & _)|[(_ & Ht)|(Hf & _)]]; congruence. }
  unfold test, test_try.
  destruct (call_tester loads str_exn E s) as [_ He].
  destruct (call loads str_exn E s) as [sent s1]. cbn [fst snd] in *.
  rewrite <- He.
  assert (Hstr : forall st d, lookup "status" d = st ->
             py_eq_str (match st with Some x => x | None => VNone end) "error"
             = true <-> st = Some (VStr "error")).
  { intros st d _. destruct st as [[]|]; cbn; split; try discriminate.
    - intros H. apply String.eqb_eq in H. now subst.
    - intros H. inversion H. reflexivity. }
  destruct sent as [result|e]; cbn [rbind].
  2:{ split; [discriminate|]. intros (d & Hd & _). discriminate. }
  destruct result as [|b|z|f|str|l|d];
    try (cbn; split; [discriminate|intros (d & Hd & _); discriminate]).
  cbn [py_get rbind].
  specialize (Hstr (lookup "status" d) d eq_refl).
  destruct (py_eq_str _ "error") eqn:Est.
  { cbn. split; [discriminate|].
    intros (d' & Hd & Hs & _). inversion Hd; subst d'.
    exfalso. apply Hs. now apply Hstr. }
  assert (Hne : lookup "status" d <> Some (VStr "error")).
  { intros H. apply Hstr in H. discriminate. }
  destruct check_func as [f|].
  - destruct (f (VDict d)) as [[|]|e] eqn:Ef.
    + destruct cleanup_func as [g|].
      * destruct (g (VDict d) (h_env s1)) as [env'|e] eqn:Eg; cbn.
        -- split; [|reflexivity]. intros _. exists d. eauto 6.
        -- split; [discriminate|].
           intros (d' & Hd & _ & _ & env' & Hg). inversion Hd; subst d'.
           congruence.
      * cbn. split; [|reflexivity]. intros _. exists d. auto.
    + cbn. split; [discriminate|].
      intros (d' & Hd & _ & Hf & _). inversion Hd; subst d'. congruence.
    + cbn. split; [discriminate|].
      intros (d' & Hd & _ & Hf & _). inversion Hd; subst d'. congruence.
  - destruct cleanup_func as [g|].
    + destruct (g (VDict d) (h_env s1)) as [env'|e] eqn:Eg; cbn.
      * split; [|reflexivity]. intros _. exists d. eauto 6.
      * split; [discriminate|].
        intros (d' & Hd & _ & _ & env' & Hg). inversion Hd; subst d'.
        congruence.
    + cbn. split; [|reflexivity]. intros _. exists d. auto.
Qed.

Lemma X12_when_a_test_passes_witness :
  fst (test Json.loads Json.str_exn unit "t" None None
         (mkH init [Ex.reply "{}"] tt)) = true.
Proof.
  apply (proj2 (proj1 (X12_when_a_test_passes Json.loads Json.str_exn unit "t"
                         None None (mkH init [Ex.reply "{}"] tt)))).
  exists []. vm_compute. repeat split. discriminate.
Defined.

Section CleanupFacts.

Variable loads : bytes -> parse_outcome.
Variable str_exn : exn -> string.

Lemma delete_names_eq (current : Z) (n : nat) :
  forall i,
    delete_names current i n
    = map (fun k => delete_name (current - 1 - (i + Z.of_nat k))) (seq 0 n).
Proof.
  induction n as [|n IH]; intros i; [reflexivity|].
  cbn [delete_names seq map]. f_equal.
  - unfold delete_name. do 2 f_equal. lia.
  - rewrite IH, <- seq_shift, map_map. apply map_ext.
    intros k. f_equal. lia.
Qed.

Lemma skipn_S_tl {A} (n : nat) (l : list A) : skipn (S n) l = skipn n (tl l).
Proof. destruct l; [now destruct n|reflexivity]. Qed.

(** The cleanup loop uses one connection per pass. *)
Lemma delete_tracks_world (current : Z) (n : nat) :
  forall i s,
    h_world (snd (delete_tracks loads str_exn current i n s))
    = skipn n (h_world s).
Proof.
  induction n as [|n IH]; intros i s; [reflexivity|].
  cbn [delete_tracks]. unfold tbind, run_test at 1.
  pose proof (test_world loads str_exn locals
                ("Delete test track " ++ decimal (current - 1 - i))%string
                None None s) as Hw.
  destruct (test loads str_exn locals _ None None s) as [b s1].
  cbn [snd] in Hw. rewrite IH, Hw. symmetry. apply skipn_S_tl.
Qed.

Lemma indices_down_in (current initial k : Z) :
  In k (indices_down current initial) <-> initial <= k < current.
Proof.
  unfold indices_down. rewrite in_map_iff. split.
  - intros (j & <- & Hj). apply in_seq in Hj. lia.
  - intros H. exists (Z.to_nat (current - 1 - k)). split; [lia|].
    apply in_seq. lia.
Qed.

Lemma descending_from (current : Z) (n : nat) :
  forall a,
    StronglySorted (fun x y => y < x)
      (map (fun k => current - 1 - Z.of_nat k) (seq a n)).
Proof.
  induction n as [|n IH]; intros a; cbn [seq map]; constructor.
  - apply IH.
  - apply Forall_forall. intros y Hy.
    apply in_map_iff in Hy as (j & <- & Hj). apply in_seq in Hj. lia.
Qed.

End CleanupFacts.

(** X13.  The cleanup loop, for track counts [current] now and
    [initial] at the start, runs one deletion test for each track index
    from [current - 1] down to [initial], the highest first and none
    twice; it runs none when [current <= initial].  The loop always
    returns, whatever the outcome of the deletions, and uses one
    connection per deletion. *)
Theorem X13_cleanup_deletes_from_the_top (loads : bytes -> parse_outcome)
    (str_exn : exn -> string) (current initial : Z) (s : hstate locals) :
  let out := delete_tracks loads str_exn current 0
               (Z.to_nat (current - initial)) s in
  fst out = Return tt
  /\ names (h_tester (snd out))
     = names (h_tester s) ++ map delete_name (indices_down current initial)
  /\ h_world (snd out) = skipn (Z.to_nat (current - initial)) (h_world s)
  /\ (forall k, In k (indices_down current initial) <-> initial <= k < current)
  /\ StronglySorted (fun x y => y < x) (indices_down current initial).
Proof.
  cbv zeta.
  pose proof (delete_tracks_world loads str_exn current
                (Z.to_nat (current - initial)) 0 s) as Hw.
  destruct (delete_tracks loads str_exn current 0
              (Z.to_nat (current - initial)) s) as [r s'] eqn:Ed.
  apply delete_tracks_inv in Ed as [-> [Hn _]]. cbn [fst snd] in *.
  split; [reflexivity|]. split; [|split; [exact Hw|split]].
  - rewrite Hn, delete_names_eq. unfold indices_down. rewrite map_map.
    reflexivity.
  - intros k. apply indices_down_in.
  - apply descending_from.
Qed.

Section SummaryFacts.

Variable loads : bytes -> parse_outcome.
Variable str_exn : exn -> string.

(** The run with its output is the run. *)
Lemma run_and_report_eq (s : hstate locals) :
  snd (run_and_report loads str_exn s) = snd (run_all_tests loads str_exn s)
  /\ match fst (run_and_report loads str_exn s) with
     | Return None =>
         fst (test loads str_exn locals "Connection" None None s) = false
         /\ fst (run_all_tests loads str_exn s) = Return tt
     | Return (Some lines) =>
         fst (test loads str_exn locals "Connection" None None s) = true
         /\ fst (run_all_tests loads str_exn s) = Return tt
         /\ lines = print_summary (h_tester (snd (run_all_tests loads str_exn s)))
     | Raise e =>
         fst (test loads str_exn locals "Connection" None None s) = true
         /\ fst (run_all_tests loads str_exn s) = Raise e
     end.
Proof.
  unfold run_and_report. rewrite run_all_tests_eq. cbv zeta.
  destruct (test loads str_exn locals "Connection" None None s) as [[|] s1];
    cbn [fst snd]; [|auto].
  destruct (run_suite loads str_exn s1) as [[[]|e] s2]; cbn [fst snd]; auto.
Qed.

Lemma filter_failed_lines (l : list test_result) :
  filter is_failed_line (map (fun r => FailedTest (tr_name r) (tr_error r)) l)
  = map (fun r => FailedTest (tr_name r) (tr_error r)) l.
Proof. induction l as [|r l IH]; [reflexivity|]. cbn. now rewrite IH. Qed.

(** The summary of a tester whose counters are in step with its list. *)
Lemma summary_of_consistent (t : tester) :
  consistent t ->
  In (Total (List.length (test_results t))) (print_summary t)
  /\ (In AllPassed (print_summary t)
      <-> Forall (fun r => tr_status r = passed) (test_results t))
  /\ filter is_failed_line (print_summary t)
     = map (fun r => FailedTest (tr_name r) (tr_error r))
           (filter is_failed (test_results t)).
Proof.
  intros C. pose proof (counters_sum t C) as Hsum.
  pose proof (no_failure t C) as Hnf. destruct C as [_ Cf].
  unfold print_summary. split; [|split].
  - cbn [app In]. right; right; left. now rewrite Hsum.
  - rewrite <- Hnf. destruct (Nat.eqb_spec (tests_failed t) 0) as [Hz|Hz].
    + split; [auto|]. intros _. cbn. auto.
    + split; [|contradiction]. intros H. exfalso.
      cbn [app In] in H. destruct H as [H|[H|[H|[H|H]]]]; try discriminate.
      apply in_app_or in H as [H|H].
      * apply in_map_iff in H as (r & Hr & _). discriminate.
      * destruct (0 <? _)%nat; destruct H as [H|[]]; discriminate.
  - rewrite !filter_app.
    assert (Hlast : forall b : bool,
               filter is_failed_line
                 [if b then Coverage (tests_passed t)
                              (tests_passed t + tests_failed t)
                  else CoverageZero] = []).
    { now intros []. }
    rewrite Hlast, app_nil_r.
    destruct (Nat.eqb_spec (tests_failed t) 0) as [Hz|Hz].
    + cbn. rewrite Hz in Cf. symmetry in Cf. apply length_zero_iff_nil in Cf.
      now rewrite Cf.
    + cbn [filter is_failed_line app]. apply filter_failed_lines.
Qed.

(** With a pass counted, the coverage is a quotient. *)
Lemma summary_coverage (t : tester) :
  (0 < tests_passed t)%nat ->
  In (Coverage (tests_passed t) (tests_passed t + tests_failed t))
     (print_summary t)
  /\ ~ In CoverageZero (print_summary t).
Proof.
  intros Hp. unfold print_summary.
  assert (Hlt : (0 <? tests_passed t + tests_failed t)%nat = true)
    by (apply Nat.ltb_lt; lia).
  rewrite Hlt. split.
  - apply in_or_app. right. apply in_or_app. right. now left.
  - intros H. cbn [app In] in H.
    destruct H as [H|[H|[H|H]]]; try discriminate.
    apply in_app_or in H as [H|[H|[]]]; [|discriminate].
    destruct (tests_failed t =? 0)%nat.
    + destruct H as [H|[]]. discriminate.
    + destruct H as [H|H]; [discriminate|].
      apply in_map_iff in H as (r & Hr & _). discriminate.
Qed.

End SummaryFacts.

(** X14.  The summary is printed exactly when the connection check
    passed and no exception left the run.  What it prints then agrees
    with the result list: the total is the number of entries, the
    all-passed line stands for a list of passes only, the failed tests
    listed are the failed entries in their order, and the coverage is
    the quotient of at least one pass by the number of entries: the
    guard against a division by zero is never taken. *)
Theorem X14_summary_agrees_with_the_results (loads : bytes -> parse_outcome)
    (str_exn : exn -> string) (w : list conn) :
  let out := run_and_report loads str_exn (new_run w) in
  let run := run_all_tests loads str_exn (new_run w) in
  let t := h_tester (snd run) in
  snd out = snd run
  /\ ((exists lines, fst out = Return (Some lines))
      <-> fst (test loads str_exn locals "Connection" None None (new_run w)) = true
          /\ fst run = Return tt)
  /\ (forall lines,
        fst out = Return (Some lines) ->
        lines = print_summary t
        /\ In (Total (List.length (test_results t))) lines
        /\ (In AllPassed lines
            <-> Forall (fun r => tr_status r = passed) (test_results t))
        /\ filter is_failed_line lines
           = map (fun r => FailedTest (tr_name r) (tr_error r))
                 (filter is_failed (test_results t))
        /\ (exists p, (0 < p <= List.length (test_results t))%nat
                      /\ In (Coverage p (List.length (test_results t))) lines)
        /\ ~ In CoverageZero lines).
Proof.
  cbv zeta.
  destruct (run_and_report_eq loads str_exn (new_run w)) as [Hs Hf].
  destruct (run_on_new_tester loads str_exn w) as [C Hfirst].
  split; [exact Hs|]. split.
  - destruct (fst (run_and_report loads str_exn (new_run w))) as [[lines|]|e].
    + destruct Hf as (H1 & H2 & _). split; eauto.
    + destruct Hf as (H1 & H2). split; [intros (l & Hl); discriminate|].
      intros [H _]. congruence.
    + destruct Hf as (H1 & H2). split; [intros (l & Hl); discriminate|].
      intros [_ H]. congruence.
  - intros lines Hl. rewrite Hl in Hf. destruct Hf as (Hc & _ & ->).
    destruct (summary_of_consistent _ C) as (Ht & Ha & Hfl).
    split; [reflexivity|]. split; [exact Ht|]. split; [exact Ha|].
    split; [exact Hfl|].
    assert (Hp : (0 < tests_passed
                     (h_tester (snd (run_all_tests loads str_exn (new_run w)))))%nat).
    { destruct Hfirst as (r & rs & R & _ & Hr). apply Hr in Hc.
      destruct C as [-> _]. rewrite R. cbn. unfold is_passed at 1.
      rewrite Hc. cbn. lia. }
    destruct (summary_coverage _ Hp) as [Hcov Hz].
    split; [|exact Hz].
    exists (tests_passed (h_tester (snd (run_all_tests loads str_exn (new_run w))))).
    pose proof (counters_sum _ C) as Hsum. rewrite <- Hsum. split; [lia|exact Hcov].
Qed.

Lemma X14_summary_agrees_with_the_results_witness :
  ~ In CoverageZero
      (print_summary
         (h_tester (snd (run_all_tests Json.loads Json.str_exn
                           (new_run gone_after_check))))).
Proof.
  refine (proj2 (proj2 (proj2 (proj2 (proj2
            (proj2 (proj2 (X14_summary_agrees_with_the_results Json.loads
                             Json.str_exn gone_after_check)) _ _)))))).
  vm_compute. reflexivity.
Defined.

Section GlueFacts.

Variable loads : bytes -> parse_outcome.
Variable str_exn : exn -> string.

Let shape (e : exn) : Prop := shape_error e = true.

Lemma raises_bind {A B} (m : Harness.T A) (f : A -> Harness.T B) :
  raises_only shape m -> (forall a, raises_only shape (f a)) ->
  raises_only shape (tbind m f).
Proof.
  intros Hm Hf s e s' H. unfold tbind in H.
  destruct (m s) as [[a|e0] s1] eqn:Em.
  - exact (Hf a s1 e s' H).
  - inversion H; subst. exact (Hm s e s' Em).
Qed.

Lemma raises_tret {A} (a : A) : raises_only shape (tret a).
Proof. intros s e s' H. discriminate. Qed.

Lemma raises_get_local (f : locals -> option pyval) :
  raises_only shape (get_local f).
Proof. intros s e s' H. discriminate. Qed.

Lemma raises_run_test (nm : string) (check_func : option (pyval -> res bool))
    (cleanup_func : option (pyval -> locals -> res locals)) :
  raises_only shape (run_test loads str_exn nm check_func cleanup_func).
Proof.
  intros s e s' H. unfold run_test in H.
  destruct (test loads str_exn locals nm check_func cleanup_func s). discriminate.
Qed.

Lemma raises_query : raises_only shape (query loads str_exn).
Proof.
  intros s e s' H. unfold query, call, send_command in H.
  destruct (h_world s) as [|c w];
    [destruct (send_command_body loads Harness.refused)
    |destruct (send_command_body loads c)]; discriminate.
Qed.

Lemma raises_delete_tracks (current i : Z) (n : nat) :
  raises_only shape (delete_tracks loads str_exn current i n).
Proof.
  intros s e s' H. apply delete_tracks_inv in H as [H _]. discriminate.
Qed.

Lemma raises_tlift {A} (r : res A) :
  match r with Raise e => shape e | Return _ => True end ->
  raises_only shape (tlift r).
Proof.
  intros Hr s e s' H. unfold tlift in H. inversion H; subst. exact Hr.
Qed.

(** The operations on replies raise shape errors only. *)
Ltac innermost x :=
  lazymatch x with
  | context [match ?y with _ => _ end] => innermost y
  | _ => destruct x
  end.

Ltac pure :=
  cbv beta iota delta [shape result_field stored_index tracks_to_delete
    py_index_nat py_index_str py_len py_get py_add_float_check
    py_add_int_check py_gt_int num_compare_Z as_int is_number rbind];
  repeat (match goal with
          | |- context [match ?x with _ => _ end] => innermost x
          end; cbv beta iota);
  first [exact I | reflexivity].

Ltac glue :=
  repeat first
    [ apply raises_bind; [|intros ?]
    | apply raises_run_test
    | apply raises_query
    | apply raises_get_local
    | apply raises_tret
    | apply raises_delete_tracks
    | apply raises_tlift; pure
    | match goal with
      | |- raises_only _ (if ?c then _ else _) => destruct c
      end ].

Lemma raises_device_tests (devices : pyval) :
  raises_only shape (device_tests loads str_exn devices).
Proof. unfold device_tests. glue. Qed.

Lemma raises_run_suite : raises_only shape (run_suite loads str_exn).
Proof. unfold run_suite. glue; apply raises_device_tests. Qed.

Lemma raises_run_all_tests : raises_only shape (run_all_tests loads str_exn).
Proof. unfold run_all_tests. glue; apply raises_run_suite. Qed.

End GlueFacts.

(** X15.  An exception that leaves [run_all_tests] comes from the code
    between the tests meeting a reply of an unexpected shape
    ([AttributeError], [TypeError], [KeyError], [IndexError] or
    [OverflowError]); it is never a transport or a decode error: those
    stay inside of [send_command]. *)
Theorem X15_only_shape_errors_leave_the_run (loads : bytes -> parse_outcome)
    (str_exn : exn -> string) (s s' : hstate locals) (e : exn) :
  run_all_tests loads str_exn s = (Raise e, s') ->
  shape_error e = true
  /\ is_transport_error e = false
  /\ is_decode_error e = false.
Proof.
  intros H. apply raises_run_all_tests in H.
  destruct e; try discriminate; repeat split.
Qed.

Lemma X15_only_shape_errors_leave_the_run_witness :
  shape_error AttributeError = true
  /\ is_transport_error AttributeError = false
  /\ is_decode_error AttributeError = false.
Proof.
  apply (X15_only_shape_errors_leave_the_run Json.loads Json.str_exn
           (new_run Ex.array_after_check)
           (mkH (record_passed "Connection" init) []
                (mkLocals None None None None))).
  vm_compute. reflexivity.
Defined.

Section DeadRemote.

Variable loads : bytes -> parse_outcome.
Variable str_exn : exn -> string.

Lemma all_failed_refl (t : tester) : all_failed t t [].
Proof.
  exists []. rewrite app_nil_r, Nat.add_0_r. repeat split; constructor.
Qed.

Lemma all_failed_trans (t1 t2 t3 : tester) (l1 l2 : list string) :
  all_failed t1 t2 l1 -> all_failed t2 t3 l2 -> all_failed t1 t3 (l1 ++ l2).
Proof.
  intros (r1 & R1 & N1 & A1 & P1 & F1) (r2 & R2 & N2 & A2 & P2 & F2).
  exists (r1 ++ r2).
  rewrite R2, R1, app_assoc, map_app, N1, N2, P2, P1, F2, F1, length_app.
  repeat split; [now apply Forall_app|lia].
Qed.

Lemma dead_bind {A B} (m : Harness.T A) (f : A -> Harness.T B)
    (l1 l2 : list string) (P : A -> Prop) (Q : B -> Prop) :
  dead_run loads m l1 P ->
  (forall a, P a -> dead_run loads (f a) l2 Q) ->
  dead_run loads (tbind m f) (l1 ++ l2) Q.
Proof.
  intros Hm Hf s Hs.
  destruct (Hm s Hs) as (a & s1 & Em & Pa & Hs1 & F1).
  destruct (Hf a Pa s1 Hs1) as (b & s2 & Ef & Qb & Hs2 & F2).
  exists b, s2. unfold tbind. rewrite Em.
  split; [exact Ef|]. split; [exact Qb|]. split; [exact Hs2|].
  now apply (all_failed_trans _ (h_tester s1)).
Qed.

Lemma dead_tret {A} (a : A) : dead_run loads (tret a) [] (fun x => x = a).
Proof.
  intros s Hs. exists a, s.
  split; [reflexivity|]. split; [reflexivity|]. split; [exact Hs|].
  apply all_failed_refl.
Qed.

Lemma dead_tlift {A} (r : res A) (a : A) :
  r = Return a -> dead_run loads (tlift r) [] (fun x => x = a).
Proof. intros ->. apply (dead_tret a). Qed.

Lemma dead_get_local (f : locals -> option pyval) :
  dead_run loads (get_local f) []
    (fun x => x = f (mkLocals None None None None)).
Proof.
  intros s Hs. exists (f (h_env s)), s.
  split; [reflexivity|]. split; [now rewrite (proj2 Hs)|]. split; [exact Hs|].
  apply all_failed_refl.
Qed.

(** A call in a dead state returns an error response, and leaves a
    dead state. *)
Lemma dead_call (s : hstate locals) :
  dead loads s ->
  exists e s',
    call loads str_exn locals s = (Return (error_response str_exn e), s')
    /\ dead loads s' /\ h_tester s' = h_tester s.
Proof.
  intros [Hw He]. unfold call, send_command.
  destruct (h_world s) as [|c w] eqn:Eq.
  - exists (OSError Refused), s.
    split; [reflexivity|]. split; [|reflexivity]. split; [|exact He].
    rewrite Eq. constructor.
  - apply Forall_inv_tail in Hw as Ht. apply Forall_inv in Hw as [e Hc].
    rewrite Hc. exists e, (mkH (h_tester s) w (h_env s)).
    split; [reflexivity|]. split; [|reflexivity]. split; assumption.
Qed.

Lemma dead_query :
  dead_run loads (query loads str_exn) []
    (fun v => exists e, v = error_response str_exn e).
Proof.
  intros s Hs. destruct (dead_call s Hs) as (e & s' & Ec & Hs' & Ht).
  exists (error_response str_exn e), s'. unfold query.
  split; [exact Ec|]. split; [now exists e|]. split; [exact Hs'|].
  rewrite Ht. apply all_failed_refl.
Qed.

Lemma dead_run_test (nm : string) (check_func : option (pyval -> res bool))
    (cleanup_func : option (pyval -> locals -> res locals)) :
  dead_run loads (run_test loads str_exn nm check_func cleanup_func) [nm]
    (fun b => b = false).
Proof.
  intros s Hs. destruct (dead_call s Hs) as (e & s' & Ec & Hs' & Ht).
  unfold run_test.
  rewrite (test_on_error_response loads str_exn locals nm check_func
             cleanup_func s s' _ Ec eq_refl).
  eexists _, _. split; [reflexivity|]. split; [reflexivity|]. split.
  - exact Hs'.
  - cbn [h_tester]. rewrite Ht. eexists [_].
    cbn. repeat split; [repeat constructor|lia].
Qed.

Ltac dead_step :=
  eapply dead_bind;
  [ first [ apply dead_run_test
          | apply dead_query
          | apply dead_get_local
          | apply dead_tlift; reflexivity
          | apply dead_tret ]
  | let a := fresh "a" in
    let Ha := fresh "Ha" in
    intros a Ha; cbv beta in Ha;
    lazymatch type of Ha with
    | exists _, _ => destruct Ha as [? ->]
    | _ => subst a
    end ].

(** With the remote side gone, the suite runs to its end and every
    test of it fails. *)
Lemma dead_run_suite :
  dead_run loads (run_suite loads str_exn)
    (before_devices ++ before_send ++ before_cleanup) (fun _ => True).
Proof.
  assert (H : exists l,
             dead_run loads (run_suite loads str_exn) l (fun x => x = tt)
             /\ l = before_devices ++ before_send ++ before_cleanup).
  { eexists. split.
    - unfold run_suite. repeat dead_step. apply dead_tret.
    - reflexivity. }
  destruct H as (l & H & ->). intros s Hs.
  destruct (H s Hs) as (a & s' & E & _ & R). now exists a, s'.
Qed.

(** Without a cleanup function a test leaves the variables alone. *)
Lemma test_env (E : Type) (nm : string)
    (check_func : option (pyval -> res bool)) (s : hstate E) :
  h_env (snd (test loads str_exn E nm check_func None s)) = h_env s.
Proof.
  unfold test, test_try.
  destruct (call_tester loads str_exn E s) as [_ He].
  destruct (call loads str_exn E s) as [sent s1]. cbn [snd] in He.
  destruct sent as [result|e]; cbn [rbind]; [|exact He].
  destruct (py_get result "status" VNone) as [st|e]; cbn [rbind]; [|exact He].
  destruct (py_eq_str st "error").
  { destruct (py_get result "message" VNone); exact He. }
  destruct (match check_func with Some f => f result | None => Return true end)
    as [[|]|e]; exact He.
Qed.

End DeadRemote.

(** X16.  When the remote side answers the connection check and no
    command after it (it is gone, hangs up or stays silent), the run
    still comes to its end: no exception leaves it, every test of the
    fixed part of the suite is run and recorded as failed, no device,
    send or deletion test is run, and the exit code is 1. *)
Theorem X16_remote_gone_after_the_check (loads : bytes -> parse_outcome)
    (str_exn : exn -> string) (c0 : conn) (rest : list conn) :
  fst (test loads str_exn locals "Connection" None None (new_run (c0 :: rest)))
  = true ->
  Forall (unanswered loads) rest ->
  let out := run_all_tests loads str_exn (new_run (c0 :: rest)) in
  fst out = Return tt
  /\ names (h_tester (snd out))
     = "Connection" :: before_devices ++ before_send ++ before_cleanup
  /\ (exists rs,
        test_results (h_tester (snd out)) = mkResult "Connection" passed None :: rs
        /\ Forall (fun r => tr_status r = failed) rs)
  /\ tests_passed (h_tester (snd out)) = 1%nat
  /\ tests_failed (h_tester (snd out)) = 43%nat
  /\ main loads str_exn (c0 :: rest) = 1.
Proof.
  intros Hc Hrest. cbv zeta. unfold main. rewrite run_all_tests_eq. cbv zeta.
  pose proof (test_cases loads str_exn locals "Connection" None None
                (new_run (c0 :: rest))) as Ht.
  pose proof (test_world loads str_exn locals "Connection" None None
                (new_run (c0 :: rest))) as Hw.
  pose proof (test_env loads str_exn locals "Connection" None
                (new_run (c0 :: rest))) as He.
  cbv zeta in Ht.
  destruct (test loads str_exn locals "Connection" None None
              (new_run (c0 :: rest))) as [b s1].
  cbn [fst snd new_run h_world h_env tl] in *. subst b.
  destruct Ht as [(Hf & _)|[(_ & Ht)|(Hf & _)]]; try discriminate.
  assert (Hd : dead loads s1) by (split; [now rewrite Hw|exact He]).
  destruct (dead_run_suite loads str_exn s1 Hd)
    as ([] & s2 & -> & _ & _ & rs & R & N & A & P & F).
  cbn [fst snd]. rewrite Ht in R, P, F. cbn in R, P, F.
  assert (Hlen : List.length rs = 43%nat).
  { rewrite <- (length_map tr_name), N. reflexivity. }
  rewrite Hlen in F.
  split; [reflexivity|]. split; [|split; [|split; [|split]]].
  - unfold names. rewrite R. cbn. now rewrite N.
  - exists rs. split; assumption.
  - exact P.
  - exact F.
  - now rewrite F.
Qed.

Lemma X16_remote_gone_after_the_check_witness :
  main Json.loads Json.str_exn [Ex.reply "{}"; Ex.closed; Ex.silent] = 1.
Proof.
  refine (proj2 (proj2 (proj2 (proj2 (proj2
            (X16_remote_gone_after_the_check Json.loads Json.str_exn
               (Ex.reply "{}") [Ex.closed; Ex.silent] _ _)))))).
  - vm_compute. reflexivity.
  - repeat constructor; eexists; vm_compute; reflexivity.
Defined.
